(** * Verification of the text-to-SQL pipeline of local-text-2-sql

    Shallow embedding of the Python sources:
    - [core/utils.py]: [sanitize_identifier], [clean_sql];
    - [agents/resolver.py]: [SemanticResolver.enrich];
    - [agents/critic.py]: [CriticAgent.execute_with_retry];
    - [core/engine.py]: [DuckDBEngine.execute];
    - [core/orchestrator.py]: [Orchestrator._is_database_question], [Orchestrator.run].

    Python [str] values are modelled as lists of characters; a character is
    an [ascii] read as a Latin-1 code point (U+0000 .. U+00FF), and the
    character classes ([str.isspace], [str.splitlines], [\w], [str.lower],
    [str.upper]) are written out for that range. *)

From Stdlib Require Import Ascii String List Bool Arith ZArith Lia.
Import ListNotations.
Open Scope list_scope.
Set Warnings "-register-all".

(** ** Python strings *)

Definition str := list ascii.

(** String literals. *)
Definition s (x : string) : str := list_ascii_of_string x.

Definition code (c : ascii) : nat := nat_of_ascii c.

Definition chr (n : nat) : ascii := ascii_of_nat n.

Fixpoint str_eqb (a b : str) : bool :=
  match a, b with
  | [], [] => true
  | x :: a', y :: b' => Ascii.eqb x y && str_eqb a' b'
  | _, _ => false
  end.

Fixpoint prefixb (p l : str) : bool :=
  match p, l with
  | [], _ => true
  | x :: p', y :: l' => Ascii.eqb x y && prefixb p' l'
  | _ :: _, [] => false
  end.

(** [needle in haystack] *)
Fixpoint containsb (needle hay : str) : bool :=
  match hay with
  | [] => prefixb needle []
  | _ :: hay' => prefixb needle hay || containsb needle hay'
  end.

(** [str.isspace] on one Latin-1 character: \t \n \v \f \r, the
    separators \x1c .. \x1f, space, NEL (\x85) and NBSP (\xa0). *)
Definition is_space (c : ascii) : bool :=
  let n := code c in
  ((9 <=? n) && (n <=? 13)) || ((28 <=? n) && (n <=? 32))
  || (n =? 133) || (n =? 160).

Fixpoint lstrip (l : str) : str :=
  match l with
  | [] => []
  | c :: l' => if is_space c then lstrip l' else l
  end.

(** [str.strip()] *)
Definition strip (l : str) : str := rev (lstrip (rev (lstrip l))).

(** Line boundaries of [str.splitlines] in Latin-1:
    \n \v \f \r \x1c \x1d \x1e \x85 (and \r\n as one boundary). *)
Definition is_line_break (c : ascii) : bool :=
  let n := code c in
  ((10 <=? n) && (n <=? 13)) || ((28 <=? n) && (n <=? 30)) || (n =? 133).

(** [str.splitlines()]: [cur] is the current line, reversed. *)
Fixpoint splitlines_aux (cur : str) (l : str) : list str :=
  match l with
  | [] => match cur with [] => [] | _ => [rev cur] end
  | c :: l' =>
      if is_line_break c then
        let l'' := if (code c =? 13)
                   then match l' with
                        | d :: l3 => if code d =? 10 then l3 else l'
                        | [] => l'
                        end
                   else l' in
        rev cur :: splitlines_aux [] l''
      else splitlines_aux (c :: cur) l'
  end.

Definition splitlines (l : str) : list str := splitlines_aux [] l.

(** [sep.join(parts)] *)
Fixpoint join (sep : str) (parts : list str) : str :=
  match parts with
  | [] => []
  | [p] => p
  | p :: ps => p ++ sep ++ join sep ps
  end.

Definition newline : str := [chr 10].

(** [str.upper()] as a sequence of code points: it maps a-z and the Latin-1
    lower-case letters to their capitals, [ß] to [SS], [µ] to U+039C and
    [ÿ] to U+0178. *)
Definition upper_char (c : ascii) : list nat :=
  let n := code c in
  if (97 <=? n) && (n <=? 122) then [n - 32]
  else if n =? 223 then [83; 83]
  else if n =? 181 then [924]
  else if n =? 255 then [376]
  else if (224 <=? n) && (n <=? 254) && negb (n =? 247) then [n - 32]
  else [n].

Definition py_upper (l : str) : list nat := flat_map upper_char l.

(** [str.lower()] on Latin-1: A-Z and the Latin-1 capitals (without the
    multiplication sign) move down by 32. *)
Definition lower_char (c : ascii) : ascii :=
  let n := code c in
  if ((65 <=? n) && (n <=? 90))
     || ((192 <=? n) && (n <=? 222) && negb (n =? 215))
  then chr (n + 32) else c.

Definition py_lower (l : str) : str := map lower_char l.

Fixpoint prefix_nat (p l : list nat) : bool :=
  match p, l with
  | [], _ => true
  | x :: p', y :: l' => (x =? y) && prefix_nat p' l'
  | _ :: _, [] => false
  end.

Definition codes (x : string) : list nat := map code (s x).

(** ** [core/utils.py] *)

Definition is_alpha_ascii (c : ascii) : bool :=
  let n := code c in ((65 <=? n) && (n <=? 90)) || ((97 <=? n) && (n <=? 122)).

Definition is_digit_ascii (c : ascii) : bool :=
  let n := code c in (48 <=? n) && (n <=? 57).

Definition is_underscore (c : ascii) : bool := code c =? 95.

(** The class [[a-zA-Z0-9_]]. *)
Definition is_ident_char (c : ascii) : bool :=
  is_alpha_ascii c || is_digit_ascii c || is_underscore c.

(** [re.match(r'^[a-zA-Z_]', clean)] *)
Definition starts_letter_or_underscore (l : str) : bool :=
  match l with
  | c :: _ => is_alpha_ascii c || is_underscore c
  | [] => false
  end.

Definition sanitize_identifier (identifier : str) : str :=
  let clean := filter is_ident_char identifier in
  let clean := if negb (starts_letter_or_underscore clean)
               then s "t_" ++ clean else clean in
  py_lower (firstn 64 clean).

Definition fence : str := s "```".

(** [cleaned.upper().startswith(("SELECT", "WITH", "INSERT", "UPDATE", "DELETE"))] *)
Definition starts_with_sql_keyword (l : str) : bool :=
  existsb (fun kw => prefix_nat (codes kw) (py_upper l))
    ["SELECT"; "WITH"; "INSERT"; "UPDATE"; "DELETE"]%string.

Definition clean_sql (raw : str) : str :=
  let cleaned := strip raw in
  if starts_with_sql_keyword cleaned then cleaned
  else if containsb fence cleaned then
    let lines := splitlines cleaned in
    let lines := match lines with
                 | l0 :: rest => if prefixb fence (strip l0) then rest else lines
                 | [] => lines
                 end in
    let lines := match lines with
                 | [] => lines
                 | _ => if str_eqb (strip (last lines [])) fence
                        then removelast lines else lines
                 end in
    strip (join newline lines)
  else cleaned.

(** [re.split(r"[\s\W]+", x)] on Latin-1 text.  [\w] is [str.isalnum()]
    or [_]; [\s] is contained in [\W].  Separator runs are maximal, so a
    leading or trailing run gives an empty piece, as in Python. *)
Definition is_word_char (c : ascii) : bool :=
  let n := code c in
  is_ident_char c
  || (n =? 170) || (n =? 178) || (n =? 179) || (n =? 181) || (n =? 185)
  || (n =? 186) || ((188 <=? n) && (n <=? 190))
  || ((192 <=? n) && (n <=? 255) && negb (n =? 215) && negb (n =? 247)).

Fixpoint re_split_aux (cur : str) (in_sep : bool) (l : str) : list str :=
  match l with
  | [] => [rev cur]
  | c :: l' =>
      if is_word_char c then re_split_aux (c :: cur) false l'
      else if in_sep then re_split_aux cur true l'
      else rev cur :: re_split_aux [] true l'
  end.

Definition re_split_nonword (l : str) : list str := re_split_aux [] false l.

(** [x.split("_")] *)
Fixpoint split_underscore_aux (cur : str) (l : str) : list str :=
  match l with
  | [] => [rev cur]
  | c :: l' => if is_underscore c then rev cur :: split_underscore_aux [] l'
               else split_underscore_aux (c :: cur) l'
  end.

Definition split_underscore (l : str) : list str := split_underscore_aux [] l.

Definition str_mem (x : str) (l : list str) : bool := existsb (str_eqb x) l.

(** ** Python values and dicts *)

(** Python dicts are association lists in insertion order; assigning an
    existing key replaces its value in place. *)
Fixpoint assoc_get {K V : Type} (eqk : K -> K -> bool) (k : K)
    (d : list (K * V)) : option V :=
  match d with
  | [] => None
  | (k', v) :: d' => if eqk k k' then Some v else assoc_get eqk k d'
  end.

Fixpoint assoc_set {K V : Type} (eqk : K -> K -> bool) (k : K) (v : V)
    (d : list (K * V)) : list (K * V) :=
  match d with
  | [] => [(k, v)]
  | (k', v') :: d' => if eqk k k' then (k', v) :: d'
                      else (k', v') :: assoc_set eqk k v d'
  end.

(** A cell of a query result. *)
Inductive Cell : Type :=
| CNull
| CInt (z : Z)
| CText (x : str).

(** A pandas DataFrame: column name to column values. *)
Definition DataFrame := list (str * list Cell).

Inductive PyVal : Type :=
| PBool (b : bool)
| PStr (x : str)
| PInt (z : Z)
| PFrame (d : DataFrame)
| PList (xs : list PyVal)
| PDict (d : list (str * PyVal))
| PNone.

Definition PyDict := list (str * PyVal).

Definition dict_get (k : str) (d : PyDict) : option PyVal := assoc_get str_eqb k d.

(** Exceptions: [ValueError], another subclass of [Exception], or a
    [BaseException] outside [Exception] (e.g. [KeyboardInterrupt]). *)
Inductive Exn : Type :=
| ValueError (msg : str)
| OtherException (cls msg : str)
| BaseExc (cls msg : str).

Definition is_Exception (e : Exn) : bool :=
  match e with BaseExc _ _ => false | _ => true end.

Definition exn_str (e : Exn) : str :=
  match e with ValueError m | OtherException _ m | BaseExc _ m => m end.

(** A call either returns a value or raises. *)
Inductive Outcome (A : Type) : Type :=
| Returned (a : A)
| Raised (e : Exn).
Arguments Returned {A} a.
Arguments Raised {A} e.

(** ** Schema, heap and world *)

Record ColInfo := mkColInfo { ci_column : str; ci_type : str }.

(** [{table: [{"column": .., "type": ..}, ..]}], an ordered dict. *)
Definition Schema := list (str * list ColInfo).

Definition schema_lookup (t : str) (sc : Schema) : list ColInfo :=
  match assoc_get str_eqb t sc with Some c => c | None => [] end.

(** Addresses of Python objects (here: schema dicts). *)
Definition Loc := nat.

(** The state the pipeline acts on: the Python heap of schema dicts, the
    DuckDB connection and the remote text-generation service. *)
Record World (DB LLM : Type) := mkWorld {
  w_heap : list (Loc * Schema);
  w_db : DB;
  w_llm : LLM
}.
Arguments mkWorld {DB LLM}.
Arguments w_heap {DB LLM}.
Arguments w_db {DB LLM}.
Arguments w_llm {DB LLM}.

Definition heap_get (h : list (Loc * Schema)) (l : Loc) : option Schema :=
  assoc_get Nat.eqb l h.

(** One entry of the retry history: [{"sql": .., "error": ..}]. *)
Record Attempt := mkAttempt { a_sql : str; a_error : str }.

(** Messages sent to the text-generation service, by the prompt builder
    that produced them and its arguments. *)
Inductive Prompt : Type :=
| GenerationPrompt (context question : str)
| CorrectionPrompt (schema_str question sql error : str) (history : list Attempt).

(** [{"keyword", "column", "table", "score"}] *)
Record Match := mkMatch {
  m_keyword : str; m_column : str; m_table : str; m_score : Z }.

(** [{"table", "column", "type"}] of [_all_columns] *)
Record ColEntry := mkColEntry { e_table : str; e_column : str; e_type : str }.

(** The matching mode chosen at start-up: with the sentence embedder,
    [sim kw col] is [cosine_similarity(encode([kw]), encode([col]))*100];
    without it, fuzzy matching only.  Similarity scores, integral for
    [fuzz.partial_ratio] and real for the cosine, are only compared with
    each other and the threshold, and are modelled in [Z]. *)
Inductive Mode : Type :=
| Hybrid (sim : str -> str -> Z)
| FuzzyOnly.

(** The state of a [SemanticResolver]. *)
Record Resolver := mkResolver {
  r_fuzzy_threshold : Z;
  r_all_columns : list ColEntry;
  r_mode : Mode }.

(** The message of the [ValueError] scikit-learn's input validation raises
    in [cosine_similarity] on an empty array; only its class matters here. *)
Definition semantic_empty_msg : str := s "cosine_similarity: empty array".

Record EnrichedContext := mkEnrichedContext {
  original_schema : Loc;
  column_matches : list Match;
  value_hints : list (str * list Cell);
  relevant_tables : list str }.

Definition STOP_WORDS : list str :=
  map s ["the"; "a"; "an"; "is"; "in"; "of"; "for"; "by"; "and";
         "or"; "to"; "show"; "me"; "what"; "how"; "many"; "which";
         "who"; "where"; "get"; "find"; "list"; "give"; "with"; "per"]%string.

(** [SemanticResolver._extract_keywords] *)
Definition extract_keywords (question : str) : list str :=
  filter (fun t => negb (str_eqb t []) && negb (str_mem t STOP_WORDS))
    (re_split_nonword (py_lower question)).

(** [SemanticResolver.__init__] / [refresh_schema]: the flat column list. *)
Definition all_columns_of (sc : Schema) : list ColEntry :=
  flat_map (fun tc => map (fun c => mkColEntry (fst tc) (ci_column c) (ci_type c)) (snd tc)) sc.

Definition key_eqb (a b : str * str) : bool :=
  str_eqb (fst a) (fst b) && str_eqb (snd a) (snd b).

(** [list(dict.fromkeys(xs))] *)
Fixpoint dedup_first (seen : list str) (xs : list str) : list str :=
  match xs with
  | [] => []
  | x :: xs' => if str_mem x seen then dedup_first seen xs'
                else x :: dedup_first (x :: seen) xs'
  end.

Section Pipeline.

Context {DB LLM : Type}.

(** [self.conn.execute(sql).df()] of DuckDB: the new connection state and
    the result frame, or the exception it raises. *)
Variable conn_execute : DB -> str -> DB * (DataFrame + Exn).

(** [DuckDBEngine.get_schema] (a [DESCRIBE] of every loaded table). *)
Variable get_schema : DB -> Schema.

(** [core.llm_client.chat]: a reply text, or a transport/availability
    failure raised by the client. *)
Variable chat : LLM -> Prompt -> LLM * (str + Exn).

(** [thefuzz.fuzz.partial_ratio]. *)
Variable partial_ratio : str -> str -> Z.

(** [prompts.templates.format_schema_for_prompt]. *)
Variable format_schema_for_prompt : Schema -> str.

(** The text of the generation context built in [Orchestrator.run] from
    [format_enriched_context], [detect_relationships] and
    [get_categorical_values] (prompt text only). *)
Variable assemble_context : Resolver -> EnrichedContext -> Schema -> DB -> str.

Local Abbreviation W := (World DB LLM) (only parsing).

Definition set_db (w : W) (db : DB) : W := mkWorld (w_heap w) db (w_llm w).
Definition set_llm (w : W) (l : LLM) : W := mkWorld (w_heap w) (w_db w) l.

(** [DuckDBEngine.execute]: any [Exception] of the connection is re-raised
    as [ValueError("SQL execution failed: ...")]. *)
Definition engine_execute (w : W) (sql : str) : W * (DataFrame + Exn) :=
  let (db', r) := conn_execute (w_db w) sql in
  match r with
  | inl df => (set_db w db', inl df)
  | inr e => if is_Exception e
             then (set_db w db', inr (ValueError (s "SQL execution failed: " ++ exn_str e)))
             else (set_db w db', inr e)
  end.

(** *** [SemanticResolver.enrich] *)

(** [SemanticResolver._get_semantic_scores(kw)], one score per entry of
    [_all_columns], or [None] when no embedder is loaded
    ([self._get_semantic_scores(kw) if self._embedder else None]).  With
    an empty [_all_columns] the column embeddings are an empty array, on
    which [cosine_similarity] raises [ValueError]; nothing catches it. *)
Definition semantic_scores (r : Resolver) (kw : str) : option (list Z) + Exn :=
  match r_mode r with
  | Hybrid sim =>
      match r_all_columns r with
      | [] => inr (ValueError semantic_empty_msg)
      | cols => inl (Some (map (fun e => sim kw (py_lower (e_column e))) cols))
      end
  | FuzzyOnly => inl None
  end.

(** The block [if score >= self.fuzzy_threshold: ...] of the inner loop. *)
Definition retain_match (threshold : Z) (best : list ((str * str) * Match))
    (kw : str) (entry : ColEntry) (score : Z) : list ((str * str) * Match) :=
  if (threshold <=? score)%Z then
    let key := (e_table entry, e_column entry) in
    let m := mkMatch kw (e_column entry) (e_table entry) score in
    match assoc_get key_eqb key best with
    | None => assoc_set key_eqb key m best
    | Some old => if (m_score old <? score)%Z then assoc_set key_eqb key m best else best
    end
  else best.

(** Body of the inner loop [for i, entry in enumerate(self._all_columns)]. *)
Definition enrich_entry (r : Resolver) (active_tables : list str) (kw : str)
    (sem : option (list Z)) (best : list ((str * str) * Match))
    (ie : nat * ColEntry) : list ((str * str) * Match) :=
  let (i, entry) := ie in
  if negb (str_mem (e_table entry) active_tables) then best else
  let fuzzy_score := partial_ratio kw (py_lower (e_column entry)) in
  let score := match sem with
               | Some ss => Z.max fuzzy_score (nth i ss 0%Z)
               | None => fuzzy_score
               end in
  retain_match (r_fuzzy_threshold r) best kw entry score.

(** The inner loop [for i, entry in enumerate(self._all_columns)] for one
    keyword, given its semantic scores. *)
Definition enrich_keyword (r : Resolver) (active_tables : list str) (kw : str)
    (sem : option (list Z)) (best : list ((str * str) * Match))
    : list ((str * str) * Match) :=
  fold_left (enrich_entry r active_tables kw sem)
    (combine (seq 0 (length (r_all_columns r))) (r_all_columns r)) best.

(** The outer loop [for kw in keywords]: an exception of
    [_get_semantic_scores] leaves the loop and [enrich]. *)
Fixpoint enrich_keywords (r : Resolver) (active_tables : list str)
    (keywords : list str) (best : list ((str * str) * Match))
    : list ((str * str) * Match) + Exn :=
  match keywords with
  | [] => inl best
  | kw :: kws =>
      match semantic_scores r kw with
      | inr e => inr e
      | inl sem => enrich_keywords r active_tables kws (enrich_keyword r active_tables kw sem best)
      end
  end.

(** [SELECT DISTINCT {col} FROM {table} WHERE {col} IS NOT NULL LIMIT 5] *)
Definition sample_sql (table col : str) : str :=
  s "SELECT DISTINCT " ++ col ++ s " FROM " ++ table ++ s " WHERE " ++ col
  ++ s " IS NOT NULL LIMIT 5".

(** The value-hint loop: [df[col].tolist()], or [[]] when the query or the
    column lookup raises an [Exception]. *)
Fixpoint sample_values (w : W) (ms : list Match) (hints : list (str * list Cell))
    : W * (list (str * list Cell) + Exn) :=
  match ms with
  | [] => (w, inl hints)
  | m :: ms' =>
      let key := m_table m ++ s "." ++ m_column m in
      let (w1, r) := engine_execute w (sample_sql (m_table m) (m_column m)) in
      match r with
      | inl df =>
          let vals := match assoc_get str_eqb (m_column m) df with
                      | Some v => v
                      | None => []   (* KeyError, caught *)
                      end in
          sample_values w1 ms' (assoc_set str_eqb key vals hints)
      | inr e =>
          if is_Exception e then sample_values w1 ms' (assoc_set str_eqb key [] hints)
          else (w1, inr e)
      end
  end.

(** [SemanticResolver.enrich(question, schema)], [schema] being the dict at
    address [schema_loc]. *)
Definition enrich (r : Resolver) (question : str) (schema_loc : Loc) (w : W)
    : W * (EnrichedContext + Exn) :=
  let keywords := extract_keywords question in
  match heap_get (w_heap w) schema_loc with
  | None => (w, inr (OtherException (s "AttributeError") (s "keys")))
  | Some schema =>
      let active_tables := map fst schema in
      match enrich_keywords r active_tables keywords [] with
      | inr e => (w, inr e)
      | inl best =>
          let matches := map snd best in
          let (w1, hr) := sample_values w matches [] in
          match hr with
          | inr e => (w1, inr e)
          | inl hints =>
              (w1, inl (mkEnrichedContext schema_loc matches hints
                          (dedup_first [] (map m_table matches))))
          end
      end
  end.

(** *** [CriticAgent.execute_with_retry] *)

Definition success_result (sql : str) (data : DataFrame) (attempt : Z) : PyDict :=
  [(s "success", PBool true); (s "sql", PStr sql); (s "data", PFrame data);
   (s "attempts", PInt attempt)].

Definition failure_result (sql error : str) (attempt : Z) : PyDict :=
  [(s "success", PBool false); (s "sql", PStr sql); (s "error", PStr error);
   (s "attempts", PInt attempt)].

(** The loop [for attempt in range(1, self.max_retries + 1)]: [fuel] is the
    number of iterations left, [history] the local list [history]. *)
Fixpoint retry_loop (max_retries : Z) (schema_str question : str) (fuel : nat)
    (attempt : Z) (current_sql : str) (history : list Attempt) (w : W)
    : W * list Attempt * Outcome PyDict :=
  match fuel with
  | O => (w, history,
          Returned (failure_result current_sql (s "Max retries exceeded") max_retries))
  | S fuel' =>
      let (w1, r) := engine_execute w current_sql in
      match r with
      | inl data => (w1, history, Returned (success_result current_sql data attempt))
      | inr (ValueError error_message) =>
          let history' := history ++ [mkAttempt current_sql error_message] in
          if (attempt =? max_retries)%Z then
            (w1, history', Returned (failure_result current_sql error_message attempt))
          else
            let messages := CorrectionPrompt schema_str question current_sql
                              error_message history' in
            let (l2, raw) := chat (w_llm w1) messages in
            let w2 := set_llm w1 l2 in
            match raw with
            | inl text => retry_loop max_retries schema_str question fuel' (attempt + 1)
                            (clean_sql text) history' w2
            | inr e => (w2, history', Raised e)
            end
      | inr e => (w1, history, Raised e)
      end
  end.

Definition execute_with_retry (max_retries : Z) (sql question : str) (schema : Schema)
    (w : W) : W * list Attempt * Outcome PyDict :=
  retry_loop max_retries (format_schema_for_prompt schema) question
    (Z.to_nat max_retries) 1 sql [] w.

(** *** [Orchestrator] *)

(** [Orchestrator._is_database_question], on the engine's schema. *)
Definition is_database_question (schema : Schema) (question : str) : bool :=
  let words := filter (fun x => negb (str_eqb x [])) (re_split_nonword (py_lower question)) in
  let table_names := map fst schema in
  let dynamic_keywords :=
    flat_map (fun table =>
                flat_map (fun col_info => split_underscore (py_lower (ci_column col_info)))
                         (schema_lookup table schema)) table_names
    ++ flat_map (fun table => split_underscore (py_lower table)) table_names in
  existsb (fun word =>
             str_mem word dynamic_keywords
             || existsb (fun table => (70 <=? partial_ratio word table)%Z) table_names)
          words.

(** The answer of [run] to a question the relevance gate rejects. *)
Definition rejection_result (schema : Schema) : PyDict :=
  let table_examples := join (s ", ") (firstn 3 (map fst schema)) in
  [(s "success", PBool false);
   (s "error", PStr (s "I can only answer questions about your database. "
                     ++ s "Try asking about "
                     ++ (if str_eqb table_examples [] then s "your data" else table_examples)
                     ++ s "."));
   (s "attempts", PInt 0)].

Definition match_dict (m : Match) : PyVal :=
  PDict [(s "keyword", PStr (m_keyword m)); (s "column", PStr (m_column m));
         (s "table", PStr (m_table m)); (s "score", PInt (m_score m))].

(** A fresh heap address for a new dict. *)
Definition fresh_loc (h : list (Loc * Schema)) : Loc := S (list_max (map fst h)).

(** [Orchestrator.run(question)]; the critic is [CriticAgent(self.engine)],
    so its retry budget is 3. *)
Definition run (resolver : Resolver) (question : str) (w : W) : W * Outcome PyDict :=
  if negb (is_database_question (get_schema (w_db w)) question) then
    let schema := get_schema (w_db w) in
    (w, Returned (rejection_result schema))
  else
    let schema := get_schema (w_db w) in
    let loc := fresh_loc (w_heap w) in
    let w0 := mkWorld (w_heap w ++ [(loc, schema)]) (w_db w) (w_llm w) in
    let (w1, er) := enrich resolver question loc w0 in
    match er with
    | inr e => (w1, Raised e)
    | inl enriched =>
        let context := assemble_context resolver enriched schema (w_db w1) in
        let (l2, raw) := chat (w_llm w1) (GenerationPrompt context question) in
        let w2 := set_llm w1 l2 in
        match raw with
        | inr e => (w2, Raised e)
        | inl text =>
            let sql := clean_sql text in
            let orig := match heap_get (w_heap w2) (original_schema enriched) with
                        | Some sc => sc
                        | None => []
                        end in
            let '(w3, _, out) := execute_with_retry 3 sql question orig w2 in
            match out with
            | Raised e => (w3, Raised e)
            | Returned result =>
                let result := assoc_set str_eqb (s "question") (PStr question) result in
                let result := assoc_set str_eqb (s "relevant_tables")
                                (PList (map PStr (relevant_tables enriched))) result in
                let result := assoc_set str_eqb (s "column_matches")
                                (PList (map match_dict (column_matches enriched))) result in
                (w3, Returned result)
            end
        end
    end.

(** *** Statement-side definitions, following the words of the spec *)

(** "combined score = max(lexical, semantic) when both are available, else
    lexical alone", lexical being the partial-match score against the
    lower-cased column name. *)
Definition combined_score (r : Resolver) (kw : str) (e : ColEntry) : Z :=
  let lexical := partial_ratio kw (py_lower (e_column e)) in
  match r_mode r with
  | Hybrid sim => Z.max lexical (sim kw (py_lower (e_column e)))
  | FuzzyOnly => lexical
  end.

End Pipeline.

(** The tokens of a question: lower-cased, split on whitespace and non-word
    characters, empty pieces dropped. *)
Definition question_words (question : str) : list str :=
  filter (fun x => negb (str_eqb x [])) (re_split_nonword (py_lower question)).

(** The business vocabulary of a schema: the underscore-split fragments of
    every (lower-cased) column name and table name. *)
Definition business_vocabulary (schema : Schema) : list str :=
  flat_map (fun tc => flat_map (fun c => split_underscore (py_lower (ci_column c))) (snd tc)
                      ++ split_underscore (py_lower (fst tc))) schema.

(** A lower-case letter, a digit or an underscore. *)
Definition is_lower_ident_char (c : ascii) : bool :=
  let n := code c in ((97 <=? n) && (n <=? 122)) || is_digit_ascii c || is_underscore c.

(** The fields an [ExecutionResult] has according to the data model. *)
Definition result_fields : list str := map s ["success"; "sql"; "data"; "error"; "attempts"]%string.

(** ** Test doubles for the concrete runs *)

Module Doubles.

(** The connection counts the statements it has run. *)
Definition DB := nat.
Definition LLM := nat.

Definition one_row : DataFrame := [(s "total", [CInt 1])].

(** A connection whose first [k] statements fail with a binder error. *)
Definition conn_fail_first (k : nat) (n : DB) (sql : str) : DB * (DataFrame + Exn) :=
  (S n, if n <? k then inr (OtherException (s "BinderException") (s "column not found"))
        else inl one_row).

(** A connection on which every statement fails. *)
Definition conn_always_fail (n : DB) (sql : str) : DB * (DataFrame + Exn) :=
  (S n, inr (OtherException (s "BinderException") (s "column not found"))).

(** A connection interrupted by the user. *)
Definition conn_interrupted (n : DB) (sql : str) : DB * (DataFrame + Exn) :=
  (S n, inr (BaseExc (s "KeyboardInterrupt") [])).

(** A generation service that answers with a fenced query, counting calls. *)
Definition chat_ok (n : LLM) (p : Prompt) : LLM * (str + Exn) :=
  (S n, inl (s "```sql" ++ newline ++ s "SELECT COUNT(*) AS total FROM orders"
             ++ newline ++ s "```")).

(** A generation service that is unreachable. *)
Definition chat_down (n : LLM) (p : Prompt) : LLM * (str + Exn) :=
  (S n, inr (OtherException (s "APIConnectionError") (s "Connection error."))).

Definition ratio_zero (a b : str) : Z := 0%Z.

(** A crude stand-in for [partial_ratio]: 100 when one string contains the
    other, 0 otherwise. *)
Definition ratio_substring (a b : str) : Z :=
  if containsb a b || containsb b a then 100%Z else 0%Z.

Definition schema_text (sc : Schema) : str := join newline (map fst sc).

Definition context_text (r : Resolver) (e : EnrichedContext) (sc : Schema) (db : DB) : str :=
  schema_text sc.

Definition orders_schema : Schema :=
  [(s "orders", [mkColInfo (s "customer_id") (s "BIGINT");
                 mkColInfo (s "order_date") (s "VARCHAR")])].

Definition customers_schema : Schema :=
  orders_schema ++ [(s "customers", [mkColInfo (s "customer_id") (s "BIGINT");
                                     mkColInfo (s "company_name") (s "VARCHAR")])].

Definition schema_of_db (sc : Schema) (db : DB) : Schema := sc.

Definition resolver_fuzzy (sc : Schema) : Resolver :=
  mkResolver 70 (all_columns_of sc) FuzzyOnly.

(** An embedder that scores a keyword 80 against every column. *)
Definition resolver_hybrid (sc : Schema) : Resolver :=
  mkResolver 70 (all_columns_of sc) (Hybrid (fun _ _ => 80%Z)).

Definition world0 (sc : Schema) : World DB LLM := mkWorld [(0, sc)] 0 0.

(** [DESCRIBE] results read as the columns of [orders], or as its key
    column alone. *)
Definition describe_orders (df : DataFrame) : list ColInfo :=
  [mkColInfo (s "customer_id") (s "BIGINT"); mkColInfo (s "order_date") (s "VARCHAR")].

Definition describe_ids (df : DataFrame) : list ColInfo :=
  [mkColInfo (s "customer_id") (s "BIGINT")].

End Doubles.

(** ** Keys and the retention invariant of [enrich] *)

Definition entry_key (e : ColEntry) : str * str := (e_table e, e_column e).

Definition match_key (m : Match) : str * str := (m_table m, m_column m).

(** The retention step of [enrich] applied in turn to a list of
    (keyword, column entry) candidates scored by [sc]. *)
Definition retain_all (threshold : Z) (sc : str -> ColEntry -> Z)
    (cands : list (str * ColEntry)) (best : list ((str * str) * Match))
    : list ((str * str) * Match) :=
  fold_left (fun b c => retain_match threshold b (fst c) (snd c) (sc (fst c) (snd c)))
    cands best.

(** What the retained dict says about the candidates seen so far: keys are
    unique; each retained match clears the threshold, is the score of a
    candidate for its key, and that candidate is the first of the highest
    score for the key; and every candidate that clears the threshold has its
    key retained. *)
Definition retain_invariant (threshold : Z) (sc : str -> ColEntry -> Z)
    (cands : list (str * ColEntry)) (best : list ((str * str) * Match)) : Prop :=
  NoDup (map fst best) /\
  (forall k m, In (k, m) best ->
     k = match_key m /\ (threshold <= m_score m)%Z /\
     exists C1 e C2, cands = C1 ++ (m_keyword m, e) :: C2 /\ entry_key e = k /\
       sc (m_keyword m) e = m_score m /\
       (forall c, In c C1 -> entry_key (snd c) = k -> (sc (fst c) (snd c) < m_score m)%Z) /\
       (forall c, In c C2 -> entry_key (snd c) = k -> (sc (fst c) (snd c) <= m_score m)%Z)) /\
  (forall c, In c cands -> (threshold <= sc (fst c) (snd c))%Z ->
     exists m, In (entry_key (snd c), m) best).

(** The (keyword, column entry) pairs the two loops of [enrich] score, in
    loop order: for each keyword, the entries of [_all_columns] whose table is
    active. *)
Definition enrich_candidates (r : Resolver) (active_tables : list str) (keywords : list str)
    : list (str * ColEntry) :=
  flat_map (fun kw => map (pair kw) (filter (fun e => str_mem (e_table e) active_tables)
                                       (r_all_columns r))) keywords.

(** ** Further code of the repository *)

(** *** Rendering values as text *)

(** Decimal digits of [n], most significant first, prepended to [acc]. *)
Fixpoint dec_digits (fuel : nat) (n : N) (acc : str) : str :=
  match fuel with
  | O => acc
  | S f =>
      let acc' := chr (48 + N.to_nat (N.modulo n 10)) :: acc in
      if (n <? 10)%N then acc' else dec_digits f (N.div n 10) acc'
  end.

(** [str(n)] of a non-negative integer. *)
Definition N_to_dec (n : N) : str := dec_digits (S (N.size_nat n)) n [].

Definition nat_to_dec (n : nat) : str := N_to_dec (N.of_nat n).

(** [str(z)] of an integer. *)
Definition Z_to_dec (z : Z) : str :=
  if (z <? 0)%Z then s "-" ++ N_to_dec (Z.to_N (- z)) else N_to_dec (Z.to_N z).

(** [str(v)] of a result cell. *)
Definition cell_str (c : Cell) : str :=
  match c with
  | CNull => s "None"
  | CInt z => Z_to_dec z
  | CText x => x
  end.

(** A double quote character. *)
Definition dq : str := [chr 34].

(** *** [prompts/templates.py] *)

Definition NORTHWIND_RELATIONSHIPS : str :=
  newline ++ s "Relationships:" ++ newline
  ++ s "  orders.customerID -> customers.customerID" ++ newline
  ++ s "  orders.employeeID -> employees.employeeID" ++ newline
  ++ s "  order_details.orderID -> orders.orderID" ++ newline
  ++ s "  order_details.productID -> products.productID" ++ newline
  ++ s "  products.categoryID -> categories.categoryID" ++ newline.

Definition graybook_note : str :=
  newline ++ s "    NOTE: 'Job Title' is ALL CAPS ('PROFESSOR', 'ASST PROFESSOR'). 'Employee Name' format: 'Lastname, Firstname'. Always use LOWER() or ILIKE for string matching.".

Definition tre_note : str :=
  newline ++ s "    NOTE: Department is in column 'unit' (ALL CAPS e.g. 'COMPUTER SCIENCE'). 'role' column: 'Instructor', 'TA', 'Professor'. 'ranking' column: 'Excellent', 'Good', 'Fair'. 'lname' and 'fname' are separate columns (ALL CAPS).".

Definition gpa_note : str :=
  newline ++ s "    NOTE: 'Subject' uses abbreviations ('CS', 'MATH') NOT full names. 'Primary Instructor' format: 'Lastname, Firstname'. Grade columns ('A+', 'A', 'A-') are separate.".

Definition graybook_tre_rule : str :=
  s "- graybook <-> uiuctredataset: Match on LOWER(graybook." ++ dq ++ s "Employee Name" ++ dq
  ++ s ") LIKE '%' || LOWER(uiuctredataset.lname) || '%' AND graybook." ++ dq
  ++ s "Employee Name" ++ dq ++ s " LIKE '%' || uiuctredataset.fname || '%'".

Definition graybook_gpa_rule : str :=
  s "- graybook <-> uiucgpadataset1: Match on graybook." ++ dq ++ s "Employee Name" ++ dq
  ++ s " LIKE '%' || split_part(uiucgpadataset1." ++ dq ++ s "Primary Instructor" ++ dq
  ++ s ",',',1) || '%'".

(** [f"    {c['column']} ({c['type']})"] *)
Definition column_line (c : ColInfo) : str :=
  s "    " ++ ci_column c ++ s " (" ++ ci_type c ++ s ")".

(** One entry of [parts] in [format_schema_for_prompt]. *)
Definition table_part (tc : str * list ColInfo) : str :=
  let col_lines := join newline (map column_line (snd tc)) in
  let t_lower := py_lower (fst tc) in
  let table_note :=
    if containsb (s "graybook") t_lower then graybook_note
    else if containsb (s "uiuctredataset") t_lower then tre_note
    else if containsb (s "uiucgpadataset1") t_lower then gpa_note
    else [] in
  s "Table: " ++ fst tc ++ newline ++ col_lines ++ table_note.

Definition format_schema_for_prompt (schema : Schema) : str :=
  let tables_lower := map (fun tc => py_lower (fst tc)) schema in
  let has_graybook := existsb (containsb (s "graybook")) tables_lower in
  let has_tre := existsb (containsb (s "uiuctredataset")) tables_lower in
  let has_gpa := existsb (containsb (s "uiucgpadataset1")) tables_lower in
  let res := join (newline ++ newline) (map table_part schema) ++ newline
             ++ NORTHWIND_RELATIONSHIPS in
  let cross_rules := (if has_graybook && has_tre then [graybook_tre_rule] else [])
                     ++ (if has_graybook && has_gpa then [graybook_gpa_rule] else []) in
  match cross_rules with
  | [] => res
  | _ => res ++ newline ++ newline ++ s "### CROSS TABLE JOIN RULES:" ++ newline
         ++ join newline cross_rules
  end.

(** A chat message [{"role": .., "content": ..}]. *)
Definition Message := list (str * str).

Definition msg_get (k : str) (m : Message) : option str := assoc_get str_eqb k m.

(** The text [history_str] of [get_correction_prompt]. *)
Definition correction_history_str (history : list Attempt) : str :=
  match history with
  | [] => []
  | _ => newline ++ s "Previous failed attempts:" ++ newline
         ++ concat (map (fun ia => newline ++ s "Attempt " ++ nat_to_dec (fst ia) ++ s ":"
                                   ++ newline ++ s "SQL: " ++ a_sql (snd ia) ++ newline
                                   ++ s "Error: " ++ a_error (snd ia) ++ newline)
                        (combine (seq 1 (length history)) history))
  end.

Definition correction_system : str :=
  s "You are an expert SQL debugger for DuckDB. " ++ newline
  ++ s "You fix broken SQL queries." ++ newline
  ++ s "Study all previous attempts to avoid repeating the same mistakes." ++ newline
  ++ s "Return ONLY the raw SQL query.".

Definition correction_user (schema question failed_sql error_message : str)
    (history : list Attempt) : str :=
  s "Original question: " ++ question ++ newline ++ newline
  ++ s "Schema:" ++ newline ++ schema ++ newline
  ++ correction_history_str history ++ newline
  ++ s "Current failing SQL:" ++ newline ++ failed_sql ++ newline ++ newline
  ++ s "Current error:" ++ newline ++ error_message ++ newline ++ newline
  ++ s "Fix the SQL query. Return only the corrected query with no markdown or explanation.".

Definition get_correction_prompt (schema question failed_sql error_message : str)
    (history : list Attempt) : list Message :=
  [[(s "role", s "system"); (s "content", correction_system)];
   [(s "role", s "user");
    (s "content", correction_user schema question failed_sql error_message history)]].

(** *** [core/llm_client.py] *)

(** [KeyError(k)] of a missing dict key. *)
Definition KeyError (k : str) : Exn := OtherException (s "KeyError") (s "'" ++ k ++ s "'").

(** The loop of [_prepare_anthropic_payload]. *)
Fixpoint prepare_loop (msgs : list Message) (system_prompt : option str)
    (other_messages : list Message) : (option str * list Message) + Exn :=
  match msgs with
  | [] => inl (system_prompt, other_messages)
  | msg :: rest =>
      match msg_get (s "role") msg with
      | None => inr (KeyError (s "role"))
      | Some role =>
          if str_eqb role (s "system") then
            match msg_get (s "content") msg with
            | None => inr (KeyError (s "content"))
            | Some c => prepare_loop rest (Some c) other_messages
            end
          else prepare_loop rest system_prompt (other_messages ++ [msg])
      end
  end.

Definition system_block (p : str) : PyVal :=
  PDict [(s "type", PStr (s "text")); (s "text", PStr p);
         (s "cache_control", PDict [(s "type", PStr (s "ephemeral"))])].

(** [_prepare_anthropic_payload(messages)]: the system blocks and the other
    messages. *)
Definition prepare_anthropic_payload (messages : list Message)
    : (list PyVal * list Message) + Exn :=
  match prepare_loop messages None [] with
  | inr e => inr e
  | inl (system_prompt, other_messages) =>
      let system_blocks :=
        match system_prompt with
        | Some p => if str_eqb p [] then [] else [system_block p]
        | None => []
        end in
      inl (system_blocks, other_messages)
  end.

(** *** [core/engine.py]: relationships and categorical values *)

(** The pairs [(t1, t2)] of [for i, t1 in enumerate(tables): for t2 in tables[i+1:]]. *)
Fixpoint table_pairs (ts : list str) : list (str * str) :=
  match ts with
  | [] => []
  | t1 :: rest => map (pair t1) rest ++ table_pairs rest
  end.

Definition relationship (t1 c1 t2 c2 : str) : str :=
  t1 ++ s "." ++ c1 ++ s " <-> " ++ t2 ++ s "." ++ c2.

(** [DuckDBEngine.detect_relationships()] on the schema [self.get_schema()]
    returns, [ratio] being [fuzz.ratio]. *)
Definition detect_relationships (ratio : str -> str -> Z) (schema : Schema) : list str :=
  flat_map (fun (tt : str * str) =>
    let (t1, t2) := tt in
    flat_map (fun c1 =>
      flat_map (fun c2 =>
        if (85 <=? ratio (py_lower (ci_column c1)) (py_lower (ci_column c2)))%Z
        then [relationship t1 (ci_column c1) t2 (ci_column c2)] else [])
        (schema_lookup t2 schema))
      (schema_lookup t1 schema))
    (table_pairs (map fst schema)).

Definition count_distinct_sql (table col : str) : str :=
  s "SELECT COUNT(DISTINCT " ++ dq ++ col ++ dq ++ s ") FROM " ++ dq ++ table ++ dq.

Definition distinct_values_sql (table col : str) : str :=
  s "SELECT DISTINCT " ++ dq ++ col ++ dq ++ s " FROM " ++ dq ++ table ++ dq
  ++ s " WHERE " ++ dq ++ col ++ dq ++ s " IS NOT NULL".

(** [cursor.fetchone()[0]]: the first cell of the first row; [None] when
    there is none ([None[0]] raises a [TypeError]). *)
Definition fetchone_first (df : DataFrame) : option Cell :=
  match df with
  | (_, c :: _) :: _ => Some c
  | _ => None
  end.

(** [[v[0] for v in cursor.fetchall()]]: the first column. *)
Definition fetchall_first (df : DataFrame) : list Cell :=
  match df with
  | (_, cs) :: _ => cs
  | [] => []
  end.

Definition TEXT_TYPES : list str := map s ["VARCHAR"; "TEXT"; "STRING"]%string.

Section Engine.

Context {DB LLM : Type}.
Variable conn_execute : DB -> str -> DB * (DataFrame + Exn).

(** [[{"column": row["column_name"], "type": str(row["column_type"])}
    for _, row in df.iterrows()]] on the result of a [DESCRIBE]. *)
Variable describe_columns : DataFrame -> list ColInfo.

Local Abbreviation W := (World DB LLM) (only parsing).

Definition describe_sql (table : str) : str := s "DESCRIBE " ++ dq ++ table ++ dq.

(** [DuckDBEngine.get_schema()], [tables] being [self._tables]: one
    [DESCRIBE] per table, with no handler around it. *)
Fixpoint get_schema (w : W) (tables : list str) (schema : Schema) : W * (Schema + Exn) :=
  match tables with
  | [] => (w, inl schema)
  | table :: tables' =>
      let (db1, r) := conn_execute (w_db w) (describe_sql table) in
      let w1 := mkWorld (w_heap w) db1 (w_llm w) in
      match r with
      | inr e => (w1, inr e)
      | inl df => get_schema w1 tables' (assoc_set str_eqb table (describe_columns df) schema)
      end
  end.

(** The body of [for col in cols] in [get_categorical_values]. *)
Definition categorical_column (w : W) (table : str) (col : ColInfo)
    (categoricals : list (str * list Cell)) : W * (list (str * list Cell) + Exn) :=
  if negb (str_mem (ci_type col) TEXT_TYPES) then (w, inl categoricals) else
  let (db1, r1) := conn_execute (w_db w) (count_distinct_sql table (ci_column col)) in
  let w1 := mkWorld (w_heap w) db1 (w_llm w) in
  match r1 with
  | inr e => if is_Exception e then (w1, inl categoricals) else (w1, inr e)
  | inl df =>
      match fetchone_first df with
      | Some (CInt count) =>
          if (0 <? count)%Z && (count <=? 50)%Z then
            let (db2, r2) := conn_execute db1 (distinct_values_sql table (ci_column col)) in
            let w2 := mkWorld (w_heap w) db2 (w_llm w) in
            match r2 with
            | inl vals =>
                (w2, inl (assoc_set str_eqb (table ++ s "." ++ ci_column col)
                            (fetchall_first vals) categoricals))
            | inr e => if is_Exception e then (w2, inl categoricals) else (w2, inr e)
            end
          else (w1, inl categoricals)
      | _ => (w1, inl categoricals)   (* TypeError, caught *)
      end
  end.

Fixpoint categorical_columns (w : W) (table : str) (cols : list ColInfo)
    (categoricals : list (str * list Cell)) : W * (list (str * list Cell) + Exn) :=
  match cols with
  | [] => (w, inl categoricals)
  | col :: cols' =>
      let (w1, r) := categorical_column w table col categoricals in
      match r with
      | inl c1 => categorical_columns w1 table cols' c1
      | inr e => (w1, inr e)
      end
  end.

Fixpoint categorical_tables (w : W) (schema : Schema)
    (categoricals : list (str * list Cell)) : W * (list (str * list Cell) + Exn) :=
  match schema with
  | [] => (w, inl categoricals)
  | (table, cols) :: rest =>
      let (w1, r) := categorical_columns w table cols categoricals in
      match r with
      | inl c1 => categorical_tables w1 rest c1
      | inr e => (w1, inr e)
      end
  end.

(** [DuckDBEngine.get_categorical_values()], [tables] being [self._tables]:
    [schema = self.get_schema()] is outside the [try]. *)
Definition get_categorical_values (tables : list str) (w : W)
    : W * (list (str * list Cell) + Exn) :=
  let (w1, r) := get_schema w tables [] in
  match r with
  | inr e => (w1, inr e)
  | inl schema => categorical_tables w1 schema []
  end.

End Engine.

(** *** [SemanticResolver.format_enriched_context] *)

Definition mode_name (r : Resolver) : str :=
  match r_mode r with
  | Hybrid _ => s "hybrid"
  | FuzzyOnly => s "fuzzy"
  end.

(** [{t: original_schema[t] for t in relevant_tables if t in original_schema}] *)
Definition restrict_schema (relevant : list str) (original : Schema) : Schema :=
  fold_left (fun acc t => match assoc_get str_eqb t original with
                          | Some cols => assoc_set str_eqb t cols acc
                          | None => acc
                          end) relevant [].

(** The list [parts] of [format_enriched_context], [original] being the dict
    [enriched["original_schema"]]. *)
Definition format_enriched_parts (r : Resolver) (original : Schema)
    (enriched : EnrichedContext) : list str :=
  let filtered_schema := restrict_schema (relevant_tables enriched) original in
  let filtered_schema := match filtered_schema with [] => original | _ => filtered_schema end in
  let parts := [s "Matching mode: " ++ mode_name r ++ newline
                ++ format_schema_for_prompt filtered_schema] in
  match column_matches enriched with
  | [] => parts
  | ms =>
      parts ++ [s "Semantic Hints:"]
      ++ map (fun m => s "  '" ++ m_keyword m ++ s "' likely refers to "
                       ++ m_table m ++ s "." ++ m_column m) ms
      ++ flat_map (fun kv => match snd kv with
                             | [] => []
                             | vs => [s "  Sample values for " ++ fst kv ++ s ": "
                                      ++ join (s ", ") (map cell_str vs)]
                             end) (value_hints enriched)
  end.

Definition format_enriched_context (r : Resolver) (h : list (Loc * Schema))
    (enriched : EnrichedContext) : str :=
  let original := match heap_get h (original_schema enriched) with
                  | Some sc => sc
                  | None => []
                  end in
  join newline (format_enriched_parts r original enriched).

(** *** [api/routes.py] *)

(** [{t: cols for t, cols in schema.items() if t in selected_tables}] *)
Definition prune_schema (selected_tables : list str) (schema : Schema) : Schema :=
  filter (fun tc => str_mem (fst tc) selected_tables) schema.

(** * Proofs *)

(** ** String lemmas *)

Lemma str_eqb_eq : forall a b, str_eqb a b = true <-> a = b.
Proof.
  induction a as [|x a IH]; destruct b as [|y b]; simpl; split; intro H;
    try discriminate; try reflexivity.
  - apply andb_prop in H as [H1 H2]. apply Ascii.eqb_eq in H1.
    apply IH in H2. subst. reflexivity.
  - inversion H; subst. rewrite Ascii.eqb_refl. simpl. apply IH. reflexivity.
Qed.


Lemma str_eqb_refl : forall a, str_eqb a a = true.
Proof. intro a. apply str_eqb_eq. reflexivity. Qed.

Lemma str_mem_In : forall x l, str_mem x l = true <-> In x l.
Proof.
  intros x l. unfold str_mem. rewrite existsb_exists. split.
  - intros [y [Hy Heq]]. apply str_eqb_eq in Heq. subst. exact Hy.
  - intro H. exists x. split; [exact H | apply str_eqb_refl].
Qed.

(** Case analysis on the 256 characters. *)
Ltac all_chars c :=
  destruct c as [[] [] [] [] [] [] [] []]; vm_compute; try reflexivity;
  try discriminate; auto.

Lemma lower_ident_char : forall c,
  is_ident_char c = true -> is_lower_ident_char (lower_char c) = true.
Proof. intro c. all_chars c. Qed.

Lemma lower_head_char : forall c,
  is_alpha_ascii c || is_underscore c = true ->
  is_alpha_ascii (lower_char c) || is_underscore (lower_char c) = true.
Proof. intro c. all_chars c. Qed.

Lemma lstrip_suffix : forall l, exists p, l = p ++ lstrip l.
Proof.
  induction l as [|c l [p Hp]]; simpl.
  - exists []. reflexivity.
  - destruct (is_space c).
    + exists (c :: p). simpl. f_equal. exact Hp.
    + exists []. reflexivity.
Qed.

Lemma lstrip_head : forall l c l', lstrip l = c :: l' -> is_space c = false.
Proof.
  induction l as [|d l IH]; simpl; intros c l' H; [discriminate|].
  destruct (is_space d) eqn:Hd; [eapply IH; eassumption|].
  inversion H; subst. exact Hd.
Qed.

Lemma lstrip_idem : forall l, lstrip (lstrip l) = lstrip l.
Proof.
  intro l. destruct (lstrip l) as [|c l'] eqn:E; [reflexivity|].
  simpl. rewrite (lstrip_head _ _ _ E). reflexivity.
Qed.

Lemma strip_idem : forall l, strip (strip l) = strip l.
Proof.
  intro l. unfold strip.
  set (y := lstrip l).
  set (A := rev (lstrip (rev y))).
  assert (HA : lstrip A = A).
  { destruct (lstrip_suffix (rev y)) as [p Hp].
    assert (Hy : y = A ++ rev p).
    { unfold A. rewrite <- rev_app_distr, <- Hp, rev_involutive. reflexivity. }
    destruct A as [|a A'] eqn:EA; [reflexivity|].
    simpl. unfold y in Hy. simpl in Hy.
    rewrite (lstrip_head l a (A' ++ rev p) Hy). reflexivity. }
  rewrite HA. unfold A. rewrite rev_involutive, lstrip_idem. reflexivity.
Qed.

(** Every output of [clean_sql] is stripped. *)
Lemma clean_sql_stripped : forall raw, strip (clean_sql raw) = clean_sql raw.
Proof.
  intro raw. unfold clean_sql. cbv zeta.
  destruct (starts_with_sql_keyword (strip raw)); [apply strip_idem|].
  destruct (containsb fence (strip raw)); apply strip_idem.
Qed.

(** ** C7: [sanitize_identifier] *)

(** C7 (confirmed). [sanitize_identifier("Order Details") == "orderdetails"],
    [sanitize_identifier("123abc") == "t_123abc"], and for every input the
    output is non-empty, made of lower-case letters, digits and underscores,
    starts with a letter or an underscore and has at most 64 characters. *)
Theorem sanitize_identifier_spec :
  sanitize_identifier (s "Order Details") = s "orderdetails" /\
  sanitize_identifier (s "123abc") = s "t_123abc" /\
  forall identifier,
    let out := sanitize_identifier identifier in
    out <> [] /\
    Forall (fun c => is_lower_ident_char c = true) out /\
    starts_letter_or_underscore out = true /\
    length out <= 64.
Proof.
  split; [reflexivity|]. split; [reflexivity|].
  intro identifier. cbv zeta. unfold sanitize_identifier.
  set (clean := filter is_ident_char identifier).
  set (clean' := if negb (starts_letter_or_underscore clean) then s "t_" ++ clean else clean).
  assert (Hall : Forall (fun c => is_ident_char c = true) clean').
  { assert (H0 : Forall (fun c => is_ident_char c = true) clean).
    { apply Forall_forall. intros c Hc. apply filter_In in Hc. apply Hc. }
    unfold clean'. destruct (negb _); [|exact H0].
    repeat constructor; exact H0. }
  assert (Hstart : starts_letter_or_underscore clean' = true).
  { unfold clean'. destruct (starts_letter_or_underscore clean) eqn:E; simpl; [exact E|].
    reflexivity. }
  destruct clean' as [|c rest] eqn:Ec; [discriminate|].
  change (firstn 64 (c :: rest)) with (c :: firstn 63 rest).
  unfold py_lower. cbn [map].
  repeat split.
  - discriminate.
  - inversion Hall as [|? ? Hc Hrest]; subst. constructor.
    + apply lower_ident_char. exact Hc.
    + apply Forall_map. apply Forall_forall. intros x Hx.
      apply lower_ident_char. rewrite Forall_forall in Hrest.
      apply Hrest. rewrite <- (firstn_skipn 63 rest). apply in_or_app. left. exact Hx.
  - simpl in Hstart |- *. apply lower_head_char. exact Hstart.
  - cbn [length]. rewrite length_map. pose proof (firstn_le_length 63 rest). lia.
Qed.

(** ** C6: [clean_sql] *)

(** C6 (counterexample). A doubly fenced reply is unwrapped one fence per
    call: [clean_sql] of it still carries a fence, which a second call
    removes, so [clean_sql (clean_sql x) <> clean_sql x]. *)
Lemma clean_sql_not_idempotent :
  let x := s "```sql" ++ newline ++ s "```sql" ++ newline ++ s "SELECT 1"
           ++ newline ++ s "```" ++ newline ++ s "```" in
  clean_sql x = s "```sql" ++ newline ++ s "SELECT 1" ++ newline ++ s "```" /\
  clean_sql (clean_sql x) = s "SELECT 1" /\
  clean_sql (clean_sql x) <> clean_sql x.
Proof. vm_compute. split; [reflexivity|]. split; [reflexivity|]. discriminate. Qed.

Lemma strip_edges : forall y c rest,
  strip y = c :: rest -> is_space c = false /\ is_space (last (c :: rest) c) = false.
Proof.
  intros y c rest H. unfold strip in H.
  destruct (lstrip_suffix (rev (lstrip y))) as [p Hp].
  remember (lstrip (rev (lstrip y))) as M eqn:EM.
  assert (HM : M = rev (c :: rest)) by (rewrite <- H, rev_involutive; reflexivity).
  destruct M as [|d M']; [simpl in HM; destruct (rev rest); discriminate|].
  split.
  - assert (HL : lstrip y = c :: rest ++ rev p).
    { rewrite <- (rev_involutive (lstrip y)), Hp, rev_app_distr, H. reflexivity. }
    exact (lstrip_head y c (rest ++ rev p) HL).
  - assert (Hd : is_space d = false) by (apply (lstrip_head (rev (lstrip y)) d M'); rewrite <- EM; reflexivity).
    rewrite <- H. simpl rev. rewrite last_last. exact Hd.
Qed.

Lemma line_break_space : forall c, is_line_break c = true -> is_space c = true.
Proof. intro c. all_chars c. Qed.

Lemma lstrip_In : forall l c, In c (lstrip l) -> In c l.
Proof.
  intros l c H. destruct (lstrip_suffix l) as [p Hp]. rewrite Hp.
  apply in_or_app. right. exact H.
Qed.

Lemma strip_In : forall l c, In c (strip l) -> In c l.
Proof.
  intros l c H. unfold strip in H. apply in_rev in H. apply lstrip_In in H.
  apply in_rev in H. apply lstrip_In in H. exact H.
Qed.

Lemma lstrip_length : forall l, length (lstrip l) <= length l.
Proof.
  intro l. destruct (lstrip_suffix l) as [p Hp].
  rewrite Hp at 2. rewrite length_app. lia.
Qed.

Lemma strip_length : forall l, length (strip l) <= length l.
Proof.
  intro l. unfold strip. rewrite length_rev.
  pose proof (lstrip_length (rev (lstrip l))). rewrite length_rev in H.
  pose proof (lstrip_length l). lia.
Qed.

Lemma prefixb_length : forall p l, prefixb p l = true -> length p <= length l.
Proof.
  induction p as [|x p IH]; intros l H; [simpl; lia|].
  destruct l as [|y l]; [discriminate|]. simpl in H |- *.
  apply andb_prop in H as [_ H]. apply IH in H. lia.
Qed.

(** Every line [str.splitlines] returns is free of line boundaries. *)
Lemma splitlines_aux_no_break : forall n l cur,
  length l <= n ->
  (forall c, In c cur -> is_line_break c = false) ->
  forall x, In x (splitlines_aux cur l) -> forall c, In c x -> is_line_break c = false.
Proof.
  induction n as [|n IH]; intros l cur Hlen Hcur x Hx c Hc.
  - destruct l; [|simpl in Hlen; lia].
    destruct cur as [|d cur']; [destruct Hx|].
    destruct Hx as [Hx | []]. subst x. apply in_rev in Hc. exact (Hcur c Hc).
  - destruct l as [|d l'].
    + destruct cur as [|d cur']; [destruct Hx|].
      destruct Hx as [Hx | []]. subst x. apply in_rev in Hc. exact (Hcur c Hc).
    + cbn [splitlines_aux] in Hx. simpl in Hlen.
      destruct (is_line_break d) eqn:Hd.
      * destruct Hx as [Hx | Hx].
        -- subst x. apply in_rev in Hc. exact (Hcur c Hc).
        -- assert (Hnil : forall c0, In c0 (@nil ascii) -> is_line_break c0 = false)
             by (intros ? []).
           destruct (code d =? 13).
           ++ destruct l' as [|d2 l3].
              ** exact (IH [] [] ltac:(simpl; lia) Hnil x Hx c Hc).
              ** destruct (code d2 =? 10).
                 --- simpl in Hlen. exact (IH l3 [] ltac:(lia) Hnil x Hx c Hc).
                 --- exact (IH (d2 :: l3) [] ltac:(lia) Hnil x Hx c Hc).
           ++ exact (IH l' [] ltac:(lia) Hnil x Hx c Hc).
      * apply (IH l' (d :: cur) ltac:(lia)) with (x := x); [|exact Hx|exact Hc].
        intros c0 [Hc0 | Hc0]; [subst c0; exact Hd | exact (Hcur c0 Hc0)].
Qed.

Lemma splitlines_no_break : forall l x,
  In x (splitlines l) -> forall c, In c x -> is_line_break c = false.
Proof.
  intros l x Hx. apply (splitlines_aux_no_break (length l) l []); [lia | intros ? [] | exact Hx].
Qed.

Lemma join_In : forall sep L c,
  In c (join sep L) -> In c sep \/ exists x, In x L /\ In c x.
Proof.
  intros sep L c. induction L as [|x L IH]; intro H; [destruct H|].
  destruct L as [|y L'].
  - right. exists x. split; [left; reflexivity | exact H].
  - change (join sep (x :: y :: L')) with (x ++ sep ++ join sep (y :: L')) in H.
    apply in_app_or in H as [H | H]; [right; exists x; split; [left; reflexivity | exact H]|].
    apply in_app_or in H as [H | H]; [left; exact H|].
    destruct (IH H) as [Hs | [z [Hz Hcz]]]; [left; exact Hs|].
    right. exists z. split; [right; exact Hz | exact Hcz].
Qed.

Lemma join_newline_chars : forall L c,
  In c (join newline L) ->
  (forall x, In x L -> forall d, In d x -> is_line_break d = false) ->
  is_line_break c = true -> c = chr 10.
Proof.
  intros L c H HL Hb. apply join_In in H as [[H | []] | [x [Hx Hc]]]; [symmetry; exact H|].
  rewrite (HL x Hx c Hc) in Hb. discriminate.
Qed.

Lemma stripped_no_trailing_break : forall y p c,
  strip y = y -> y = p ++ [c] -> is_line_break c = false.
Proof.
  intros y p c Hs Hp.
  destruct (p ++ [c]) as [|d rest] eqn:E; [destruct p; discriminate|].
  rewrite Hp in Hs. destruct (strip_edges (d :: rest) d rest Hs) as [_ Hl].
  rewrite <- E, last_last in Hl.
  destruct (is_line_break c) eqn:Hb; [|reflexivity].
  rewrite (line_break_space c Hb) in Hl. discriminate.
Qed.

Lemma splitlines_aux_not_nil : forall l cur, l <> [] -> splitlines_aux cur l <> [].
Proof.
  induction l as [|d l IH]; intros cur H; [contradiction|].
  cbn [splitlines_aux]. destruct (is_line_break d); [discriminate|].
  destruct l as [|e l']; [discriminate|]. apply IH. discriminate.
Qed.

(** [str.splitlines] followed by ["\n".join] gives the text back when its
    only line boundary is [\n] and it does not end with one. *)
Lemma join_splitlines_aux : forall l cur,
  (forall c, In c l -> is_line_break c = true -> c = chr 10) ->
  (forall p c, l = p ++ [c] -> is_line_break c = false) ->
  join newline (splitlines_aux cur l) = rev cur ++ l.
Proof.
  induction l as [|d l IH]; intros cur H1 H2.
  - destruct cur as [|c cur']; [reflexivity|]. simpl. rewrite app_nil_r. reflexivity.
  - cbn [splitlines_aux].
    assert (H1' : forall c, In c l -> is_line_break c = true -> c = chr 10)
      by (intros c Hc; apply H1; right; exact Hc).
    assert (H2' : forall p c, l = p ++ [c] -> is_line_break c = false)
      by (intros p c Hp; apply (H2 (d :: p)); rewrite Hp; reflexivity).
    destruct (is_line_break d) eqn:Hd.
    + rewrite (H1 d (or_introl eq_refl) Hd). change (code (chr 10) =? 13) with false.
      cbv iota.
      assert (Hl : l <> []).
      { intro E. subst l. rewrite (H2 [] d eq_refl) in Hd. discriminate. }
      destruct (splitlines_aux [] l) as [|y ys] eqn:Hsp; [exfalso; exact (splitlines_aux_not_nil l [] Hl Hsp)|].
      change (join newline (rev cur :: y :: ys)) with (rev cur ++ newline ++ join newline (y :: ys)).
      rewrite <- Hsp, (IH [] H1' H2'). reflexivity.
    + rewrite (IH (d :: cur) H1' H2'). simpl. rewrite <- app_assoc. reflexivity.
Qed.

Lemma join_snoc : forall sep M z,
  join sep (M ++ [z]) = join sep M ++ (match M with [] => [] | _ => sep end) ++ z.
Proof.
  intros sep M z. induction M as [|a M IH]; [reflexivity|].
  destruct M as [|b M'].
  - reflexivity.
  - change ((a :: b :: M') ++ [z]) with (a :: ((b :: M') ++ [z])).
    change (join sep (a :: ((b :: M') ++ [z]))) with (a ++ sep ++ join sep ((b :: M') ++ [z])).
    rewrite IH. change (join sep (a :: b :: M')) with (a ++ sep ++ join sep (b :: M')).
    rewrite <- !app_assoc. reflexivity.
Qed.

Lemma join_removelast_lt : forall sep M,
  M <> [] -> 0 < length (last M []) ->
  length (join sep (removelast M)) < length (join sep M).
Proof.
  intros sep M HM Hz. rewrite (app_removelast_last [] HM) at 2.
  rewrite join_snoc, !length_app. lia.
Qed.

Lemma join_removelast_le : forall sep M,
  length (join sep (removelast M)) <= length (join sep M).
Proof.
  intros sep M. destruct M as [|a M'] eqn:EM; [reflexivity|].
  rewrite <- EM. assert (HM : M <> []) by (rewrite EM; discriminate).
  rewrite (app_removelast_last [] HM) at 2. rewrite join_snoc, !length_app.
  unfold str in *. lia.
Qed.

Lemma join_cons_length : forall sep x M,
  length x + length (join sep M) <= length (join sep (x :: M)).
Proof.
  intros sep x M. destruct M as [|y M']; [simpl; lia|].
  change (join sep (x :: y :: M')) with (x ++ sep ++ join sep (y :: M')).
  rewrite !length_app. lia.
Qed.

(** An output of [clean_sql] is the stripped input (when it starts with a
    SQL keyword or has no fence), or the stripped ["\n"]-join of some lines
    of the stripped input. *)
Lemma clean_sql_cases : forall raw,
  (clean_sql raw = strip raw /\
   (starts_with_sql_keyword (strip raw) = true \/ containsb fence (strip raw) = false)) \/
  (exists L, clean_sql raw = strip (join newline L) /\
             forall x, In x L -> In x (splitlines (strip raw))).
Proof.
  intro raw. unfold clean_sql. cbv zeta.
  destruct (starts_with_sql_keyword (strip raw)) eqn:Hk; [left; tauto|].
  destruct (containsb fence (strip raw)) eqn:Hc; [right|left; tauto].
  set (lines := splitlines (strip raw)).
  set (L1 := match lines with
             | l0 :: rest => if prefixb fence (strip l0) then rest else lines
             | [] => lines end).
  assert (H1 : forall x, In x L1 -> In x lines).
  { unfold L1. destruct lines as [|l0 rest]; [tauto|].
    destruct (prefixb fence (strip l0)); [intros x Hx; right; exact Hx | tauto]. }
  exists (match L1 with
          | [] => L1
          | _ => if str_eqb (strip (last L1 [])) fence then removelast L1 else L1 end).
  split; [reflexivity|].
  intros x Hx. apply H1. destruct L1 as [|a L1']; [exact Hx|].
  destruct (str_eqb _ _); [|exact Hx].
  rewrite (app_removelast_last [] (l := a :: L1') ltac:(discriminate)).
  apply in_or_app. left. exact Hx.
Qed.

Lemma clean_sql_fixed_trivial : forall y,
  strip y = y ->
  starts_with_sql_keyword y = true \/ containsb fence y = false ->
  clean_sql y = y.
Proof.
  intros y Hs H. unfold clean_sql. cbv zeta. rewrite Hs.
  destruct H as [H | H]; rewrite H; [reflexivity|].
  destruct (starts_with_sql_keyword y); reflexivity.
Qed.

(** The fixed points of [clean_sql] among stripped texts whose only line
    boundary is [\n]. *)
Lemma clean_sql_fixed_iff : forall y,
  strip y = y ->
  (forall c, In c y -> is_line_break c = true -> c = chr 10) ->
  (forall p c, y = p ++ [c] -> is_line_break c = false) ->
  starts_with_sql_keyword y = false ->
  containsb fence y = true ->
  (clean_sql y = y <->
   (match splitlines y with
    | l0 :: _ => prefixb fence (strip l0) = false
    | [] => True
    end) /\
   str_eqb (strip (last (splitlines y) [])) fence = false).
Proof.
  intros y Hs H1 H2 Hkw Hc.
  pose proof (join_splitlines_aux y [] H1 H2) as Hrt. cbn [rev app] in Hrt.
  unfold splitlines. unfold clean_sql. cbv zeta. rewrite Hs, Hkw, Hc.
  unfold splitlines.
  destruct (splitlines_aux [] y) as [|l0 rest] eqn:El.
  { simpl in Hrt. subst y. discriminate. }
  split.
  - intro Hfix.
    assert (HA : prefixb fence (strip l0) = false).
    { destruct (prefixb fence (strip l0)) eqn:Hp; [exfalso|reflexivity].
      pose proof (f_equal (@length ascii) Hfix) as Hlen.
      pose proof (strip_length (join newline
        (match rest with
         | [] => rest
         | _ => if str_eqb (strip (last rest [])) fence then removelast rest else rest
         end))) as Hst.
      assert (Hle : length (join newline
        (match rest with
         | [] => rest
         | _ => if str_eqb (strip (last rest [])) fence then removelast rest else rest
         end)) <= length (join newline rest)).
      { destruct rest as [|a rest']; [lia|].
        destruct (str_eqb _ _); [apply join_removelast_le | lia]. }
      pose proof (join_cons_length newline l0 rest) as Hj. unfold str in *. rewrite Hrt in Hj.
      pose proof (prefixb_length _ _ Hp) as H3. pose proof (strip_length l0).
      change (length fence) with 3 in H3. lia. }
    split; [exact HA|].
    rewrite HA in Hfix.
    destruct (str_eqb (strip (last (l0 :: rest) [])) fence) eqn:Hl; [exfalso|reflexivity].
    apply str_eqb_eq in Hl.
    pose proof (f_equal (@length ascii) Hfix) as Hlen.
    pose proof (strip_length (join newline (removelast (l0 :: rest)))) as Hst.
    assert (Hz : 0 < length (last (l0 :: rest) [])).
    { pose proof (strip_length (last (l0 :: rest) [])) as H. rewrite Hl in H.
      change (length fence) with 3 in H. unfold str in *. lia. }
    pose proof (join_removelast_lt newline (l0 :: rest) ltac:(discriminate) Hz) as Hlt.
    unfold str in *. rewrite Hrt in Hlt. lia.
  - intros [HA HB]. rewrite HA, HB. rewrite Hrt. exact Hs.
Qed.

(** C6 (amended). [clean_sql] leaves its own output [y := clean_sql x]
    unchanged exactly when [y] starts with one of the SQL keywords, holds
    no code fence, or keeps both its first and its last line: the first
    line, stripped, does not start with a fence and the last line,
    stripped, is not a fence. *)
Theorem clean_sql_idempotent_iff : forall raw,
  clean_sql (clean_sql raw) = clean_sql raw <->
  starts_with_sql_keyword (clean_sql raw) = true \/
  containsb fence (clean_sql raw) = false \/
  ((match splitlines (clean_sql raw) with
    | l0 :: _ => prefixb fence (strip l0) = false
    | [] => True
    end) /\
   str_eqb (strip (last (splitlines (clean_sql raw)) [])) fence = false).
Proof.
  intro raw.
  pose proof (clean_sql_stripped raw) as Hs.
  destruct (starts_with_sql_keyword (clean_sql raw)) eqn:Hkw.
  { split; [intros _; left; reflexivity|]. intros _. apply clean_sql_fixed_trivial; tauto. }
  destruct (containsb fence (clean_sql raw)) eqn:Hc.
  2:{ split; [intros _; right; left; reflexivity|]. intros _. apply clean_sql_fixed_trivial; tauto. }
  destruct (clean_sql_cases raw) as [[Heq [Hk | Hk]] | [L [Heq HL]]].
  - rewrite <- Heq in Hk. congruence.
  - rewrite <- Heq in Hk. congruence.
  - rewrite (clean_sql_fixed_iff (clean_sql raw) Hs).
    + split; [intro H; right; right; exact H|].
      intros [H | [H | H]]; [discriminate | discriminate | exact H].
    + rewrite Heq. intros c Hin Hb. apply join_newline_chars with (L := L).
      * apply strip_In. exact Hin.
      * intros x Hx. apply (splitlines_no_break (strip raw) x). apply HL. exact Hx.
      * exact Hb.
    + intros p c Hp. exact (stripped_no_trailing_break _ p c Hs Hp).
    + exact Hkw.
    + exact Hc.
Qed.

Lemma clean_sql_idempotent_iff_witness :
  let x := s "Here is the SQL:" ++ newline ++ s "```" ++ newline
           ++ s "SELECT col FROM table" ++ newline ++ s "```" ++ newline
           ++ s "Hope it works!" in
  clean_sql x = x /\ clean_sql (clean_sql x) = clean_sql x.
Proof.
  cbv zeta. split; [vm_compute; reflexivity|].
  apply clean_sql_idempotent_iff. right. right. vm_compute. split; reflexivity.
Defined.

(** ** Lemmas on lists and dicts *)

Lemma existsb_all_false : forall {A} (f : A -> bool) l,
  (forall x, In x l -> f x = false) -> existsb f l = false.
Proof.
  intros A f l H. induction l as [|x l IH]; simpl; [reflexivity|].
  rewrite (H x (or_introl eq_refl)). apply IH. intros y Hy. apply H. right. exact Hy.
Qed.

Lemma assoc_get_In : forall {K V} (eqk : K -> K -> bool) k (d : list (K * V)) v,
  assoc_get eqk k d = Some v -> exists k', eqk k k' = true /\ In (k', v) d.
Proof.
  intros K V eqk k d v. induction d as [|[k' v'] d IH]; simpl; [discriminate|].
  destruct (eqk k k') eqn:E; intro H.
  - inversion H; subst. exists k'. split; [exact E | left; reflexivity].
  - destruct (IH H) as [k'' [H1 H2]]. exists k''. split; [exact H1 | right; exact H2].
Qed.

(** ** C10 and C4: the relevance gate of [Orchestrator.run] *)

Section Gate.

Context {DB LLM : Type}.
Variable conn_execute : DB -> str -> DB * (DataFrame + Exn).
Variable get_schema : DB -> Schema.
Variable chat : LLM -> Prompt -> LLM * (str + Exn).
Variable partial_ratio : str -> str -> Z.
Variable format_schema_for_prompt : Schema -> str.
Variable assemble_context : Resolver -> EnrichedContext -> Schema -> DB -> str.

Lemma code_vocabulary_in_business_vocabulary : forall (schema : Schema) x,
  In x (flat_map (fun table =>
                    flat_map (fun col_info => split_underscore (py_lower (ci_column col_info)))
                             (schema_lookup table schema)) (map fst schema)
        ++ flat_map (fun table => split_underscore (py_lower table)) (map fst schema)) ->
  In x (business_vocabulary schema).
Proof.
  intros schema x H. unfold business_vocabulary. apply in_app_or in H as [H | H].
  - apply in_flat_map in H as [table [_ Hx]].
    unfold schema_lookup in Hx.
    destruct (assoc_get str_eqb table schema) as [cols|] eqn:E; [|contradiction].
    apply assoc_get_In in E as [t' [_ Hin]].
    apply in_flat_map. exists (t', cols). split; [exact Hin|].
    apply in_or_app. left. exact Hx.
  - apply in_flat_map in H as [table [Ht Hx]].
    apply in_map_iff in Ht as [[t cols] [Heq Hin]]. simpl in Heq. subst.
    apply in_flat_map. exists (table, cols). split; [exact Hin|].
    apply in_or_app. right. exact Hx.
Qed.

(** C10 (confirmed). With no table in the engine's schema, the relevance
    gate rejects every question, and [run] answers every question with a
    failed result with [attempts == 0], leaving the world untouched. *)
Theorem empty_schema_rejects_every_question :
  forall (resolver : Resolver) (question : str) (w : World DB LLM),
  get_schema (w_db w) = [] ->
  is_database_question partial_ratio (get_schema (w_db w)) question = false /\
  run conn_execute get_schema chat partial_ratio format_schema_for_prompt
      assemble_context resolver question w = (w, Returned (rejection_result [])) /\
  dict_get (s "success") (rejection_result []) = Some (PBool false) /\
  dict_get (s "attempts") (rejection_result []) = Some (PInt 0).
Proof.
  intros resolver question w Hempty.
  assert (Hq : is_database_question partial_ratio (get_schema (w_db w)) question = false).
  { rewrite Hempty. unfold is_database_question. simpl.
    apply existsb_all_false. intros x _. reflexivity. }
  split; [exact Hq|]. split; [|split; reflexivity].
  unfold run. rewrite Hq. simpl. rewrite Hempty. reflexivity.
Qed.

(** C4 (confirmed). If no token of the question is in the business
    vocabulary of the engine's schema and no token scores 70 or more
    against a table name, the gate rejects the question and [run] returns,
    without any call to the database or to text generation (the world is
    unchanged), a failed result with [attempts == 0] and the fixed message
    naming up to three tables. *)
Theorem irrelevant_question_rejected :
  forall (resolver : Resolver) (question : str) (w : World DB LLM),
  let schema := get_schema (w_db w) in
  (forall word, In word (question_words question) ->
     ~ In word (business_vocabulary schema) /\
     forall table, In table (map fst schema) -> (partial_ratio word table < 70)%Z) ->
  is_database_question partial_ratio schema question = false /\
  run conn_execute get_schema chat partial_ratio format_schema_for_prompt
      assemble_context resolver question w = (w, Returned (rejection_result schema)) /\
  dict_get (s "success") (rejection_result schema) = Some (PBool false) /\
  dict_get (s "attempts") (rejection_result schema) = Some (PInt 0) /\
  dict_get (s "error") (rejection_result schema) =
    Some (PStr (s "I can only answer questions about your database. Try asking about "
                ++ (let ex := join (s ", ") (firstn 3 (map fst schema)) in
                    if str_eqb ex [] then s "your data" else ex)
                ++ s ".")).
Proof.
  intros resolver question w schema H.
  assert (Hq : is_database_question partial_ratio schema question = false).
  { unfold is_database_question. apply existsb_all_false.
    intros word Hw. destruct (H word Hw) as [Hv Hr].
    apply orb_false_iff. split.
    - destruct (str_mem _ _) eqn:E; [|reflexivity].
      exfalso. apply Hv. apply code_vocabulary_in_business_vocabulary.
      apply str_mem_In. exact E.
    - apply existsb_all_false. intros table Ht.
      specialize (Hr table Ht). apply Z.leb_gt. exact Hr. }
  split; [exact Hq|]. split.
  - unfold run. fold schema. rewrite Hq. reflexivity.
  - split; [reflexivity|]. split; [reflexivity|].
    reflexivity.
Qed.

End Gate.

Lemma empty_schema_rejects_every_question_witness :
  let w := Doubles.world0 [] in
  Doubles.schema_of_db [] (w_db w) = [] /\
  run Doubles.conn_always_fail (Doubles.schema_of_db []) Doubles.chat_ok
      Doubles.ratio_substring Doubles.schema_text Doubles.context_text
      (Doubles.resolver_fuzzy []) (s "How many orders were placed in 1997?") w
  = (w, Returned (rejection_result [])).
Proof.
  cbv zeta. split; [reflexivity|].
  apply (empty_schema_rejects_every_question Doubles.conn_always_fail
           (Doubles.schema_of_db []) Doubles.chat_ok Doubles.ratio_substring
           Doubles.schema_text Doubles.context_text (Doubles.resolver_fuzzy [])).
  reflexivity.
Defined.

(** The hypothesis of [irrelevant_question_rejected], decided by a check. *)
Lemma gate_hypothesis_of_check : forall (partial_ratio : str -> str -> Z) schema question,
  forallb (fun word => negb (str_mem word (business_vocabulary schema))
                       && forallb (fun t => (partial_ratio word t <? 70)%Z) (map fst schema))
          (question_words question) = true ->
  forall word, In word (question_words question) ->
    ~ In word (business_vocabulary schema) /\
    forall table, In table (map fst schema) -> (partial_ratio word table < 70)%Z.
Proof.
  intros pr schema question H word Hw.
  rewrite forallb_forall in H. specialize (H word Hw).
  apply andb_prop in H as [H1 H2]. split.
  - intro Hin. apply str_mem_In in Hin. rewrite Hin in H1. discriminate.
  - intros table Ht. rewrite forallb_forall in H2. apply Z.ltb_lt. apply H2. exact Ht.
Qed.

Lemma irrelevant_question_rejected_witness :
  let w := Doubles.world0 Doubles.orders_schema in
  let q := s "What is the meaning of life" in
  (forall word, In word (question_words q) ->
     ~ In word (business_vocabulary Doubles.orders_schema) /\
     forall table, In table (map fst Doubles.orders_schema) ->
       (Doubles.ratio_substring word table < 70)%Z) /\
  run Doubles.conn_always_fail (Doubles.schema_of_db Doubles.orders_schema) Doubles.chat_ok
      Doubles.ratio_substring Doubles.schema_text Doubles.context_text
      (Doubles.resolver_fuzzy Doubles.orders_schema) q w
  = (w, Returned (rejection_result Doubles.orders_schema)).
Proof.
  cbv zeta.
  assert (H : forall word, In word (question_words (s "What is the meaning of life")) ->
     ~ In word (business_vocabulary Doubles.orders_schema) /\
     forall table, In table (map fst Doubles.orders_schema) ->
       (Doubles.ratio_substring word table < 70)%Z).
  { apply gate_hypothesis_of_check. vm_compute. reflexivity. }
  split; [exact H|].
  apply (irrelevant_question_rejected Doubles.conn_always_fail
           (Doubles.schema_of_db Doubles.orders_schema) Doubles.chat_ok
           Doubles.ratio_substring Doubles.schema_text Doubles.context_text
           (Doubles.resolver_fuzzy Doubles.orders_schema)
           (s "What is the meaning of life") (Doubles.world0 Doubles.orders_schema)).
  exact H.
Defined.

(** ** C1, C3, C8: [CriticAgent.execute_with_retry] *)

Section Critic.

Context {DB LLM : Type}.
Variable conn_execute : DB -> str -> DB * (DataFrame + Exn).
Variable chat : LLM -> Prompt -> LLM * (str + Exn).
Variable format_schema_for_prompt : Schema -> str.
Variable max_retries : Z.
Variable schema_str question : str.

Local Abbreviation loop := (retry_loop conn_execute chat max_retries schema_str question).

(** Unfolding one iteration of the loop. *)
Lemma retry_loop_step : forall fuel attempt sql hist (w : World DB LLM),
  loop (S fuel) attempt sql hist w =
  let (w1, r) := engine_execute conn_execute w sql in
  match r with
  | inl data => (w1, hist, Returned (success_result sql data attempt))
  | inr (ValueError m) =>
      let hist' := hist ++ [mkAttempt sql m] in
      if (attempt =? max_retries)%Z then (w1, hist', Returned (failure_result sql m attempt))
      else
        let (l2, raw) := chat (w_llm w1) (CorrectionPrompt schema_str question sql m hist') in
        match raw with
        | inl text => loop fuel (attempt + 1) (clean_sql text) hist' (set_llm w1 l2)
        | inr e => (set_llm w1 l2, hist', Raised e)
        end
  | inr e => (w1, hist, Raised e)
  end.
Proof. reflexivity. Qed.

(** Every result the loop returns is one of its two dict literals. *)
Lemma retry_loop_result_form : forall fuel attempt sql hist (w : World DB LLM) w' h d,
  loop fuel attempt sql hist w = (w', h, Returned d) ->
  (exists sql' data k, d = success_result sql' data k) \/
  (exists sql' err k, d = failure_result sql' err k).
Proof.
  induction fuel as [|fuel IH]; intros attempt sql hist w w' h d H.
  - simpl in H. inversion H; subst. right. eauto.
  - rewrite retry_loop_step in H.
    destruct (engine_execute conn_execute w sql) as [w1 [data | e]].
    + inversion H; subst. left. eauto.
    + destruct e as [m | c m | c m]; try discriminate.
      destruct (attempt =? max_retries)%Z.
      * inversion H; subst. right. eauto.
      * cbv zeta in H.
        destruct (chat (w_llm w1) (CorrectionPrompt schema_str question sql m (hist ++ [mkAttempt sql m]))) as [l2 [text | e]]; [eapply IH; exact H | discriminate].
Qed.

(** The loop invariant: [attempt] is one more than the number of recorded
    failures, and the iterations left reach up to [max_retries]. *)
Lemma retry_loop_counts : forall fuel attempt sql hist (w : World DB LLM) w' h d,
  attempt = (Z.of_nat (length hist) + 1)%Z ->
  Z.of_nat fuel = (max_retries - attempt + 1)%Z ->
  loop fuel attempt sql hist w = (w', h, Returned d) ->
  (exists (w0 : World DB LLM) sql0 w1 data, engine_execute conn_execute w0 sql0 = (w1, inl data) /\
     d = success_result sql0 data (Z.of_nat (length h) + 1) /\
     (Z.of_nat (length h) + 1 <= max_retries)%Z) \/
  (exists sql' err, d = failure_result sql' err max_retries /\
     Z.of_nat (length h) = max_retries).
Proof.
  induction fuel as [|fuel IH]; intros attempt sql hist w w' h d Ha Hf H.
  - simpl in H. inversion H; subst. right. exists sql, (s "Max retries exceeded").
    split; [reflexivity|]. simpl in Hf. lia.
  - rewrite retry_loop_step in H.
    destruct (engine_execute conn_execute w sql) as [w1 [data | e]] eqn:Ex.
    + inversion H; subst. left. do 4 eexists.
      split; [exact Ex|]. split; [reflexivity|]. lia.
    + destruct e as [m | c m | c m]; try discriminate.
      destruct (attempt =? max_retries)%Z eqn:Em.
      * apply Z.eqb_eq in Em. inversion H; subst. right.
        exists sql, m. rewrite length_app. simpl.
        split; [f_equal; lia | lia].
      * apply Z.eqb_neq in Em.
        cbv zeta in H.
        destruct (chat (w_llm w1) (CorrectionPrompt schema_str question sql m (hist ++ [mkAttempt sql m]))) as [l2 [text | e]]; [|discriminate].
        eapply IH; [| | exact H].
        -- rewrite length_app. simpl. lia.
        -- lia.
Qed.

(** C3 (confirmed). In any iteration of the loop, only a [ValueError] from
    the engine leads to a correction: any other exception of the engine is
    re-raised at once, with the history unchanged; a failure of the
    text-generation call is re-raised at once, with no further SQL attempt
    and no result; and the engine's [execute] turns every [Exception] of
    the connection into a [ValueError], so only exceptions outside
    [Exception] escape it otherwise. *)
Theorem critic_only_execution_errors_retried :
  forall fuel attempt sql hist (w : World DB LLM),
  (forall w1 e, engine_execute conn_execute w sql = (w1, inr e) ->
     (forall m, e <> ValueError m) ->
     loop (S fuel) attempt sql hist w = (w1, hist, Raised e)) /\
  (forall w1 m l2 e, engine_execute conn_execute w sql = (w1, inr (ValueError m)) ->
     attempt <> max_retries ->
     chat (w_llm w1) (CorrectionPrompt schema_str question sql m (hist ++ [mkAttempt sql m]))
       = (l2, inr e) ->
     loop (S fuel) attempt sql hist w = (set_llm w1 l2, hist ++ [mkAttempt sql m], Raised e)) /\
  (forall w1 e, engine_execute conn_execute w sql = (w1, inr e) ->
     (exists m, e = ValueError m) \/ is_Exception e = false).
Proof.
  intros fuel attempt sql hist w. split; [|split].
  - intros w1 e Hx He. rewrite retry_loop_step, Hx.
    destruct e as [m | c m | c m]; [exfalso; exact (He m eq_refl) | reflexivity | reflexivity].
  - intros w1 m l2 e Hx Hne Hc. rewrite retry_loop_step, Hx. cbv zeta.
    apply Z.eqb_neq in Hne. rewrite Hne, Hc. reflexivity.
  - intros w1 e Hx. unfold engine_execute in Hx.
    destruct (conn_execute (w_db w) sql) as [db' [df | e0]].
    + discriminate.
    + destruct (is_Exception e0) eqn:He0; inversion Hx; subst.
      * left. eauto.
      * right. exact He0.
Qed.

End Critic.

(** The loop against a connection whose first [k - 1] statements fail:
    from attempt [a <= k] on, it succeeds at attempt [k]. *)
Lemma fail_first_loop :
  forall (LLM : Type) (chat : LLM -> Prompt -> LLM * (str + Exn)) max_retries
         schema_str question (k : nat),
  (forall l p, exists l' t, chat l p = (l', inl t)) ->
  (Z.of_nat k <= max_retries)%Z ->
  forall fuel (a : nat) sql hist (w : World Doubles.DB LLM),
  w_db w = a - 1 -> 1 <= a -> a <= k -> length hist = a - 1 ->
  Z.of_nat fuel = (max_retries - Z.of_nat a + 1)%Z ->
  exists w' h sql' data,
    retry_loop (Doubles.conn_fail_first (k - 1)) chat max_retries schema_str question
      fuel (Z.of_nat a) sql hist w
    = (w', h, Returned (success_result sql' data (Z.of_nat k))) /\ length h = k - 1.
Proof.
  intros LLM chat max_retries schema_str question k Hchat Hk.
  induction fuel as [|fuel IH]; intros a sql hist w Hdb Ha1 Hak Hlen Hf.
  - simpl in Hf. lia.
  - rewrite retry_loop_step.
    unfold engine_execute, Doubles.conn_fail_first. rewrite Hdb.
    destruct (a - 1 <? k - 1) eqn:Hlt.
    + apply Nat.ltb_lt in Hlt. simpl is_Exception. cbv iota zeta.
      assert (Hne : (Z.of_nat a =? max_retries)%Z = false) by (apply Z.eqb_neq; lia).
      rewrite Hne.
      match goal with
      | |- context [chat ?l ?p] => destruct (Hchat l p) as [l' [t Ht]]; rewrite Ht
      end.
      replace (Z.of_nat a + 1)%Z with (Z.of_nat (S a)) by lia.
      apply IH.
      * simpl. lia.
      * lia.
      * lia.
      * rewrite length_app. simpl. lia.
      * lia.
    + apply Nat.ltb_ge in Hlt.
      assert (a = k) by lia. subst a.
      do 4 eexists. split; [reflexivity | exact Hlen].
Qed.

(** C1 (confirmed). For a retry budget [max_retries >= 1], every result
    returned by [execute_with_retry] obeys: if every execution fails with
    an execution error, [success] is false; a failed result has
    [attempts == max_retries] and leaves a history of [max_retries]
    entries; a successful result has [attempts == k], [k - 1] being the
    number of failed attempts recorded before it, and [k <= max_retries].
    Against a connection whose statements fail until the [k]-th, with
    [1 <= k <= max_retries] and a generation service that answers, the
    result is a success with [attempts == k]. *)
Theorem execute_with_retry_attempts :
  (forall (DB LLM : Type) (conn_execute : DB -> str -> DB * (DataFrame + Exn))
          (chat : LLM -> Prompt -> LLM * (str + Exn)) (fmt : Schema -> str)
          (max_retries : Z) sql question schema (w : World DB LLM) w' h d,
     (1 <= max_retries)%Z ->
     execute_with_retry conn_execute chat fmt max_retries sql question schema w
       = (w', h, Returned d) ->
     ((forall (w0 : World DB LLM) sql0, exists w1 m,
          engine_execute conn_execute w0 sql0 = (w1, inr (ValueError m))) ->
        dict_get (s "success") d = Some (PBool false)) /\
     (dict_get (s "success") d = Some (PBool false) ->
        dict_get (s "attempts") d = Some (PInt max_retries) /\
        Z.of_nat (length h) = max_retries) /\
     (dict_get (s "success") d = Some (PBool true) ->
        dict_get (s "attempts") d = Some (PInt (Z.of_nat (length h) + 1)) /\
        (Z.of_nat (length h) + 1 <= max_retries)%Z)) /\
  (forall (LLM : Type) (chat : LLM -> Prompt -> LLM * (str + Exn)) (fmt : Schema -> str)
          (max_retries : Z) (k : nat) sql question schema (w : World Doubles.DB LLM),
     (forall l p, exists l' t, chat l p = (l', inl t)) ->
     w_db w = 0 -> 1 <= k -> (Z.of_nat k <= max_retries)%Z ->
     exists w' h sql' data,
       execute_with_retry (Doubles.conn_fail_first (k - 1)) chat fmt max_retries
         sql question schema w
       = (w', h, Returned (success_result sql' data (Z.of_nat k))) /\ length h = k - 1).
Proof.
  split.
  - intros DB LLM conn chat fmt max_retries sql question schema w w' h d Hmax H.
    unfold execute_with_retry in H.
    apply retry_loop_counts in H; [| reflexivity | lia].
    destruct H as [[w0 [sql0 [w1 [data [Hx [Hd Hle]]]]]] | [sql' [err [Hd Hlen]]]]; subst d.
    + split; [|split].
      * intro Hall. destruct (Hall w0 sql0) as [w2 [m Hm]]. rewrite Hx in Hm. discriminate.
      * intro Hs. discriminate.
      * intros _. split; [reflexivity | exact Hle].
    + split; [|split].
      * intros _. reflexivity.
      * intros _. split; [reflexivity | exact Hlen].
      * intro Hs. discriminate.
  - intros LLM chat fmt max_retries k sql question schema w Hchat Hdb Hk Hkm.
    unfold execute_with_retry.
    change 1%Z with (Z.of_nat 1).
    apply fail_first_loop; try assumption; try lia.
    reflexivity.

Qed.

Lemma execute_with_retry_attempts_witness :
  (exists w' h sql' data,
     execute_with_retry (Doubles.conn_fail_first (2 - 1)) Doubles.chat_ok Doubles.schema_text 3
       (s "SELECT customerName, SUM(total) FROM orders GROUP BY customerName")
       (s "What is the total revenue per customer?") [] (Doubles.world0 [])
     = (w', h, Returned (success_result sql' data (Z.of_nat 2))) /\ length h = 2 - 1) /\
  (exists w' h d,
     execute_with_retry Doubles.conn_always_fail Doubles.chat_ok Doubles.schema_text 3
       (s "SELECT customerName FROM orders") (s "Who ordered?") [] (Doubles.world0 [])
     = (w', h, Returned d) /\
     dict_get (s "success") d = Some (PBool false) /\
     dict_get (s "attempts") d = Some (PInt 3) /\ Z.of_nat (length h) = 3%Z).
Proof.
  split.
  - apply (proj2 execute_with_retry_attempts); [| reflexivity | lia | lia].
    intros l p. eexists. eexists. reflexivity.
  - destruct (execute_with_retry Doubles.conn_always_fail Doubles.chat_ok Doubles.schema_text 3
       (s "SELECT customerName FROM orders") (s "Who ordered?") [] (Doubles.world0 []))
      as [[w' h] [d | e]] eqn:H; [| vm_compute in H; discriminate].
    exists w', h, d. split; [reflexivity|].
    destruct (proj1 execute_with_retry_attempts _ _ _ _ _ _ _ _ _ _ _ _ _
                (ltac:(lia) : (1 <= 3)%Z) H) as [Hall [Hfail _]].
    assert (Hs : dict_get (s "success") d = Some (PBool false)).
    { apply Hall. intros w0 sql0. eexists. eexists. reflexivity. }
    split; [exact Hs | exact (Hfail Hs)].
Defined.

Lemma critic_only_execution_errors_retried_witness :
  let w := Doubles.world0 [] in
  let sql := s "SELECT x FROM orders" in
  let m := s "SQL execution failed: " ++ s "column not found" in
  let w1 := set_db w 1 in
  let e := OtherException (s "APIConnectionError") (s "Connection error.") in
  engine_execute Doubles.conn_always_fail w sql = (w1, inr (ValueError m)) /\
  Doubles.chat_down (w_llm w1)
    (CorrectionPrompt (s "orders") (s "Which orders?") sql m ([] ++ [mkAttempt sql m]))
    = (1, inr e) /\
  retry_loop Doubles.conn_always_fail Doubles.chat_down 3 (s "orders") (s "Which orders?")
    (S 2) 1 sql [] w
  = (set_llm w1 1, [] ++ [mkAttempt sql m], Raised e).
Proof.
  cbv zeta. split; [reflexivity|]. split; [reflexivity|].
  apply (proj1 (proj2 (critic_only_execution_errors_retried Doubles.conn_always_fail
           Doubles.chat_down 3 (s "orders") (s "Which orders?") 2 1
           (s "SELECT x FROM orders") [] (Doubles.world0 [])))).
  - reflexivity.
  - discriminate.
  - reflexivity.
Defined.

(** C8 (counterexample). A successful result has no ["error"] key and a
    failed result has no ["data"] key: the five fields are not all present. *)
Lemma execution_result_fields_missing :
  (exists w' h d,
     execute_with_retry (Doubles.conn_fail_first 0) Doubles.chat_ok Doubles.schema_text 3
       (s "SELECT COUNT(*) AS total FROM orders") (s "How many orders?") [] (Doubles.world0 [])
     = (w', h, Returned d) /\
     dict_get (s "success") d = Some (PBool true) /\ dict_get (s "error") d = None) /\
  (exists w' h d,
     execute_with_retry Doubles.conn_always_fail Doubles.chat_ok Doubles.schema_text 3
       (s "SELECT customerName FROM orders") (s "Who ordered?") [] (Doubles.world0 [])
     = (w', h, Returned d) /\
     dict_get (s "success") d = Some (PBool false) /\ dict_get (s "data") d = None).
Proof.
  split; do 3 eexists; split; [vm_compute; reflexivity | split; reflexivity
                              | vm_compute; reflexivity | split; reflexivity].
Qed.

(** C8 (amended). Every result returned by [execute_with_retry] is either a
    success with exactly the keys [success], [sql], [data], [attempts]
    ([success] true, no [error] key), or a failure with exactly the keys
    [success], [sql], [error], [attempts] ([success] false, no [data] key). *)
Theorem execution_result_fields :
  forall (DB LLM : Type) (conn_execute : DB -> str -> DB * (DataFrame + Exn))
         (chat : LLM -> Prompt -> LLM * (str + Exn)) (fmt : Schema -> str)
         (max_retries : Z) sql question schema (w : World DB LLM) w' h d,
  execute_with_retry conn_execute chat fmt max_retries sql question schema w
    = (w', h, Returned d) ->
  (map fst d = map s ["success"; "sql"; "data"; "attempts"]%string /\
   dict_get (s "success") d = Some (PBool true) /\ dict_get (s "error") d = None /\
   exists sql' data k, dict_get (s "sql") d = Some (PStr sql') /\
     dict_get (s "data") d = Some (PFrame data) /\ dict_get (s "attempts") d = Some (PInt k)) \/
  (map fst d = map s ["success"; "sql"; "error"; "attempts"]%string /\
   dict_get (s "success") d = Some (PBool false) /\ dict_get (s "data") d = None /\
   exists sql' err k, dict_get (s "sql") d = Some (PStr sql') /\
     dict_get (s "error") d = Some (PStr err) /\ dict_get (s "attempts") d = Some (PInt k)).
Proof.
  intros DB LLM conn chat fmt max_retries sql question schema w w' h d H.
  unfold execute_with_retry in H.
  apply retry_loop_result_form in H.
  destruct H as [[sql' [data [k Hd]]] | [sql' [err [k Hd]]]]; subst d.
  - left. repeat split. exists sql', data, k. repeat split.
  - right. repeat split. exists sql', err, k. repeat split.
Qed.

Lemma execution_result_fields_witness :
  exists w' h d,
  execute_with_retry (Doubles.conn_fail_first 0) Doubles.chat_ok Doubles.schema_text 3
    (s "SELECT COUNT(*) AS total FROM orders") (s "How many orders?") [] (Doubles.world0 [])
  = (w', h, Returned d) /\
  (dict_get (s "error") d = None \/ dict_get (s "data") d = None).
Proof.
  destruct (execute_with_retry (Doubles.conn_fail_first 0) Doubles.chat_ok Doubles.schema_text 3
    (s "SELECT COUNT(*) AS total FROM orders") (s "How many orders?") [] (Doubles.world0 []))
    as [[w' h] [d | e]] eqn:H; [| vm_compute in H; discriminate].
  exists w', h, d. split; [reflexivity|].
  destruct (execution_result_fields _ _ _ _ _ _ _ _ _ _ _ _ _ H) as [[_ [_ [He _]]] | [_ [_ [Hd _]]]].
  - left. exact He.
  - right. exact Hd.
Defined.

(** ** C9: [enrich] leaves the caller's schema alone *)

Lemma engine_execute_frame : forall {DB LLM} conn (w : World DB LLM) sql,
  w_heap (fst (engine_execute conn w sql)) = w_heap w /\
  w_llm (fst (engine_execute conn w sql)) = w_llm w.
Proof.
  intros DB LLM conn w sql. unfold engine_execute.
  destruct (conn (w_db w) sql) as [db' [df | e]]; [|destruct (is_Exception e)];
    split; reflexivity.
Qed.

Lemma sample_values_frame : forall {DB LLM} conn ms hints (w : World DB LLM),
  w_heap (fst (sample_values conn w ms hints)) = w_heap w /\
  w_llm (fst (sample_values conn w ms hints)) = w_llm w.
Proof.
  intros DB LLM conn ms. induction ms as [|m ms IH]; intros hints w; [split; reflexivity|].
  simpl. pose proof (engine_execute_frame conn w (sample_sql (m_table m) (m_column m))) as [Hh Hl].
  destruct (engine_execute conn w (sample_sql (m_table m) (m_column m))) as [w1 [df | e]].
  - simpl in Hh, Hl.
    split; [rewrite (proj1 (IH _ _)) | rewrite (proj2 (IH _ _))]; assumption.
  - simpl in Hh, Hl. destruct (is_Exception e).
    + split; [rewrite (proj1 (IH _ _)) | rewrite (proj2 (IH _ _))]; assumption.
    + simpl. split; assumption.
Qed.

(** C9 (confirmed). [enrich(question, schema)] does not change the heap
    (in particular the schema dict it was given) nor anything but the
    database connection, and the returned context's [original_schema] is
    the very dict passed in. *)
Theorem enrich_preserves_schema :
  forall (DB LLM : Type) (conn_execute : DB -> str -> DB * (DataFrame + Exn))
         (partial_ratio : str -> str -> Z) (r : Resolver) (question : str)
         (schema_loc : Loc) (w : World DB LLM),
  w_heap (fst (enrich conn_execute partial_ratio r question schema_loc w)) = w_heap w /\
  w_llm (fst (enrich conn_execute partial_ratio r question schema_loc w)) = w_llm w /\
  match snd (enrich conn_execute partial_ratio r question schema_loc w) with
  | inl ctx =>
      original_schema ctx = schema_loc /\
      heap_get (w_heap (fst (enrich conn_execute partial_ratio r question schema_loc w)))
               (original_schema ctx) = heap_get (w_heap w) schema_loc
  | inr _ => True
  end.
Proof.
  intros DB LLM conn pr r question loc w. unfold enrich.
  destruct (heap_get (w_heap w) loc) as [schema|] eqn:Hs; [|repeat split].
  destruct (enrich_keywords pr r (map fst schema) (extract_keywords question) [])
    as [best | e]; [|repeat split].
  set (ms := map snd best).
  pose proof (sample_values_frame conn ms [] w) as [Hh Hl].
  destruct (sample_values conn w ms []) as [w1 [hints | e]]; simpl in Hh, Hl |- *.
  - split; [exact Hh|]. split; [exact Hl|]. split; [reflexivity|]. rewrite Hh, Hs. reflexivity.
  - split; [exact Hh|]. split; [exact Hl | exact I].
Qed.

(** ** Dicts keyed by (table, column) *)

Lemma key_eqb_eq : forall a b, key_eqb a b = true <-> a = b.
Proof.
  intros [a1 a2] [b1 b2]. unfold key_eqb. simpl. rewrite andb_true_iff, !str_eqb_eq.
  split; [intros [-> ->]; reflexivity | intro H; inversion H; split; reflexivity].
Qed.

Section KeyedDict.

Variable V : Type.
Implicit Types (d : list ((str * str) * V)) (k : str * str) (v : V).

Lemma key_get_some_In : forall d k v, assoc_get key_eqb k d = Some v -> In (k, v) d.
Proof.
  intros d k v H. apply assoc_get_In in H as [k' [Hk Hin]].
  apply key_eqb_eq in Hk. subst. exact Hin.
Qed.

Lemma key_get_none : forall d k, assoc_get key_eqb k d = None -> ~ In k (map fst d).
Proof.
  induction d as [|[k0 v0] d IH]; intros k H Hin; [exact Hin|].
  simpl in H, Hin. destruct (key_eqb k k0) eqn:E; [discriminate|].
  destruct Hin as [Hin | Hin].
  - subst. rewrite (proj2 (key_eqb_eq k k) eq_refl) in E. discriminate.
  - exact (IH k H Hin).
Qed.

Lemma key_In_get : forall d k v, NoDup (map fst d) -> In (k, v) d -> assoc_get key_eqb k d = Some v.
Proof.
  induction d as [|[k0 v0] d IH]; intros k v Hnd Hin; [destruct Hin|].
  simpl in Hnd |- *. inversion Hnd as [|? ? Hnotin Hnd']; subst.
  destruct Hin as [Heq | Hin].
  - inversion Heq; subst. rewrite (proj2 (key_eqb_eq k k) eq_refl). reflexivity.
  - destruct (key_eqb k k0) eqn:E.
    + apply key_eqb_eq in E. subst. exfalso. apply Hnotin.
      apply in_map_iff. exists (k0, v). split; [reflexivity | exact Hin].
    + apply IH; assumption.
Qed.

Lemma key_set_new : forall d k v, ~ In k (map fst d) -> assoc_set key_eqb k v d = d ++ [(k, v)].
Proof.
  induction d as [|[k0 v0] d IH]; intros k v Hn; [reflexivity|].
  simpl in Hn |- *. destruct (key_eqb k k0) eqn:E.
  - apply key_eqb_eq in E. subst. exfalso. apply Hn. left. reflexivity.
  - rewrite IH; [reflexivity|]. intro H. apply Hn. right. exact H.
Qed.

Lemma key_set_keys : forall d k v, In k (map fst d) -> map fst (assoc_set key_eqb k v d) = map fst d.
Proof.
  induction d as [|[k0 v0] d IH]; intros k v Hin; [destruct Hin|].
  simpl in Hin |- *. destruct (key_eqb k k0) eqn:E; [reflexivity|].
  destruct Hin as [Hin | Hin].
  - subst. rewrite (proj2 (key_eqb_eq k k) eq_refl) in E. discriminate.
  - simpl. rewrite IH; [reflexivity | exact Hin].
Qed.

Lemma key_In_set : forall d k v k' v', NoDup (map fst d) ->
  In (k', v') (assoc_set key_eqb k v d) -> (k' = k /\ v' = v) \/ (k' <> k /\ In (k', v') d).
Proof.
  induction d as [|[k0 v0] d IH]; intros k v k' v' Hnd Hin.
  - destruct Hin as [H | []]. inversion H; subst. left. split; reflexivity.
  - simpl in Hnd, Hin. inversion Hnd as [|? ? Hnotin Hnd']; subst.
    destruct (key_eqb k k0) eqn:E.
    + apply key_eqb_eq in E. subst k0. destruct Hin as [H | H].
      * inversion H; subst. left. split; reflexivity.
      * right. split; [|right; exact H].
        intro Heq. subst. apply Hnotin. apply in_map_iff. exists (k, v'). split; [reflexivity | exact H].
    + destruct Hin as [H | H].
      * inversion H; subst. right. split; [|left; reflexivity].
        intro Heq. rewrite Heq, (proj2 (key_eqb_eq k k) eq_refl) in E. discriminate.
      * destruct (IH k v k' v' Hnd' H) as [Hl | [Hne Hr]]; [left; exact Hl|].
        right. split; [exact Hne | right; exact Hr].
Qed.

Lemma key_In_set_other : forall d k v k' v', In (k', v') d -> k' <> k ->
  In (k', v') (assoc_set key_eqb k v d).
Proof.
  induction d as [|[k0 v0] d IH]; intros k v k' v' Hin Hne; [destruct Hin|].
  simpl. destruct (key_eqb k k0) eqn:E.
  - apply key_eqb_eq in E. subst. destruct Hin as [H | H].
    + inversion H; subst. exfalso. apply Hne. reflexivity.
    + right. exact H.
  - destruct Hin as [H | H]; [left; exact H | right; apply IH; assumption].
Qed.

Lemma key_In_set_self : forall d k v, In (k, v) (assoc_set key_eqb k v d).
Proof.
  induction d as [|[k0 v0] d IH]; intros k v; simpl; [left; reflexivity|].
  destruct (key_eqb k k0) eqn:E.
  - apply key_eqb_eq in E. subst. left. reflexivity.
  - right. apply IH.
Qed.

End KeyedDict.

Lemma NoDup_snoc : forall {A} (l : list A) x, NoDup l -> ~ In x l -> NoDup (l ++ [x]).
Proof.
  intros A l x. induction l as [|y l IH]; intros Hnd Hn; simpl.
  - constructor; [intros [] | constructor].
  - inversion Hnd as [|? ? Hy Hnd']; subst. constructor.
    + intro H. apply in_app_or in H as [H | [H | []]]; [exact (Hy H)|].
      subst. apply Hn. left. reflexivity.
    + apply IH; [exact Hnd'|]. intro H. apply Hn. right. exact H.
Qed.

(** ** The retention step keeps the invariant *)

Lemma retain_step : forall threshold sc C B kw e,
  retain_invariant threshold sc C B ->
  retain_invariant threshold sc (C ++ [(kw, e)]) (retain_match threshold B kw e (sc kw e)).
Proof.
  intros thr sc C B kw e [I0 [I1 I2]].
  (* A retained match stays valid when the new candidate does not beat it. *)
  assert (Hext : forall k m, In (k, m) B -> (entry_key e = k -> (sc kw e <= m_score m)%Z) ->
    k = match_key m /\ (thr <= m_score m)%Z /\
    exists C1 e0 C2, C ++ [(kw, e)] = C1 ++ (m_keyword m, e0) :: C2 /\ entry_key e0 = k /\
      sc (m_keyword m) e0 = m_score m /\
      (forall c, In c C1 -> entry_key (snd c) = k -> (sc (fst c) (snd c) < m_score m)%Z) /\
      (forall c, In c C2 -> entry_key (snd c) = k -> (sc (fst c) (snd c) <= m_score m)%Z)).
  { intros k m Hin Hx.
    destruct (I1 k m Hin) as [Hk [Hthr [C1 [e0 [C2 [HC [He0 [Hsc [H1 H2]]]]]]]]].
    split; [exact Hk|]. split; [exact Hthr|]. exists C1, e0, (C2 ++ [(kw, e)]).
    split; [rewrite HC, <- app_assoc; reflexivity|].
    split; [exact He0|]. split; [exact Hsc|]. split; [exact H1|].
    intros c Hc Hkc. apply in_app_or in Hc as [Hc | [Hc | []]]; [apply H2; assumption|].
    subst c. apply Hx. exact Hkc. }
  (* The new candidate as a retained match, when it beats all earlier ones. *)
  assert (Hnew : (thr <= sc kw e)%Z ->
    (forall c, In c C -> entry_key (snd c) = entry_key e -> (sc (fst c) (snd c) < sc kw e)%Z) ->
    let m := mkMatch kw (e_column e) (e_table e) (sc kw e) in
    entry_key e = match_key m /\ (thr <= m_score m)%Z /\
    exists C1 e0 C2, C ++ [(kw, e)] = C1 ++ (m_keyword m, e0) :: C2 /\ entry_key e0 = entry_key e /\
      sc (m_keyword m) e0 = m_score m /\
      (forall c, In c C1 -> entry_key (snd c) = entry_key e -> (sc (fst c) (snd c) < m_score m)%Z) /\
      (forall c, In c C2 -> entry_key (snd c) = entry_key e -> (sc (fst c) (snd c) <= m_score m)%Z)).
  { intros Hthr Hlt. cbv zeta. split; [reflexivity|]. split; [exact Hthr|].
    exists C, e, []. split; [reflexivity|]. split; [reflexivity|]. split; [reflexivity|].
    split; [exact Hlt | intros c []]. }
  unfold retain_match.
  destruct (thr <=? sc kw e)%Z eqn:Ht.
  - apply Z.leb_le in Ht.
    destruct (assoc_get key_eqb (e_table e, e_column e) B) as [old|] eqn:Hg.
    + pose proof (key_get_some_In _ _ _ _ Hg) as Hold.
      destruct (m_score old <? sc kw e)%Z eqn:Hlt.
      * apply Z.ltb_lt in Hlt.
        assert (Hbelow : forall c, In c C -> entry_key (snd c) = entry_key e ->
                  (sc (fst c) (snd c) < sc kw e)%Z).
        { destruct (I1 _ _ Hold) as [_ [_ [C1 [e0 [C2 [HC [He0 [Hsc [H1 H2]]]]]]]]].
          intros c Hc Hkc. rewrite HC in Hc. apply in_app_or in Hc as [Hc | [Hc | Hc]].
          - specialize (H1 c Hc Hkc). lia.
          - subst c. simpl. lia.
          - specialize (H2 c Hc Hkc). lia. }
        split; [|split].
        -- rewrite key_set_keys; [exact I0|].
           apply in_map_iff. exists ((e_table e, e_column e), old). split; [reflexivity | exact Hold].
        -- intros k m Hin. apply key_In_set in Hin; [|exact I0].
           destruct Hin as [[Hk Hm] | [Hne Hin]].
           ++ subst k m. exact (Hnew Ht Hbelow).
           ++ apply Hext; [exact Hin|]. intro Heq. exfalso. apply Hne. rewrite <- Heq. reflexivity.
        -- intros c Hc Hth. apply in_app_or in Hc as [Hc | [Hc | []]].
           ++ destruct (I2 c Hc Hth) as [m Hm].
              destruct (key_eqb (entry_key (snd c)) (entry_key e)) eqn:Ek.
              ** apply key_eqb_eq in Ek. rewrite Ek. eexists. apply key_In_set_self.
              ** exists m. apply key_In_set_other; [exact Hm|]. intro H.
                 rewrite H, (proj2 (key_eqb_eq _ _) eq_refl) in Ek. discriminate.
           ++ subst c. eexists. apply key_In_set_self.
      * apply Z.ltb_ge in Hlt.
        split; [exact I0|]. split.
        -- intros k m Hin. apply Hext; [exact Hin|]. intro Hk.
           pose proof (key_In_get _ B k m I0 Hin) as Hm. rewrite <- Hk in Hm.
           unfold entry_key in Hm. rewrite Hg in Hm. inversion Hm; subst. exact Hlt.
        -- intros c Hc Hth. apply in_app_or in Hc as [Hc | [Hc | []]].
           ++ exact (I2 c Hc Hth).
           ++ subst c. exists old. exact Hold.
    + pose proof (key_get_none _ _ _ Hg) as Hn.
      assert (Hbelow : forall c, In c C -> entry_key (snd c) = entry_key e ->
                (sc (fst c) (snd c) < sc kw e)%Z).
      { intros c Hc Hkc. destruct (Z.lt_ge_cases (sc (fst c) (snd c)) thr) as [Hl | Hl]; [lia|].
        exfalso. destruct (I2 c Hc Hl) as [m Hm]. apply Hn. unfold entry_key in Hkc. rewrite <- Hkc.
        apply in_map_iff. exists (entry_key (snd c), m). split; [reflexivity | exact Hm]. }
      rewrite key_set_new by exact Hn.
      split; [|split].
      * rewrite map_app. apply NoDup_snoc; [exact I0 | exact Hn].
      * intros k m Hin. apply in_app_or in Hin as [Hin | [Hin | []]].
        -- apply Hext; [exact Hin|]. intro Hk. exfalso. apply Hn. unfold entry_key in Hk.
           rewrite Hk. apply in_map_iff. exists (k, m). split; [reflexivity | exact Hin].
        -- inversion Hin; subst. exact (Hnew Ht Hbelow).
      * intros c Hc Hth. apply in_app_or in Hc as [Hc | [Hc | []]].
        -- destruct (I2 c Hc Hth) as [m Hm]. exists m. apply in_or_app. left. exact Hm.
        -- subst c. eexists. apply in_or_app. right. left. reflexivity.
  - apply Z.leb_gt in Ht.
    split; [exact I0|]. split.
    + intros k m Hin. apply Hext; [exact Hin|]. intros _.
      destruct (I1 k m Hin) as [_ [Hthr _]]. lia.
    + intros c Hc Hth. apply in_app_or in Hc as [Hc | [Hc | []]].
      * exact (I2 c Hc Hth).
      * subst c. simpl in Hth. lia.
Qed.

Lemma retain_all_invariant : forall threshold sc C,
  retain_invariant threshold sc C (retain_all threshold sc C []).
Proof.
  intros thr sc C. induction C as [|[kw e] C IH] using rev_ind.
  - split; [constructor|]. split; intros; contradiction.
  - unfold retain_all in *. rewrite fold_left_app. simpl. apply retain_step. exact IH.
Qed.

(** ** The two loops of [enrich] as one retention pass *)

Lemma fold_enrich_entry : forall pr r act kw sem (sc : str -> ColEntry -> Z) l k best,
  (forall j e, nth_error l j = Some e ->
     match sem with
     | Some ss => Z.max (pr kw (py_lower (e_column e))) (nth (k + j) ss 0%Z)
     | None => pr kw (py_lower (e_column e))
     end = sc kw e) ->
  fold_left (enrich_entry pr r act kw sem) (combine (seq k (length l)) l) best =
  retain_all (r_fuzzy_threshold r) sc
    (map (pair kw) (filter (fun e => str_mem (e_table e) act) l)) best.
Proof.
  intros pr r act kw sem sc l. induction l as [|e l IH]; intros k best Hsc; [reflexivity|].
  cbn [length seq combine fold_left filter].
  assert (Hrest : forall j e', nth_error l j = Some e' ->
     match sem with
     | Some ss => Z.max (pr kw (py_lower (e_column e'))) (nth (S k + j) ss 0%Z)
     | None => pr kw (py_lower (e_column e'))
     end = sc kw e').
  { intros j e' Hj. rewrite <- (Hsc (S j) e' Hj). rewrite Nat.add_succ_r. reflexivity. }
  cbn [enrich_entry].
  destruct (str_mem (e_table e) act) eqn:Hm; cbn [negb].
  - specialize (Hsc 0 e eq_refl). rewrite Nat.add_0_r in Hsc.
    rewrite (IH (S k) _ Hrest). cbn [map]. unfold retain_all. cbn [fold_left fst snd]. f_equal.
    destruct sem; rewrite Hsc; reflexivity.
  - exact (IH (S k) best Hrest).
Qed.

Lemma enrich_keyword_flat : forall pr r act kw sem best,
  semantic_scores r kw = inl sem ->
  enrich_keyword pr r act kw sem best =
  retain_all (r_fuzzy_threshold r) (combined_score pr r)
    (map (pair kw) (filter (fun e => str_mem (e_table e) act) (r_all_columns r))) best.
Proof.
  intros pr r act kw sem best Hsem. unfold enrich_keyword.
  apply fold_enrich_entry. intros j e Hj. simpl plus.
  unfold semantic_scores in Hsem. unfold combined_score.
  destruct (r_mode r) as [sim|].
  - destruct (r_all_columns r) as [|c cs] eqn:Ec; [destruct j; discriminate|].
    injection Hsem as <-.
    erewrite nth_error_nth; [reflexivity|].
    exact (map_nth_error (fun e => sim kw (py_lower (e_column e))) j (c :: cs) Hj).
  - injection Hsem as <-. reflexivity.
Qed.

Lemma enrich_keywords_flat : forall pr r act kws best best',
  enrich_keywords pr r act kws best = inl best' ->
  best' = retain_all (r_fuzzy_threshold r) (combined_score pr r) (enrich_candidates r act kws) best.
Proof.
  intros pr r act kws. induction kws as [|kw kws IH]; intros best best' H.
  - injection H as <-. reflexivity.
  - cbn [enrich_keywords] in H.
    destruct (semantic_scores r kw) as [sem | e] eqn:Hsem; [|discriminate H].
    rewrite (IH _ _ H), (enrich_keyword_flat pr r act kw sem best Hsem).
    unfold retain_all, enrich_candidates. cbn [flat_map]. rewrite fold_left_app. reflexivity.
Qed.

(** The keyword loop raises only the [ValueError] of [_get_semantic_scores]
    for a hybrid resolver without columns, and then only on a keyword. *)
Lemma enrich_keywords_error : forall pr r act kws best e,
  enrich_keywords pr r act kws best = inr e ->
  kws <> [] /\ (exists sim, r_mode r = Hybrid sim) /\ r_all_columns r = [] /\
  e = ValueError semantic_empty_msg.
Proof.
  intros pr r act kws. induction kws as [|kw kws IH]; intros best e H; [discriminate H|].
  cbn [enrich_keywords] in H.
  destruct (semantic_scores r kw) as [sem | e'] eqn:Hsem.
  - destruct (IH _ _ H) as [_ Hr]. split; [discriminate | exact Hr].
  - injection H as <-. unfold semantic_scores in Hsem.
    destruct (r_mode r) as [sim|]; [|discriminate Hsem].
    destruct (r_all_columns r) as [|c cs]; [|discriminate Hsem].
    injection Hsem as <-. split; [discriminate|]. split; [exists sim; reflexivity|].
    split; reflexivity.
Qed.

Lemma enrich_keywords_raises : forall pr r act kws best sim,
  kws <> [] -> r_mode r = Hybrid sim -> r_all_columns r = [] ->
  enrich_keywords pr r act kws best = inr (ValueError semantic_empty_msg).
Proof.
  intros pr r act kws best sim Hk Hm Hc. destruct kws as [|kw kws]; [contradiction|].
  cbn [enrich_keywords]. unfold semantic_scores. rewrite Hm, Hc. reflexivity.
Qed.

Lemma enrich_keywords_ok : forall pr r act kws best,
  (r_mode r = FuzzyOnly \/ r_all_columns r <> [] \/ kws = []) ->
  enrich_keywords pr r act kws best =
  inl (retain_all (r_fuzzy_threshold r) (combined_score pr r) (enrich_candidates r act kws) best).
Proof.
  intros pr r act kws best H.
  destruct (enrich_keywords pr r act kws best) as [best' | e] eqn:E.
  - rewrite (enrich_keywords_flat _ _ _ _ _ _ E). reflexivity.
  - exfalso. destruct (enrich_keywords_error _ _ _ _ _ _ E) as [Hk [[sim Hm] [Hc _]]].
    destruct H as [H | [H | H]]; [congruence | contradiction | contradiction].
Qed.

Lemma flat_map_split : forall {A B} (f : A -> list B) (g : B -> A),
  (forall a b, In b (f a) -> g b = a) ->
  forall l C1 c C2, flat_map f l = C1 ++ c :: C2 ->
  exists pre post, l = pre ++ g c :: post /\ (forall d, In d (flat_map f pre) -> In d C1).
Proof.
  intros A B f g Hg l. induction l as [|a l IH]; intros C1 c C2 H.
  - simpl in H. destruct C1; discriminate.
  - simpl in H.
    assert (Hb : forall x, C1 = f a ++ x -> flat_map f l = x ++ c :: C2 ->
              exists pre post, a :: l = pre ++ g c :: post /\
                (forall d, In d (flat_map f pre) -> In d C1)).
    { intros x HC HF. destruct (IH x c C2 HF) as [pre [post [Hl Hin]]].
      exists (a :: pre), post. split; [rewrite Hl; reflexivity|].
      intros d Hd. simpl in Hd. rewrite HC. apply in_app_or in Hd as [Hd | Hd].
      - apply in_or_app. left. exact Hd.
      - apply in_or_app. right. exact (Hin d Hd). }
    destruct (app_eq_app _ _ _ _ H) as [x [[HC HF] | [HC HF]]].
    + destruct x as [|d x].
      * apply (Hb []); [rewrite HC, !app_nil_r; reflexivity | symmetry; exact HF].
      * inversion HF; subst d.
        exists [], l. split.
        -- simpl. rewrite (Hg a c); [reflexivity|]. rewrite HC. apply in_or_app. right. left. reflexivity.
        -- intros d [].
    + exact (Hb x HC HF).
Qed.

Lemma enrich_candidates_In : forall r act kws kw e,
  In (kw, e) (enrich_candidates r act kws) <->
  In kw kws /\ In e (filter (fun e => str_mem (e_table e) act) (r_all_columns r)).
Proof.
  intros r act kws kw e. unfold enrich_candidates. rewrite in_flat_map. split.
  - intros [kw' [Hk He]]. apply in_map_iff in He as [e' [Heq He]]. inversion Heq; subst.
    split; assumption.
  - intros [Hk He]. exists kw. split; [exact Hk|]. apply in_map_iff. exists e. split; [reflexivity | exact He].
Qed.

Lemma enrich_candidates_split : forall r act kws C1 kw e C2,
  enrich_candidates r act kws = C1 ++ (kw, e) :: C2 ->
  exists pre post, kws = pre ++ kw :: post /\
    (forall d, In d (enrich_candidates r act pre) -> In d C1).
Proof.
  intros r act kws C1 kw e C2 H.
  apply (flat_map_split _ fst) in H; [exact H|].
  intros a b Hb. apply in_map_iff in Hb as [e' [Hb _]]. subst b. reflexivity.
Qed.

Lemma enrich_column_matches :
  forall (DB LLM : Type) (conn_execute : DB -> str -> DB * (DataFrame + Exn))
         (partial_ratio : str -> str -> Z) (r : Resolver) (question : str)
         (schema_loc : Loc) (w : World DB LLM) schema w' ctx,
  heap_get (w_heap w) schema_loc = Some schema ->
  enrich conn_execute partial_ratio r question schema_loc w = (w', inl ctx) ->
  column_matches ctx =
    map snd (retain_all (r_fuzzy_threshold r) (combined_score partial_ratio r)
               (enrich_candidates r (map fst schema) (extract_keywords question)) []).
Proof.
  intros DB LLM conn pr r question loc w schema w' ctx Hs He.
  unfold enrich in He. rewrite Hs in He.
  destruct (enrich_keywords pr r (map fst schema) (extract_keywords question) [])
    as [best | e] eqn:Ek; [|discriminate He].
  rewrite <- (enrich_keywords_flat _ _ _ _ _ _ Ek).
  destruct (sample_values conn w _ []) as [w1 [hints | e]] in He; inversion He; subst.
  reflexivity.
Qed.

(** ** C2: one best match per column *)

(** C2 (confirmed). When [enrich(question, schema)] returns a context, its
    column matches have pairwise distinct (table, column) keys; each match
    scores at least [fuzzy_threshold], is the combined score of its keyword
    (an extracted keyword) and a column of that key in an active table, is
    at least the combined score of every (keyword, active column) pair with
    that key, and its keyword is the first one in keyword order reaching
    that score: every earlier keyword scores strictly less on that key. *)
Theorem enrich_best_match_per_column :
  forall (DB LLM : Type) (conn_execute : DB -> str -> DB * (DataFrame + Exn))
         (partial_ratio : str -> str -> Z) (r : Resolver) (question : str)
         (schema_loc : Loc) (w : World DB LLM) schema w' ctx,
  heap_get (w_heap w) schema_loc = Some schema ->
  enrich conn_execute partial_ratio r question schema_loc w = (w', inl ctx) ->
  let keywords := extract_keywords question in
  let cols := filter (fun e => str_mem (e_table e) (map fst schema)) (r_all_columns r) in
  NoDup (map match_key (column_matches ctx)) /\
  forall m, In m (column_matches ctx) ->
    (r_fuzzy_threshold r <= m_score m)%Z /\
    In (m_keyword m) keywords /\
    (exists e, In e cols /\ entry_key e = match_key m /\
               combined_score partial_ratio r (m_keyword m) e = m_score m) /\
    (forall kw e, In kw keywords -> In e cols -> entry_key e = match_key m ->
       (combined_score partial_ratio r kw e <= m_score m)%Z) /\
    (exists pre post, keywords = pre ++ m_keyword m :: post /\
       forall kw e, In kw pre -> In e cols -> entry_key e = match_key m ->
         (combined_score partial_ratio r kw e < m_score m)%Z).
Proof.
  intros DB LLM conn pr r question loc w schema w' ctx Hs He. cbv zeta.
  rewrite (enrich_column_matches DB LLM conn pr r question loc w schema w' ctx Hs He).
  set (C := enrich_candidates r (map fst schema) (extract_keywords question)).
  destruct (retain_all_invariant (r_fuzzy_threshold r) (combined_score pr r) C) as [I0 [I1 _]].
  set (B := retain_all (r_fuzzy_threshold r) (combined_score pr r) C []) in *.
  split.
  - replace (map match_key (map snd B)) with (map fst B); [exact I0|].
    rewrite map_map. apply map_ext_in. intros [k m] Hin. exact (proj1 (I1 k m Hin)).
  - intros m Hin. apply in_map_iff in Hin as [[k m'] [Heq Hin]]. simpl in Heq. subst m'.
    destruct (I1 k m Hin) as [Hk [Hthr [C1 [e0 [C2 [HC [He0 [Hsc [H1 H2]]]]]]]]].
    subst k.
    assert (Hin0 : In (m_keyword m, e0) C) by (rewrite HC; apply in_or_app; right; left; reflexivity).
    apply enrich_candidates_In in Hin0 as [Hkw Hcol].
    split; [exact Hthr|]. split; [exact Hkw|]. split; [exists e0; split; [exact Hcol | split; assumption]|].
    split.
    + intros kw e Hkw' He' Hke.
      assert (Hc : In (kw, e) C) by (apply enrich_candidates_In; split; assumption).
      rewrite HC in Hc. apply in_app_or in Hc as [Hc | [Hc | Hc]].
      * specialize (H1 (kw, e) Hc Hke). simpl in H1. lia.
      * inversion Hc; subst. lia.
      * exact (H2 (kw, e) Hc Hke).
    + destruct (enrich_candidates_split _ _ _ _ _ _ _ HC) as [pre [post [Hkws Hpre]]].
      exists pre, post. split; [exact Hkws|].
      intros kw e Hkw' He' Hke. apply (H1 (kw, e)); [|exact Hke].
      apply Hpre. apply enrich_candidates_In. split; assumption.
Qed.

(** ** C5: the combined score *)

(** C5 (confirmed). When [enrich(question, schema)] returns a context, its
    column matches are exactly those retained by one pass over the pairs
    (extracted keyword, entry of [_all_columns] whose table is a key of
    [schema]), in loop order and only those, each scored by
    [combined_score]: [max(lexical, semantic)] with an embedder, the lexical
    [partial_ratio] alone without. *)
Theorem enrich_combined_score :
  forall (DB LLM : Type) (conn_execute : DB -> str -> DB * (DataFrame + Exn))
         (partial_ratio : str -> str -> Z) (r : Resolver) (question : str)
         (schema_loc : Loc) (w : World DB LLM) schema w' ctx,
  heap_get (w_heap w) schema_loc = Some schema ->
  enrich conn_execute partial_ratio r question schema_loc w = (w', inl ctx) ->
  column_matches ctx =
    map snd (retain_all (r_fuzzy_threshold r)
               (fun kw e =>
                  let lexical := partial_ratio kw (py_lower (e_column e)) in
                  match r_mode r with
                  | Hybrid sim => Z.max lexical (sim kw (py_lower (e_column e)))
                  | FuzzyOnly => lexical
                  end)
               (flat_map (fun kw => map (pair kw)
                            (filter (fun e => str_mem (e_table e) (map fst schema))
                               (r_all_columns r)))
                  (extract_keywords question)) []).
Proof.
  intros DB LLM conn pr r question loc w schema w' ctx Hs He.
  exact (enrich_column_matches DB LLM conn pr r question loc w schema w' ctx Hs He).
Qed.

Lemma enrich_best_match_per_column_witness :
  exists w' ctx,
  heap_get (w_heap (Doubles.world0 Doubles.orders_schema)) 0 = Some Doubles.orders_schema /\
  enrich (Doubles.conn_fail_first 0) Doubles.ratio_substring
    (Doubles.resolver_hybrid Doubles.customers_schema) (s "show customer_id by order date") 0
    (Doubles.world0 Doubles.orders_schema) = (w', inl ctx) /\
  NoDup (map match_key (column_matches ctx)).
Proof.
  destruct (enrich (Doubles.conn_fail_first 0) Doubles.ratio_substring
    (Doubles.resolver_hybrid Doubles.customers_schema) (s "show customer_id by order date") 0
    (Doubles.world0 Doubles.orders_schema)) as [w' [ctx | e]] eqn:H;
    [| vm_compute in H; discriminate].
  exists w', ctx.
  assert (Hs : heap_get (w_heap (Doubles.world0 Doubles.orders_schema)) 0 = Some Doubles.orders_schema)
    by reflexivity.
  split; [exact Hs|]. split; [reflexivity|].
  exact (proj1 (enrich_best_match_per_column _ _ _ _ _ _ _ _ _ _ _ Hs H)).
Defined.

Lemma enrich_combined_score_witness :
  exists w' ctx,
  heap_get (w_heap (Doubles.world0 Doubles.orders_schema)) 0 = Some Doubles.orders_schema /\
  enrich (Doubles.conn_fail_first 0) Doubles.ratio_substring
    (Doubles.resolver_fuzzy Doubles.customers_schema) (s "show customer_id by order date") 0
    (Doubles.world0 Doubles.orders_schema) = (w', inl ctx) /\
  map match_key (column_matches ctx) =
    [(s "orders", s "customer_id"); (s "orders", s "order_date")].
Proof.
  destruct (enrich (Doubles.conn_fail_first 0) Doubles.ratio_substring
    (Doubles.resolver_fuzzy Doubles.customers_schema) (s "show customer_id by order date") 0
    (Doubles.world0 Doubles.orders_schema)) as [w' [ctx | e]] eqn:H;
    [| vm_compute in H; discriminate].
  exists w', ctx.
  assert (Hs : heap_get (w_heap (Doubles.world0 Doubles.orders_schema)) 0 = Some Doubles.orders_schema)
    by reflexivity.
  split; [exact Hs|]. split; [reflexivity|].
  rewrite (enrich_combined_score _ _ _ _ _ _ _ _ _ _ _ Hs H). vm_compute. reflexivity.
Defined.

(** ** Further properties of the code *)

(** *** [core/utils.py] *)

Lemma lower_ident_fixed : forall c,
  is_lower_ident_char c = true -> lower_char c = c /\ is_ident_char c = true.
Proof. intro c. all_chars c. Qed.

Lemma sanitize_identifier_shape : forall identifier,
  let out := sanitize_identifier identifier in
  Forall (fun c => is_lower_ident_char c = true) out /\
  starts_letter_or_underscore out = true /\
  length out <= 64.
Proof.
  intro identifier. cbv zeta. unfold sanitize_identifier.
  set (clean := filter is_ident_char identifier).
  set (clean' := if negb (starts_letter_or_underscore clean) then s "t_" ++ clean else clean).
  assert (Hall : Forall (fun c => is_ident_char c = true) clean').
  { assert (H0 : Forall (fun c => is_ident_char c = true) clean).
    { apply Forall_forall. intros c Hc. apply filter_In in Hc. apply Hc. }
    unfold clean'. destruct (negb _); [|exact H0].
    repeat constructor; exact H0. }
  assert (Hstart : starts_letter_or_underscore clean' = true).
  { unfold clean'. destruct (starts_letter_or_underscore clean) eqn:E; simpl; [exact E|].
    reflexivity. }
  destruct clean' as [|c rest] eqn:Ec; [discriminate|].
  change (firstn 64 (c :: rest)) with (c :: firstn 63 rest).
  unfold py_lower. cbn [map].
  split; [|split].
  - inversion Hall as [|? ? Hc Hrest]; subst. constructor.
    + apply lower_ident_char. exact Hc.
    + apply Forall_map. apply Forall_forall. intros x Hx.
      apply lower_ident_char. rewrite Forall_forall in Hrest.
      apply Hrest. rewrite <- (firstn_skipn 63 rest). apply in_or_app. left. exact Hx.
  - simpl in Hstart |- *. apply lower_head_char. exact Hstart.
  - cbn [length]. rewrite length_map. pose proof (firstn_le_length 63 rest). lia.
Qed.

(** X1. [sanitize_identifier] is idempotent: an identifier it produced is
    returned unchanged by a second call (as when [routes.delete_table]
    sanitises a table name that [routes.upload_csv] already sanitised). *)
Theorem sanitize_identifier_idempotent : forall identifier,
  sanitize_identifier (sanitize_identifier identifier) = sanitize_identifier identifier.
Proof.
  intro identifier.
  destruct (sanitize_identifier_shape identifier) as [Hall [Hstart Hlen]].
  set (y := sanitize_identifier identifier) in *.
  assert (Hf : filter is_ident_char y = y).
  { apply forallb_filter_id. apply forallb_forall. intros c Hc.
    rewrite Forall_forall in Hall. exact (proj2 (lower_ident_fixed c (Hall c Hc))). }
  unfold sanitize_identifier at 1. rewrite Hf, Hstart. simpl negb. cbv iota.
  rewrite firstn_all2 by exact Hlen.
  unfold py_lower. rewrite <- (map_id y) at 2. apply map_ext_in. intros c Hc.
  rewrite Forall_forall in Hall. exact (proj1 (lower_ident_fixed c (Hall c Hc))).
Qed.

(** X2. The text [clean_sql] returns neither starts nor ends with a
    whitespace character, whatever the reply of the model. *)
Theorem clean_sql_no_edge_whitespace : forall raw c rest,
  clean_sql raw = c :: rest ->
  is_space c = false /\ is_space (last (c :: rest) c) = false.
Proof.
  intros raw c rest H. apply (strip_edges (clean_sql raw)).
  rewrite clean_sql_stripped. exact H.
Qed.

Lemma clean_sql_no_edge_whitespace_witness :
  clean_sql (s " SELECT 1 ") = s "SELECT 1" /\
  is_space (chr 83) = false /\ is_space (last (s "SELECT 1") (chr 83)) = false.
Proof.
  split; [vm_compute; reflexivity|].
  exact (clean_sql_no_edge_whitespace (s " SELECT 1 ") (chr 83) (s "ELECT 1") eq_refl).
Defined.

(** *** Dicts with a decidable key equality *)

Section AssocDict.

Variables (K V : Type) (eqk : K -> K -> bool).
Hypothesis eqk_spec : forall a b, eqk a b = true <-> a = b.

Lemma assoc_set_keys_In : forall (d : list (K * V)) k v k',
  In k' (map fst (assoc_set eqk k v d)) <-> k' = k \/ In k' (map fst d).
Proof.
  induction d as [|[k0 v0] d IH]; intros k v k'; simpl.
  - split; [intros [H | []]; left; symmetry; exact H | intros [H | []]; left; symmetry; exact H].
  - destruct (eqk k k0) eqn:E.
    + apply eqk_spec in E. subst k0. simpl. split; [tauto|]. intros [H | H]; [left; symmetry; exact H | exact H].
    + simpl. rewrite IH. tauto.
Qed.

Lemma assoc_set_NoDup : forall (d : list (K * V)) k v,
  NoDup (map fst d) -> NoDup (map fst (assoc_set eqk k v d)).
Proof.
  induction d as [|[k0 v0] d IH]; intros k v Hnd; simpl.
  - constructor; [intros [] | constructor].
  - inversion Hnd as [|? ? Hn Hnd']; subst.
    destruct (eqk k k0) eqn:E; simpl; [exact Hnd|].
    constructor; [|exact (IH k v Hnd')].
    rewrite assoc_set_keys_In. intros [H | H]; [|exact (Hn H)].
    subst k0. rewrite (proj2 (eqk_spec k k) eq_refl) in E. discriminate.
Qed.

Lemma assoc_get_set_self : forall (d : list (K * V)) k v,
  assoc_get eqk k (assoc_set eqk k v d) = Some v.
Proof.
  induction d as [|[k0 v0] d IH]; intros k v; simpl.
  - rewrite (proj2 (eqk_spec k k) eq_refl). reflexivity.
  - destruct (eqk k k0) eqn:E; simpl; rewrite E; [reflexivity | apply IH].
Qed.

Lemma assoc_get_set_other : forall (d : list (K * V)) k v k',
  k' <> k -> assoc_get eqk k' (assoc_set eqk k v d) = assoc_get eqk k' d.
Proof.
  induction d as [|[k0 v0] d IH]; intros k v k' Hne; simpl.
  - destruct (eqk k' k) eqn:E; [apply eqk_spec in E; contradiction | reflexivity].
  - destruct (eqk k k0) eqn:E; simpl.
    + apply eqk_spec in E. subst k0. destruct (eqk k' k) eqn:E'; [apply eqk_spec in E'; contradiction | reflexivity].
    + destruct (eqk k' k0); [reflexivity | apply IH; exact Hne].
Qed.

End AssocDict.

Lemma assoc_get_some_key : forall {K V} (eqk : K -> K -> bool) (d : list (K * V)) k v,
  (forall a b, eqk a b = true <-> a = b) ->
  assoc_get eqk k d = Some v -> In (k, v) d.
Proof.
  intros K V eqk d k v Hspec H. apply assoc_get_In in H as [k' [E Hin]].
  apply Hspec in E. subst. exact Hin.
Qed.

(** *** [SemanticResolver._extract_keywords] *)

Lemma lower_char_idem : forall c, lower_char (lower_char c) = lower_char c.
Proof. intro c. all_chars c. Qed.

Lemma re_split_aux_pieces : forall (P : ascii -> Prop) l cur in_sep,
  Forall P cur -> (forall c, In c l -> is_word_char c = true -> P c) ->
  forall x, In x (re_split_aux cur in_sep l) -> Forall P x.
Proof.
  intros P l. induction l as [|c l IH]; intros cur in_sep Hcur Hl x Hx; simpl in Hx.
  - destruct Hx as [Hx | []]. subst. apply Forall_rev. exact Hcur.
  - assert (Hl' : forall c', In c' l -> is_word_char c' = true -> P c')
      by (intros c' Hc'; apply Hl; right; exact Hc').
    destruct (is_word_char c) eqn:Ew.
    + apply (IH (c :: cur) false); [constructor; [apply Hl; [left; reflexivity | exact Ew] | exact Hcur] | exact Hl' | exact Hx].
    + destruct in_sep.
      * exact (IH cur true Hcur Hl' x Hx).
      * destruct Hx as [Hx | Hx].
        -- subst. apply Forall_rev. exact Hcur.
        -- exact (IH [] true (Forall_nil _) Hl' x Hx).
Qed.

(** X3. Every keyword [_extract_keywords] returns is non-empty, is not a
    stop word, consists of word characters only ([\w]) and is already in
    lower case. *)
Theorem extract_keywords_shape : forall question kw,
  In kw (extract_keywords question) ->
  kw <> [] /\ ~ In kw STOP_WORDS /\
  Forall (fun c => is_word_char c = true) kw /\ py_lower kw = kw.
Proof.
  intros question kw H. unfold extract_keywords in H. apply filter_In in H as [Hin Hc].
  apply andb_prop in Hc as [Hne Hsw].
  assert (Hall : Forall (fun c => is_word_char c = true /\ lower_char c = c) kw).
  { apply (re_split_aux_pieces _ (py_lower question) [] false (Forall_nil _)); [|exact Hin].
    intros c Hc Hw. split; [exact Hw|].
    unfold py_lower in Hc. apply in_map_iff in Hc as [c0 [<- _]]. apply lower_char_idem. }
  split; [|split; [|split]].
  - intro E. subst. discriminate.
  - intro E. apply str_mem_In in E. rewrite E in Hsw. discriminate.
  - eapply Forall_impl; [|exact Hall]. intros c [Hw _]. exact Hw.
  - unfold py_lower. rewrite <- (map_id kw) at 2. apply map_ext_in. intros c Hc.
    rewrite Forall_forall in Hall. exact (proj2 (Hall c Hc)).
Qed.

Lemma extract_keywords_shape_witness :
  In (s "revenue") (extract_keywords (s "Show me total REVENUE by customer")) /\
  s "revenue" <> [] /\ ~ In (s "revenue") STOP_WORDS /\
  Forall (fun c => is_word_char c = true) (s "revenue") /\ py_lower (s "revenue") = s "revenue".
Proof.
  assert (H : In (s "revenue") (extract_keywords (s "Show me total REVENUE by customer")))
    by (vm_compute; right; left; reflexivity).
  split; [exact H | exact (extract_keywords_shape _ _ H)].
Defined.

(** *** [SemanticResolver.enrich]: further properties *)

Lemma enrich_result_shape :
  forall (DB LLM : Type) (conn_execute : DB -> str -> DB * (DataFrame + Exn))
         (partial_ratio : str -> str -> Z) (r : Resolver) (question : str)
         (schema_loc : Loc) (w : World DB LLM) schema w' ctx,
  heap_get (w_heap w) schema_loc = Some schema ->
  enrich conn_execute partial_ratio r question schema_loc w = (w', inl ctx) ->
  let matches := map snd (retain_all (r_fuzzy_threshold r) (combined_score partial_ratio r)
                   (enrich_candidates r (map fst schema) (extract_keywords question)) []) in
  sample_values conn_execute w matches [] = (w', inl (value_hints ctx)) /\
  ctx = mkEnrichedContext schema_loc matches (value_hints ctx) (dedup_first [] (map m_table matches)).
Proof.
  intros DB LLM conn pr r question loc w schema w' ctx Hs He. cbv zeta.
  unfold enrich in He. rewrite Hs in He.
  destruct (enrich_keywords pr r (map fst schema) (extract_keywords question) [])
    as [best | e] eqn:Ek; [|discriminate He].
  rewrite (enrich_keywords_flat _ _ _ _ _ _ Ek) in He.
  destruct (sample_values conn w _ []) as [w1 [hints | e]] eqn:Hsv; inversion He; subst.
  split; reflexivity.
Qed.

Lemma enrich_match_entry :
  forall (DB LLM : Type) (conn_execute : DB -> str -> DB * (DataFrame + Exn))
         (partial_ratio : str -> str -> Z) (r : Resolver) (question : str)
         (schema_loc : Loc) (w : World DB LLM) schema w' ctx,
  heap_get (w_heap w) schema_loc = Some schema ->
  enrich conn_execute partial_ratio r question schema_loc w = (w', inl ctx) ->
  forall m, In m (column_matches ctx) ->
  exists e, In e (r_all_columns r) /\ In (e_table e) (map fst schema) /\
            entry_key e = match_key m /\ In (m_keyword m) (extract_keywords question).
Proof.
  intros DB LLM conn pr r question loc w schema w' ctx Hs He m Hm.
  rewrite (enrich_column_matches DB LLM conn pr r question loc w schema w' ctx Hs He) in Hm.
  set (C := enrich_candidates r (map fst schema) (extract_keywords question)) in Hm.
  destruct (retain_all_invariant (r_fuzzy_threshold r) (combined_score pr r) C) as [_ [I1 _]].
  apply in_map_iff in Hm as [[k m'] [Heq Hin]]. simpl in Heq. subst m'.
  destruct (I1 k m Hin) as [Hk [_ [C1 [e0 [C2 [HC [He0 _]]]]]]]. subst k.
  assert (Hin0 : In (m_keyword m, e0) C) by (rewrite HC; apply in_or_app; right; left; reflexivity).
  apply enrich_candidates_In in Hin0 as [Hkw Hcol].
  apply filter_In in Hcol as [Hcol Hact]. apply str_mem_In in Hact.
  exists e0. split; [exact Hcol|]. split; [exact Hact|]. split; [exact He0 | exact Hkw].
Qed.

Lemma sample_values_keys : forall {DB LLM} conn ms hints (w : World DB LLM) w' hints',
  sample_values conn w ms hints = (w', inl hints') ->
  (forall k, In k (map fst hints') <->
     In k (map fst hints) \/ exists m, In m ms /\ k = m_table m ++ s "." ++ m_column m) /\
  (NoDup (map fst hints) -> NoDup (map fst hints')).
Proof.
  intros DB LLM conn ms. induction ms as [|m ms IH]; intros hints w w' hints' H.
  - simpl in H. inversion H; subst. split; [|tauto]. intro k. split; [tauto|].
    intros [Hk | [m [[] _]]]. exact Hk.
  - cbn [sample_values] in H.
    set (key := m_table m ++ s "." ++ m_column m) in H.
    assert (Hstep : forall v w1, sample_values conn w1 ms (assoc_set str_eqb key v hints) = (w', inl hints') ->
       (forall k, In k (map fst hints') <->
          In k (map fst hints) \/ exists m0, In m0 (m :: ms) /\ k = m_table m0 ++ s "." ++ m_column m0) /\
       (NoDup (map fst hints) -> NoDup (map fst hints'))).
    { intros v w1 H1. destruct (IH _ _ _ _ H1) as [Hk Hnd]. split.
      - intro k. rewrite Hk, (assoc_set_keys_In _ _ str_eqb str_eqb_eq). split.
        + intros [[Hk' | Hk'] | [m0 [Hm0 Hk']]].
          * right. exists m. split; [left; reflexivity | exact Hk'].
          * left. exact Hk'.
          * right. exists m0. split; [right; exact Hm0 | exact Hk'].
        + intros [Hk' | [m0 [[Hm0 | Hm0] Hk']]].
          * left. right. exact Hk'.
          * subst m0. left. left. exact Hk'.
          * right. exists m0. split; [exact Hm0 | exact Hk'].
      - intro Hnd0. apply Hnd. apply (assoc_set_NoDup _ _ str_eqb str_eqb_eq). exact Hnd0. }
    destruct (engine_execute conn w (sample_sql (m_table m) (m_column m))) as [w1 [df | e]].
    + exact (Hstep _ _ H).
    + destruct (is_Exception e); [exact (Hstep _ _ H) | discriminate].
Qed.

Lemma sample_values_raise : forall {DB LLM} conn ms hints (w : World DB LLM) w' e,
  sample_values conn w ms hints = (w', inr e) -> is_Exception e = false.
Proof.
  intros DB LLM conn ms. induction ms as [|m ms IH]; intros hints w w' e H.
  - discriminate.
  - cbn [sample_values] in H.
    destruct (engine_execute conn w (sample_sql (m_table m) (m_column m))) as [w1 [df | e0]].
    + exact (IH _ _ _ _ H).
    + destruct (is_Exception e0) eqn:E; [exact (IH _ _ _ _ H)|].
      inversion H; subst. exact E.
Qed.

Lemma dedup_first_spec : forall xs seen,
  NoDup (dedup_first seen xs) /\
  (forall x, In x (dedup_first seen xs) <-> In x xs /\ ~ In x seen).
Proof.
  induction xs as [|y xs IH]; intro seen; simpl.
  - split; [constructor|]. intro x. tauto.
  - destruct (str_mem y seen) eqn:Ey.
    + apply str_mem_In in Ey. destruct (IH seen) as [Hnd Hin]. split; [exact Hnd|].
      intro x. rewrite Hin. split; [tauto|].
      intros [[Hx | Hx] Hn]; [subst; contradiction | split; assumption].
    + assert (Hy : ~ In y seen) by (intro H; apply str_mem_In in H; rewrite H in Ey; discriminate).
      destruct (IH (y :: seen)) as [Hnd Hin]. split.
      * constructor; [|exact Hnd]. rewrite Hin. intros [_ H]. apply H. left. reflexivity.
      * intro x. simpl. rewrite Hin. simpl. split.
        -- intros [Hx | [Hx Hn]]; [subst; tauto | tauto].
        -- intros [[Hx | Hx] Hn]; [left; exact Hx|].
           destruct (str_eqb y x) eqn:E; [apply str_eqb_eq in E; left; exact E|].
           right. split; [exact Hx|]. intros [Hyx | Hxs]; [|exact (Hn Hxs)].
           subst. rewrite str_eqb_refl in E. discriminate.
Qed.

(** X4. If the question has no keyword (for instance, only stop words), or
    the resolver computes semantic scores without raising (it matches
    fuzzily only, or knows at least one column) and no column it knows
    belongs to a table of the given schema, [enrich] runs no query and
    returns a context with no column match, no value hint and no relevant
    table. *)
Theorem enrich_without_candidates :
  forall (DB LLM : Type) (conn_execute : DB -> str -> DB * (DataFrame + Exn))
         (partial_ratio : str -> str -> Z) (r : Resolver) (question : str)
         (schema_loc : Loc) (w : World DB LLM) schema,
  heap_get (w_heap w) schema_loc = Some schema ->
  (extract_keywords question = [] \/
   ((r_mode r = FuzzyOnly \/ r_all_columns r <> []) /\
    forall e, In e (r_all_columns r) -> ~ In (e_table e) (map fst schema))) ->
  enrich conn_execute partial_ratio r question schema_loc w
    = (w, inl (mkEnrichedContext schema_loc [] [] [])).
Proof.
  intros DB LLM conn pr r question loc w schema Hs Hc.
  unfold enrich. rewrite Hs, enrich_keywords_ok by tauto.
  replace (enrich_candidates r (map fst schema) (extract_keywords question)) with (@nil (str * ColEntry)).
  { reflexivity. }
  unfold enrich_candidates. destruct Hc as [Hk | [_ Hcols]].
  - rewrite Hk. reflexivity.
  - replace (filter (fun e => str_mem (e_table e) (map fst schema)) (r_all_columns r))
      with (@nil ColEntry).
    + induction (extract_keywords question) as [|kw kws IH]; [reflexivity | exact IH].
    + symmetry. induction (r_all_columns r) as [|e es IHe]; [reflexivity|].
      simpl. destruct (str_mem (e_table e) (map fst schema)) eqn:E.
      * apply str_mem_In in E. exfalso. exact (Hcols e (or_introl eq_refl) E).
      * apply IHe. intros e' He'. apply Hcols. right. exact He'.
Qed.

Lemma enrich_without_candidates_witness :
  heap_get (w_heap (Doubles.world0 Doubles.orders_schema)) 0 = Some Doubles.orders_schema /\
  (extract_keywords (s "Show me the list") = [] \/
   ((r_mode (Doubles.resolver_hybrid Doubles.orders_schema) = FuzzyOnly \/
     r_all_columns (Doubles.resolver_hybrid Doubles.orders_schema) <> []) /\
    forall e, In e (r_all_columns (Doubles.resolver_hybrid Doubles.orders_schema)) ->
      ~ In (e_table e) (map fst Doubles.orders_schema))) /\
  enrich (Doubles.conn_fail_first 0) Doubles.ratio_substring
    (Doubles.resolver_hybrid Doubles.orders_schema) (s "Show me the list") 0
    (Doubles.world0 Doubles.orders_schema)
  = (Doubles.world0 Doubles.orders_schema, inl (mkEnrichedContext 0 [] [] [])).
Proof.
  assert (Hs : heap_get (w_heap (Doubles.world0 Doubles.orders_schema)) 0 = Some Doubles.orders_schema)
    by reflexivity.
  assert (Hk : extract_keywords (s "Show me the list") = [] \/
   ((r_mode (Doubles.resolver_hybrid Doubles.orders_schema) = FuzzyOnly \/
     r_all_columns (Doubles.resolver_hybrid Doubles.orders_schema) <> []) /\
    forall e, In e (r_all_columns (Doubles.resolver_hybrid Doubles.orders_schema)) ->
      ~ In (e_table e) (map fst Doubles.orders_schema))) by (left; vm_compute; reflexivity).
  split; [exact Hs|]. split; [exact Hk|].
  exact (enrich_without_candidates _ _ _ _ _ _ _ _ _ Hs Hk).
Defined.

(** X23. A hybrid resolver that knows no column (its embedder was loaded
    but [_all_columns] is empty, e.g. for an empty data directory) makes
    [enrich] raise [ValueError] from [cosine_similarity] on the first
    keyword, before any query is run. *)
Theorem enrich_semantic_value_error :
  forall (DB LLM : Type) (conn_execute : DB -> str -> DB * (DataFrame + Exn))
         (partial_ratio : str -> str -> Z) (r : Resolver) (question : str)
         (schema_loc : Loc) (w : World DB LLM) schema sim,
  heap_get (w_heap w) schema_loc = Some schema ->
  extract_keywords question <> [] ->
  r_mode r = Hybrid sim ->
  r_all_columns r = [] ->
  enrich conn_execute partial_ratio r question schema_loc w
    = (w, inr (ValueError semantic_empty_msg)).
Proof.
  intros DB LLM conn pr r question loc w schema sim Hs Hk Hm Hc.
  unfold enrich. rewrite Hs. rewrite (enrich_keywords_raises pr r _ _ [] sim Hk Hm Hc).
  reflexivity.
Qed.

Lemma enrich_semantic_value_error_witness :
  heap_get (w_heap (Doubles.world0 [])) 0 = Some [] /\
  extract_keywords (s "total revenue") <> [] /\
  enrich (Doubles.conn_fail_first 0) Doubles.ratio_substring
    (mkResolver 70 [] (Hybrid (fun _ _ => 80%Z))) (s "total revenue") 0
    (Doubles.world0 [])
  = (Doubles.world0 [], inr (ValueError semantic_empty_msg)).
Proof.
  assert (Hs : heap_get (w_heap (Doubles.world0 [])) 0 = Some []) by reflexivity.
  assert (Hk : extract_keywords (s "total revenue") <> []) by (vm_compute; discriminate).
  split; [exact Hs|]. split; [exact Hk|].
  exact (enrich_semantic_value_error _ _ _ _ (mkResolver 70 [] (Hybrid (fun _ _ => 80%Z)))
           _ _ _ _ (fun _ _ => 80%Z) Hs Hk eq_refl eq_refl).
Defined.

Lemma enrich_relevant_tables_spec :
  forall (DB LLM : Type) (conn_execute : DB -> str -> DB * (DataFrame + Exn))
         (partial_ratio : str -> str -> Z) (r : Resolver) (question : str)
         (schema_loc : Loc) (w : World DB LLM) schema w' ctx,
  heap_get (w_heap w) schema_loc = Some schema ->
  enrich conn_execute partial_ratio r question schema_loc w = (w', inl ctx) ->
  NoDup (relevant_tables ctx) /\
  (forall t, In t (relevant_tables ctx) <-> exists m, In m (column_matches ctx) /\ m_table m = t) /\
  (forall t, In t (relevant_tables ctx) -> In t (map fst schema)).
Proof.
  intros DB LLM conn pr r question loc w schema w' ctx Hs He.
  pose proof (enrich_match_entry DB LLM conn pr r question loc w schema w' ctx Hs He) as Hent.
  destruct (enrich_result_shape DB LLM conn pr r question loc w schema w' ctx Hs He) as [_ Hctx].
  cbv zeta in Hctx.
  set (ms := map snd _) in Hctx.
  assert (Hrel : relevant_tables ctx = dedup_first [] (map m_table (column_matches ctx))).
  { rewrite Hctx at 1. simpl. rewrite Hctx. reflexivity. }
  destruct (dedup_first_spec (map m_table (column_matches ctx)) []) as [Hnd Hin].
  assert (Ht : forall t, In t (relevant_tables ctx) <-> exists m, In m (column_matches ctx) /\ m_table m = t).
  { intro t. rewrite Hrel, Hin, in_map_iff. split.
    - intros [[m [Hm Hmm]] _]. exists m. split; assumption.
    - intros [m [Hmm Hm]]. split; [exists m; split; assumption | intros []]. }
  split; [rewrite Hrel; exact Hnd|]. split; [exact Ht|].
  intros t H. apply Ht in H as [m [Hm Hmt]].
  destruct (Hent m Hm) as [e [_ [Hact [Hkey _]]]].
  unfold entry_key, match_key in Hkey. inversion Hkey. subst t. rewrite <- H0. exact Hact.
Qed.

(** X5. The [relevant_tables] of the context [enrich] returns lists each
    table at most once, lists exactly the tables of the column matches, and
    only tables of the given schema. *)
Theorem enrich_relevant_tables :
  forall (DB LLM : Type) (conn_execute : DB -> str -> DB * (DataFrame + Exn))
         (partial_ratio : str -> str -> Z) (r : Resolver) (question : str)
         (schema_loc : Loc) (w : World DB LLM) schema w' ctx,
  heap_get (w_heap w) schema_loc = Some schema ->
  enrich conn_execute partial_ratio r question schema_loc w = (w', inl ctx) ->
  NoDup (relevant_tables ctx) /\
  (forall t, In t (relevant_tables ctx) <-> exists m, In m (column_matches ctx) /\ m_table m = t) /\
  (forall t, In t (relevant_tables ctx) -> In t (map fst schema)).
Proof. exact enrich_relevant_tables_spec. Qed.

Lemma enrich_relevant_tables_witness :
  exists w' ctx,
  heap_get (w_heap (Doubles.world0 Doubles.orders_schema)) 0 = Some Doubles.orders_schema /\
  enrich (Doubles.conn_fail_first 0) Doubles.ratio_substring
    (Doubles.resolver_hybrid Doubles.customers_schema) (s "customer orders") 0
    (Doubles.world0 Doubles.orders_schema) = (w', inl ctx) /\
  NoDup (relevant_tables ctx).
Proof.
  destruct (enrich (Doubles.conn_fail_first 0) Doubles.ratio_substring
    (Doubles.resolver_hybrid Doubles.customers_schema) (s "customer orders") 0
    (Doubles.world0 Doubles.orders_schema)) as [w' [ctx | e]] eqn:H;
    [| vm_compute in H; discriminate].
  exists w', ctx.
  assert (Hs : heap_get (w_heap (Doubles.world0 Doubles.orders_schema)) 0 = Some Doubles.orders_schema)
    by reflexivity.
  split; [exact Hs|]. split; [reflexivity|].
  exact (proj1 (enrich_relevant_tables _ _ _ _ _ _ _ _ _ _ _ Hs H)).
Defined.

(** X6. The [value_hints] of the context [enrich] returns have pairwise
    distinct keys, and its keys are exactly the strings [table + "." +
    column] of the column matches: every match gets an entry, sampled or
    [[]] when sampling raised an [Exception]. *)
Theorem enrich_value_hint_keys :
  forall (DB LLM : Type) (conn_execute : DB -> str -> DB * (DataFrame + Exn))
         (partial_ratio : str -> str -> Z) (r : Resolver) (question : str)
         (schema_loc : Loc) (w : World DB LLM) schema w' ctx,
  heap_get (w_heap w) schema_loc = Some schema ->
  enrich conn_execute partial_ratio r question schema_loc w = (w', inl ctx) ->
  NoDup (map fst (value_hints ctx)) /\
  forall k, In k (map fst (value_hints ctx)) <->
    exists m, In m (column_matches ctx) /\ k = m_table m ++ s "." ++ m_column m.
Proof.
  intros DB LLM conn pr r question loc w schema w' ctx Hs He.
  destruct (enrich_result_shape DB LLM conn pr r question loc w schema w' ctx Hs He) as [Hsv Hctx].
  cbv zeta in Hsv, Hctx.
  destruct (sample_values_keys _ _ _ _ _ _ Hsv) as [Hk Hnd].
  split; [apply Hnd; constructor|].
  pose proof (f_equal column_matches Hctx) as Hcm. simpl in Hcm.
  intro k. rewrite Hk, Hcm. simpl. split; [intros [[] | H]; exact H | intro H; right; exact H].
Qed.

Lemma enrich_value_hint_keys_witness :
  exists w' ctx,
  heap_get (w_heap (Doubles.world0 Doubles.orders_schema)) 0 = Some Doubles.orders_schema /\
  enrich (Doubles.conn_fail_first 1) Doubles.ratio_substring
    (Doubles.resolver_hybrid Doubles.orders_schema) (s "customer orders") 0
    (Doubles.world0 Doubles.orders_schema) = (w', inl ctx) /\
  NoDup (map fst (value_hints ctx)).
Proof.
  destruct (enrich (Doubles.conn_fail_first 1) Doubles.ratio_substring
    (Doubles.resolver_hybrid Doubles.orders_schema) (s "customer orders") 0
    (Doubles.world0 Doubles.orders_schema)) as [w' [ctx | e]] eqn:H;
    [| vm_compute in H; discriminate].
  exists w', ctx.
  assert (Hs : heap_get (w_heap (Doubles.world0 Doubles.orders_schema)) 0 = Some Doubles.orders_schema)
    by reflexivity.
  split; [exact Hs|]. split; [reflexivity|].
  exact (proj1 (enrich_value_hint_keys _ _ _ _ _ _ _ _ _ _ _ Hs H)).
Defined.

(** X7. The only [Exception] [enrich] raises is the [ValueError] of
    [_get_semantic_scores] for a hybrid resolver without columns, on a
    question with a keyword, before any query (the world is unchanged).
    Every [Exception] of a value sampling query is caught, so anything else
    that escapes is outside [Exception] (such as [KeyboardInterrupt]). *)
Theorem enrich_raised_exceptions :
  forall (DB LLM : Type) (conn_execute : DB -> str -> DB * (DataFrame + Exn))
         (partial_ratio : str -> str -> Z) (r : Resolver) (question : str)
         (schema_loc : Loc) (w : World DB LLM) schema w' e,
  heap_get (w_heap w) schema_loc = Some schema ->
  enrich conn_execute partial_ratio r question schema_loc w = (w', inr e) ->
  is_Exception e = false \/
  (w' = w /\ extract_keywords question <> [] /\ (exists sim, r_mode r = Hybrid sim) /\
   r_all_columns r = [] /\ e = ValueError semantic_empty_msg).
Proof.
  intros DB LLM conn pr r question loc w schema w' e Hs He.
  unfold enrich in He. rewrite Hs in He.
  destruct (enrich_keywords pr r (map fst schema) (extract_keywords question) [])
    as [best | e0] eqn:Ek.
  - left. destruct (sample_values conn w _ []) as [w1 [hints | e1]] eqn:Hsv; inversion He; subst.
    exact (sample_values_raise _ _ _ _ _ _ Hsv).
  - right. injection He as <- <-. split; [reflexivity|].
    exact (enrich_keywords_error _ _ _ _ _ _ Ek).
Qed.

Lemma enrich_raised_exceptions_witness :
  exists w' e,
  heap_get (w_heap (Doubles.world0 Doubles.orders_schema)) 0 = Some Doubles.orders_schema /\
  enrich Doubles.conn_interrupted Doubles.ratio_substring
    (Doubles.resolver_hybrid Doubles.orders_schema) (s "customer orders") 0
    (Doubles.world0 Doubles.orders_schema) = (w', inr e) /\
  (is_Exception e = false \/
   (w' = Doubles.world0 Doubles.orders_schema /\ extract_keywords (s "customer orders") <> [] /\
    (exists sim, r_mode (Doubles.resolver_hybrid Doubles.orders_schema) = Hybrid sim) /\
    r_all_columns (Doubles.resolver_hybrid Doubles.orders_schema) = [] /\
    e = ValueError semantic_empty_msg)).
Proof.
  destruct (enrich Doubles.conn_interrupted Doubles.ratio_substring
    (Doubles.resolver_hybrid Doubles.orders_schema) (s "customer orders") 0
    (Doubles.world0 Doubles.orders_schema)) as [w' [ctx | e]] eqn:H;
    [vm_compute in H; discriminate |].
  exists w', e.
  assert (Hs : heap_get (w_heap (Doubles.world0 Doubles.orders_schema)) 0 = Some Doubles.orders_schema)
    by reflexivity.
  split; [exact Hs|]. split; [reflexivity|].
  exact (enrich_raised_exceptions _ _ _ _ _ _ _ _ _ _ _ Hs H).
Defined.

(** X8. When the resolver's column list was built from the schema that is
    passed to [enrich] (as [__init__] and [refresh_schema] build it from
    [engine.get_schema()]), every column match names a column that exists
    in that schema under the match's table. *)
Theorem enrich_matches_existing_columns :
  forall (DB LLM : Type) (conn_execute : DB -> str -> DB * (DataFrame + Exn))
         (partial_ratio : str -> str -> Z) (r : Resolver) (question : str)
         (schema_loc : Loc) (w : World DB LLM) schema w' ctx,
  r_all_columns r = all_columns_of schema ->
  heap_get (w_heap w) schema_loc = Some schema ->
  enrich conn_execute partial_ratio r question schema_loc w = (w', inl ctx) ->
  forall m, In m (column_matches ctx) ->
  exists cols ci, In (m_table m, cols) schema /\ In ci cols /\ ci_column ci = m_column m.
Proof.
  intros DB LLM conn pr r question loc w schema w' ctx Hr Hs He m Hm.
  destruct (enrich_match_entry DB LLM conn pr r question loc w schema w' ctx Hs He m Hm)
    as [e [He' [_ [Hkey _]]]].
  rewrite Hr in He'. unfold all_columns_of in He'.
  apply in_flat_map in He' as [[t cols] [Htc He']].
  apply in_map_iff in He' as [ci [Hci Hin]]. subst e.
  unfold entry_key, match_key in Hkey. simpl in Hkey. inversion Hkey.
  exists cols, ci. rewrite <- H0. split; [exact Htc|]. split; [exact Hin | congruence].
Qed.

Lemma enrich_matches_existing_columns_witness :
  exists w' ctx,
  r_all_columns (Doubles.resolver_fuzzy Doubles.orders_schema) = all_columns_of Doubles.orders_schema /\
  heap_get (w_heap (Doubles.world0 Doubles.orders_schema)) 0 = Some Doubles.orders_schema /\
  enrich (Doubles.conn_fail_first 0) Doubles.ratio_substring
    (Doubles.resolver_fuzzy Doubles.orders_schema) (s "orders by customer_id") 0
    (Doubles.world0 Doubles.orders_schema) = (w', inl ctx) /\
  column_matches ctx <> [] /\
  forall m, In m (column_matches ctx) ->
  exists cols ci, In (m_table m, cols) Doubles.orders_schema /\ In ci cols /\ ci_column ci = m_column m.
Proof.
  destruct (enrich (Doubles.conn_fail_first 0) Doubles.ratio_substring
    (Doubles.resolver_fuzzy Doubles.orders_schema) (s "orders by customer_id") 0
    (Doubles.world0 Doubles.orders_schema)) as [w' [ctx | e]] eqn:H;
    [| vm_compute in H; discriminate].
  exists w', ctx.
  assert (Hr : r_all_columns (Doubles.resolver_fuzzy Doubles.orders_schema) = all_columns_of Doubles.orders_schema)
    by reflexivity.
  assert (Hs : heap_get (w_heap (Doubles.world0 Doubles.orders_schema)) 0 = Some Doubles.orders_schema)
    by reflexivity.
  split; [exact Hr|]. split; [exact Hs|]. split; [reflexivity|].
  split; [vm_compute in H; inversion H; discriminate|].
  exact (enrich_matches_existing_columns _ _ _ _ _ _ _ _ _ _ _ Hr Hs H).
Defined.

(** *** [api/routes.py]: the [/query] route *)

(** X9. In the [/query] route, [enrich] is given the schema pruned to the
    user-selected tables: every column match and every relevant table it
    reports is then a selected table that exists in the engine's schema. *)
Theorem query_route_matches_selected_tables :
  forall (DB LLM : Type) (conn_execute : DB -> str -> DB * (DataFrame + Exn))
         (partial_ratio : str -> str -> Z) (r : Resolver) (question : str)
         (selected_tables : list str) (schema : Schema)
         (schema_loc : Loc) (w : World DB LLM) w' ctx,
  heap_get (w_heap w) schema_loc = Some (prune_schema selected_tables schema) ->
  enrich conn_execute partial_ratio r question schema_loc w = (w', inl ctx) ->
  (forall m, In m (column_matches ctx) ->
     In (m_table m) selected_tables /\ In (m_table m) (map fst schema)) /\
  (forall t, In t (relevant_tables ctx) -> In t selected_tables /\ In t (map fst schema)).
Proof.
  intros DB LLM conn pr r question selected schema loc w w' ctx Hs He.
  assert (Hm : forall m, In m (column_matches ctx) ->
     In (m_table m) selected /\ In (m_table m) (map fst schema)).
  { intros m Hm.
    destruct (enrich_match_entry DB LLM conn pr r question loc w _ w' ctx Hs He m Hm)
      as [e [_ [Hact [Hkey _]]]].
    unfold entry_key, match_key in Hkey. injection Hkey as Hte Hce. rewrite <- Hte.
    apply in_map_iff in Hact as [[t cols] [Ht Hin]]. simpl in Ht. subst t.
    unfold prune_schema in Hin. apply filter_In in Hin as [Hin Hsel]. simpl in Hsel.
    apply str_mem_In in Hsel. split; [exact Hsel|].
    apply in_map_iff. exists (e_table e, cols). split; [reflexivity | exact Hin]. }
  split; [exact Hm|].
  intros t Ht.
  destruct (enrich_result_shape DB LLM conn pr r question loc w _ w' ctx Hs He) as [_ Hctx].
  cbv zeta in Hctx.
  assert (Hrel : relevant_tables ctx = dedup_first [] (map m_table (column_matches ctx))).
  { rewrite Hctx at 1. simpl. rewrite Hctx. reflexivity. }
  rewrite Hrel in Ht. apply (proj2 (dedup_first_spec _ [])) in Ht as [Ht _].
  apply in_map_iff in Ht as [m [<- Hin]]. exact (Hm m Hin).
Qed.

Lemma query_route_matches_selected_tables_witness :
  exists w' ctx,
  heap_get (w_heap (Doubles.world0 (prune_schema [s "orders"] Doubles.customers_schema))) 0
    = Some (prune_schema [s "orders"] Doubles.customers_schema) /\
  enrich (Doubles.conn_fail_first 0) Doubles.ratio_substring
    (Doubles.resolver_hybrid Doubles.customers_schema) (s "customer company") 0
    (Doubles.world0 (prune_schema [s "orders"] Doubles.customers_schema)) = (w', inl ctx) /\
  forall m, In m (column_matches ctx) ->
    In (m_table m) [s "orders"] /\ In (m_table m) (map fst Doubles.customers_schema).
Proof.
  destruct (enrich (Doubles.conn_fail_first 0) Doubles.ratio_substring
    (Doubles.resolver_hybrid Doubles.customers_schema) (s "customer company") 0
    (Doubles.world0 (prune_schema [s "orders"] Doubles.customers_schema))) as [w' [ctx | e]] eqn:H;
    [| vm_compute in H; discriminate].
  exists w', ctx.
  assert (Hs : heap_get (w_heap (Doubles.world0 (prune_schema [s "orders"] Doubles.customers_schema))) 0
    = Some (prune_schema [s "orders"] Doubles.customers_schema)) by reflexivity.
  split; [exact Hs|]. split; [reflexivity|].
  exact (proj1 (query_route_matches_selected_tables _ _ _ _ _ _ _ _ _ _ _ _ Hs H)).
Defined.

(** *** [CriticAgent.execute_with_retry]: further properties *)

Lemma engine_value_error_prefix : forall {DB LLM} conn (w : World DB LLM) sql w1 m,
  engine_execute conn w sql = (w1, inr (ValueError m)) ->
  exists rest, m = s "SQL execution failed: " ++ rest.
Proof.
  intros DB LLM conn w sql w1 m H. unfold engine_execute in H.
  destruct (conn (w_db w) sql) as [db' [df | e0]]; [discriminate|].
  destruct e0 as [m0 | c m0 | c m0]; simpl in H; inversion H; eexists; reflexivity.
Qed.

Lemma retry_loop_failure :
  forall {DB LLM} conn chat max_retries schema_str question fuel attempt sql hist
         (w : World DB LLM) w' h d,
  (1 <= attempt <= max_retries)%Z ->
  Z.of_nat fuel = (max_retries - attempt + 1)%Z ->
  (forall a, In a hist -> exists rest, a_error a = s "SQL execution failed: " ++ rest) ->
  retry_loop conn chat max_retries schema_str question fuel attempt sql hist w = (w', h, Returned d) ->
  dict_get (s "success") d = Some (PBool false) ->
  (forall a, In a h -> exists rest, a_error a = s "SQL execution failed: " ++ rest) /\
  exists h0 a, h = h0 ++ [a] /\ d = failure_result (a_sql a) (a_error a) max_retries.
Proof.
  intros DB LLM conn chat max schema_str question fuel.
  induction fuel as [|fuel IH]; intros attempt sql hist w w' h d Ha Hf Hh H Hs.
  - simpl in Hf. lia.
  - rewrite retry_loop_step in H.
    destruct (engine_execute conn w sql) as [w1 [data | e]] eqn:Ex.
    + inversion H; subst. discriminate.
    + destruct e as [m | c m | c m]; try discriminate.
      assert (Hh' : forall a, In a (hist ++ [mkAttempt sql m]) ->
                exists rest, a_error a = s "SQL execution failed: " ++ rest).
      { intros a Ha'. apply in_app_or in Ha' as [Ha' | [Ha' | []]]; [exact (Hh a Ha')|].
        subst a. exact (engine_value_error_prefix _ _ _ _ _ Ex). }
      destruct (attempt =? max)%Z eqn:Em.
      * apply Z.eqb_eq in Em. inversion H; subst. split; [exact Hh'|].
        exists hist, (mkAttempt sql m). split; reflexivity.
      * apply Z.eqb_neq in Em. cbv zeta in H.
        destruct (chat (w_llm w1) (CorrectionPrompt schema_str question sql m (hist ++ [mkAttempt sql m])))
          as [l2 [text | e]]; [|discriminate].
        eapply IH; [| | exact Hh' | exact H | exact Hs]; lia.
Qed.

(** X10. With a retry budget of at least 1, a failed result of
    [execute_with_retry] reports the last recorded attempt: its [sql] and
    [error] are those of the last entry of the history, every recorded
    error is a message of the engine's [ValueError] (it starts with
    ["SQL execution failed: "]), and the final
    ["Max retries exceeded"] result after the loop is never returned. *)
Theorem critic_failure_reports_last_attempt :
  forall (DB LLM : Type) (conn_execute : DB -> str -> DB * (DataFrame + Exn))
         (chat : LLM -> Prompt -> LLM * (str + Exn)) (fmt : Schema -> str)
         (max_retries : Z) sql question schema (w : World DB LLM) w' h d,
  (1 <= max_retries)%Z ->
  execute_with_retry conn_execute chat fmt max_retries sql question schema w = (w', h, Returned d) ->
  dict_get (s "success") d = Some (PBool false) ->
  (exists h0 a, h = h0 ++ [a] /\ d = failure_result (a_sql a) (a_error a) max_retries) /\
  (forall a, In a h -> exists rest, a_error a = s "SQL execution failed: " ++ rest) /\
  dict_get (s "error") d <> Some (PStr (s "Max retries exceeded")).
Proof.
  intros DB LLM conn chat fmt max sql question schema w w' h d Hm H Hs.
  unfold execute_with_retry in H.
  destruct (retry_loop_failure conn chat max (fmt schema) question (Z.to_nat max) 1 sql [] w w' h d) as [Hall Hlast];
    [lia | rewrite Z2Nat.id; lia | intros a [] | exact H | exact Hs |].
  split; [exact Hlast|]. split; [exact Hall|].
  destruct Hlast as [h0 [a [Hh Hd]]]. subst d.
  destruct (Hall a) as [rest Hr]; [rewrite Hh; apply in_or_app; right; left; reflexivity|].
  unfold failure_result, dict_get. simpl. rewrite Hr. simpl. intro Heq. discriminate.
Qed.

Lemma critic_failure_reports_last_attempt_witness :
  exists w' h d,
  (1 <= 3)%Z /\
  execute_with_retry Doubles.conn_always_fail Doubles.chat_ok format_schema_for_prompt 3
    (s "SELECT total FROM orders") (s "Total?") Doubles.orders_schema
    (Doubles.world0 Doubles.orders_schema) = (w', h, Returned d) /\
  dict_get (s "success") d = Some (PBool false) /\
  dict_get (s "error") d <> Some (PStr (s "Max retries exceeded")).
Proof.
  destruct (execute_with_retry Doubles.conn_always_fail Doubles.chat_ok format_schema_for_prompt 3
    (s "SELECT total FROM orders") (s "Total?") Doubles.orders_schema
    (Doubles.world0 Doubles.orders_schema)) as [[w' h] [d | e]] eqn:H;
    [| vm_compute in H; discriminate].
  assert (Hs : dict_get (s "success") d = Some (PBool false))
    by (vm_compute in H; inversion H; reflexivity).
  assert (Hm : (1 <= 3)%Z) by lia.
  exists w', h, d. split; [exact Hm|]. split; [reflexivity|]. split; [exact Hs|].
  exact (proj2 (proj2 (critic_failure_reports_last_attempt _ _ _ _ _ _ _ _ _ _ _ _ _ Hm H Hs))).
Defined.

(** X11. With a retry budget of 0 or less, the loop body never runs:
    [execute_with_retry] executes nothing, calls no model, records no
    attempt, and returns the failed result ["Max retries exceeded"] with
    [attempts] equal to the budget. *)
Theorem critic_nonpositive_budget :
  forall (DB LLM : Type) (conn_execute : DB -> str -> DB * (DataFrame + Exn))
         (chat : LLM -> Prompt -> LLM * (str + Exn)) (fmt : Schema -> str)
         (max_retries : Z) sql question schema (w : World DB LLM),
  (max_retries <= 0)%Z ->
  execute_with_retry conn_execute chat fmt max_retries sql question schema w
    = (w, [], Returned (failure_result sql (s "Max retries exceeded") max_retries)).
Proof.
  intros DB LLM conn chat fmt max sql question schema w Hm.
  unfold execute_with_retry. replace (Z.to_nat max) with 0%nat by lia. reflexivity.
Qed.

Lemma critic_nonpositive_budget_witness :
  (0 <= 0)%Z /\
  execute_with_retry Doubles.conn_always_fail Doubles.chat_ok format_schema_for_prompt 0
    (s "SELECT 1") (s "Total?") Doubles.orders_schema (Doubles.world0 Doubles.orders_schema)
  = (Doubles.world0 Doubles.orders_schema, [],
     Returned (failure_result (s "SELECT 1") (s "Max retries exceeded") 0)).
Proof.
  assert (Hm : (0 <= 0)%Z) by lia. split; [exact Hm|].
  exact (critic_nonpositive_budget _ _ _ _ _ _ _ _ _ _ Hm).
Defined.

(** *** [Orchestrator.run]: further properties *)

Lemma heap_get_fresh : forall (h : list (Loc * Schema)) sc,
  heap_get (h ++ [(fresh_loc h, sc)]) (fresh_loc h) = Some sc.
Proof.
  intros h sc. unfold heap_get, fresh_loc.
  assert (Hlt : forall k, In k (map fst h) -> k < S (list_max (map fst h))).
  { intros k Hk. pose proof (proj1 (list_max_le (map fst h) _) (le_n _)) as HF.
    rewrite Forall_forall in HF. specialize (HF k Hk). lia. }
  generalize dependent (S (list_max (map fst h))). intros l Hlt.
  induction h as [|[k v] h IH]; simpl.
  - rewrite Nat.eqb_refl. reflexivity.
  - destruct (Nat.eqb l k) eqn:E.
    + apply Nat.eqb_eq in E. specialize (Hlt k (or_introl eq_refl)). lia.
    + apply IH. intros k' Hk'. apply Hlt. right. exact Hk'.
Qed.

Ltac distinct_keys := let Hk := fresh in intro Hk; vm_compute in Hk; discriminate.

(** X12. Every result [run] returns is either the rejection of the
    relevance gate, with the world unchanged, [success] false and
    [attempts] 0, or, for an accepted question, a result that carries the
    question, an [attempts] count between 1 and 3 (the critic's budget),
    and the relevant tables without repetition, all tables of the
    engine's schema. *)
Theorem run_result_fields :
  forall (DB LLM : Type) (conn_execute : DB -> str -> DB * (DataFrame + Exn))
         (get_schema : DB -> Schema) (chat : LLM -> Prompt -> LLM * (str + Exn))
         (partial_ratio : str -> str -> Z) (fmt : Schema -> str)
         (assemble_context : Resolver -> EnrichedContext -> Schema -> DB -> str)
         (resolver : Resolver) (question : str) (w : World DB LLM) w' d,
  run conn_execute get_schema chat partial_ratio fmt assemble_context resolver question w
    = (w', Returned d) ->
  (is_database_question partial_ratio (get_schema (w_db w)) question = false /\ w' = w /\
   dict_get (s "success") d = Some (PBool false) /\ dict_get (s "attempts") d = Some (PInt 0)) \/
  (is_database_question partial_ratio (get_schema (w_db w)) question = true /\
   dict_get (s "question") d = Some (PStr question) /\
   (exists k, dict_get (s "attempts") d = Some (PInt k) /\ (1 <= k <= 3)%Z) /\
   (exists ts, dict_get (s "relevant_tables") d = Some (PList (map PStr ts)) /\ NoDup ts /\
      forall t, In t ts -> In t (map fst (get_schema (w_db w))))).
Proof.
  intros DB LLM conn gs chat pr fmt assemble resolver question w w' d H.
  unfold run in H.
  destruct (is_database_question pr (gs (w_db w)) question) eqn:Eq;
    unfold negb in H; cbv beta iota zeta in H.
  2: { inversion H; subst. left. repeat split; reflexivity. }
  right. split; [reflexivity|].
  assert (Hheap : heap_get (w_heap (mkWorld (w_heap w ++ [(fresh_loc (w_heap w), gs (w_db w))])
                                       (w_db w) (w_llm w))) (fresh_loc (w_heap w)) = Some (gs (w_db w)))
    by apply heap_get_fresh.
  destruct (enrich conn pr resolver question (fresh_loc (w_heap w))
              (mkWorld (w_heap w ++ [(fresh_loc (w_heap w), gs (w_db w))]) (w_db w) (w_llm w)))
    as [w1 [en | e]] eqn:He; cbv beta iota zeta in H; [|discriminate].
  match type of H with context [chat (w_llm w1) ?p] =>
    destruct (chat (w_llm w1) p) as [l2 [text | e]] eqn:Hc end;
    cbv beta iota zeta in H; [|discriminate].
  match type of H with context [execute_with_retry ?a1 ?a2 ?a3 ?a4 ?a5 ?a6 ?a7 ?a8] =>
    destruct (execute_with_retry a1 a2 a3 a4 a5 a6 a7 a8) as [[w3 hh] [d0 | e3]] eqn:Hx end;
    cbv beta iota zeta in H; [|discriminate].
  inversion H; subst d. clear H.
  unfold dict_get.
  split.
  { rewrite (assoc_get_set_other str PyVal str_eqb str_eqb_eq); [|distinct_keys].
    rewrite (assoc_get_set_other str PyVal str_eqb str_eqb_eq); [|distinct_keys].
    apply (assoc_get_set_self str PyVal str_eqb str_eqb_eq). }
  split.
  { unfold execute_with_retry in Hx.
    destruct (retry_loop_counts conn chat 3 _ question (Z.to_nat 3) 1 _ [] _ _ _ _ eq_refl eq_refl Hx)
      as [[w00 [sql0 [w11 [data [_ [Hd0 Hle]]]]]] | [sql' [err [Hd0 Hlen]]]]; subst d0.
    - exists (Z.of_nat (length hh) + 1)%Z.
      rewrite (assoc_get_set_other str PyVal str_eqb str_eqb_eq); [|distinct_keys].
      rewrite (assoc_get_set_other str PyVal str_eqb str_eqb_eq); [|distinct_keys].
      rewrite (assoc_get_set_other str PyVal str_eqb str_eqb_eq); [|distinct_keys].
      split; [reflexivity | lia].
    - exists 3%Z.
      rewrite (assoc_get_set_other str PyVal str_eqb str_eqb_eq); [|distinct_keys].
      rewrite (assoc_get_set_other str PyVal str_eqb str_eqb_eq); [|distinct_keys].
      rewrite (assoc_get_set_other str PyVal str_eqb str_eqb_eq); [|distinct_keys].
      split; [reflexivity | lia]. }
  exists (relevant_tables en).
  rewrite (assoc_get_set_other str PyVal str_eqb str_eqb_eq); [|distinct_keys].
  rewrite (assoc_get_set_self str PyVal str_eqb str_eqb_eq).
  destruct (enrich_relevant_tables_spec _ _ _ _ _ _ _ _ _ _ _ Hheap He) as [Hnd [_ Hin]].
  split; [reflexivity|]. split; [exact Hnd | exact Hin].
Qed.

Lemma run_result_fields_witness :
  exists w' d,
  run (Doubles.conn_fail_first 0) (Doubles.schema_of_db Doubles.orders_schema)
      Doubles.chat_ok Doubles.ratio_substring format_schema_for_prompt Doubles.context_text
      (Doubles.resolver_fuzzy Doubles.orders_schema) (s "How many orders?")
      (Doubles.world0 Doubles.orders_schema) = (w', Returned d) /\
  dict_get (s "question") d = Some (PStr (s "How many orders?")) /\
  ((is_database_question Doubles.ratio_substring Doubles.orders_schema (s "How many orders?") = false /\
    w' = Doubles.world0 Doubles.orders_schema /\
    dict_get (s "success") d = Some (PBool false) /\ dict_get (s "attempts") d = Some (PInt 0)) \/
   (is_database_question Doubles.ratio_substring Doubles.orders_schema (s "How many orders?") = true /\
    dict_get (s "question") d = Some (PStr (s "How many orders?")) /\
    (exists k, dict_get (s "attempts") d = Some (PInt k) /\ (1 <= k <= 3)%Z) /\
    (exists ts, dict_get (s "relevant_tables") d = Some (PList (map PStr ts)) /\ NoDup ts /\
       forall t, In t ts -> In t (map fst Doubles.orders_schema)))).
Proof.
  destruct (run (Doubles.conn_fail_first 0) (Doubles.schema_of_db Doubles.orders_schema)
      Doubles.chat_ok Doubles.ratio_substring format_schema_for_prompt Doubles.context_text
      (Doubles.resolver_fuzzy Doubles.orders_schema) (s "How many orders?")
      (Doubles.world0 Doubles.orders_schema)) as [w' [d | e]] eqn:H;
    [| vm_compute in H; discriminate].
  exists w', d. split; [reflexivity|].
  split; [vm_compute in H; inversion H; reflexivity|].
  exact (run_result_fields _ _ _ _ _ _ _ _ _ _ _ _ _ H).
Defined.

(** *** [Orchestrator._is_database_question]: acceptance *)

Lemma assoc_get_NoDup_In : forall {V} (l : list (str * V)) k v,
  NoDup (map fst l) -> In (k, v) l -> assoc_get str_eqb k l = Some v.
Proof.
  intros V l. induction l as [|[k0 v0] l IH]; intros k v Hnd Hin; [destruct Hin|].
  inversion Hnd as [|? ? Hn Hnd']; subst. simpl.
  destruct (str_eqb k k0) eqn:E.
  - apply str_eqb_eq in E. subst k0. destruct Hin as [Heq | Hin].
    + inversion Heq. reflexivity.
    + exfalso. apply Hn. apply in_map_iff. exists (k, v). split; [reflexivity | exact Hin].
  - destruct Hin as [Heq | Hin].
    + inversion Heq; subst. rewrite str_eqb_refl in E. discriminate.
    + exact (IH k v Hnd' Hin).
Qed.

Lemma business_vocabulary_in_code_vocabulary : forall (schema : Schema) x,
  NoDup (map fst schema) ->
  In x (business_vocabulary schema) ->
  In x (flat_map (fun table =>
                    flat_map (fun col_info => split_underscore (py_lower (ci_column col_info)))
                             (schema_lookup table schema)) (map fst schema)
        ++ flat_map (fun table => split_underscore (py_lower table)) (map fst schema)).
Proof.
  intros schema x Hnd H. unfold business_vocabulary in H.
  apply in_flat_map in H as [[t cols] [Hin Hx]]. simpl in Hx.
  apply in_app_or in Hx as [Hx | Hx]; apply in_or_app.
  - left. apply in_flat_map. exists t. split.
    + apply in_map_iff. exists (t, cols). split; [reflexivity | exact Hin].
    + unfold schema_lookup. rewrite (assoc_get_NoDup_In schema t cols Hnd Hin). exact Hx.
  - right. apply in_flat_map. exists t. split; [|exact Hx].
    apply in_map_iff. exists (t, cols). split; [reflexivity | exact Hin].
Qed.

(** X13. On a schema whose table names are distinct (a dict), the
    relevance gate accepts a question exactly when one of its tokens is an
    underscore fragment of a lower-cased column or table name, or scores
    at least 70 against a table name. *)
Theorem database_question_iff :
  forall (partial_ratio : str -> str -> Z) (schema : Schema) (question : str),
  NoDup (map fst schema) ->
  is_database_question partial_ratio schema question = true <->
  exists word, In word (question_words question) /\
    (In word (business_vocabulary schema) \/
     exists table, In table (map fst schema) /\ (70 <= partial_ratio word table)%Z).
Proof.
  intros pr schema question Hnd. unfold is_database_question, question_words.
  rewrite existsb_exists. split.
  - intros [word [Hw Hb]]. exists word. split; [exact Hw|].
    apply orb_true_iff in Hb as [Hb | Hb].
    + left. apply code_vocabulary_in_business_vocabulary. apply str_mem_In. exact Hb.
    + right. apply existsb_exists in Hb as [t [Ht Hr]]. exists t. split; [exact Ht|].
      apply Z.leb_le. exact Hr.
  - intros [word [Hw Hb]]. exists word. split; [exact Hw|]. apply orb_true_iff.
    destruct Hb as [Hb | [t [Ht Hr]]].
    + left. apply str_mem_In. apply business_vocabulary_in_code_vocabulary; assumption.
    + right. apply existsb_exists. exists t. split; [exact Ht | apply Z.leb_le; exact Hr].
Qed.

Lemma database_question_iff_witness :
  NoDup (map fst Doubles.orders_schema) /\
  is_database_question Doubles.ratio_zero Doubles.orders_schema (s "Show each customer") = true.
Proof.
  assert (Hnd : NoDup (map fst Doubles.orders_schema)) by (repeat constructor; simpl; tauto).
  split; [exact Hnd|].
  apply (proj2 (database_question_iff Doubles.ratio_zero Doubles.orders_schema
                  (s "Show each customer") Hnd)).
  exists (s "customer"). split.
  - apply str_mem_In. vm_compute. reflexivity.
  - left. apply str_mem_In. vm_compute. reflexivity.
Defined.

(** *** [DuckDBEngine.detect_relationships] *)

Lemma table_pairs_In : forall (l : list str) a b,
  In (a, b) (table_pairs l) <-> exists l1 l2 l3, l = l1 ++ a :: l2 ++ b :: l3.
Proof.
  induction l as [|t rest IH]; intros a b; simpl.
  - split; [intros []|]. intros [l1 [l2 [l3 H]]]. destruct l1; discriminate.
  - rewrite in_app_iff, IH, in_map_iff. split.
    + intros [[b' [Hb Hin]] | [l1 [l2 [l3 H]]]].
      * inversion Hb; subst. apply in_split in Hin as [l2 [l3 H]].
        exists [], l2, l3. rewrite H. reflexivity.
      * exists (t :: l1), l2, l3. rewrite H. reflexivity.
    + intros [l1 [l2 [l3 H]]]. destruct l1 as [|t' l1]; simpl in H; inversion H; subst.
      * left. exists b. split; [reflexivity|]. apply in_or_app. right. left. reflexivity.
      * right. exists l1, l2, l3. reflexivity.
Qed.

(** X14. [detect_relationships] reports exactly the strings
    ["t1.c1 <-> t2.c2"] for a table [t1] listed before a table [t2] in the
    schema's order, a column [c1] of [t1] and a column [c2] of [t2] whose
    lower-cased names have a ratio of at least 85. *)
Theorem detect_relationships_spec :
  forall (ratio : str -> str -> Z) (schema : Schema) (x : str),
  In x (detect_relationships ratio schema) <->
  exists pre mid post t1 t2 c1 c2,
    map fst schema = pre ++ t1 :: mid ++ t2 :: post /\
    In c1 (schema_lookup t1 schema) /\ In c2 (schema_lookup t2 schema) /\
    (85 <= ratio (py_lower (ci_column c1)) (py_lower (ci_column c2)))%Z /\
    x = relationship t1 (ci_column c1) t2 (ci_column c2).
Proof.
  intros ratio schema x. unfold detect_relationships. rewrite in_flat_map. split.
  - intros [[t1 t2] [Hp Hx]].
    apply in_flat_map in Hx as [c1 [Hc1 Hx]]. apply in_flat_map in Hx as [c2 [Hc2 Hx]].
    destruct (85 <=? _)%Z eqn:E; [|destruct Hx].
    destruct Hx as [Hx | []]. apply Z.leb_le in E.
    apply table_pairs_In in Hp as [pre [mid [post Hp]]].
    exists pre, mid, post, t1, t2, c1, c2. repeat split; auto.
  - intros [pre [mid [post [t1 [t2 [c1 [c2 [Hp [Hc1 [Hc2 [Hr Hx]]]]]]]]]]].
    exists (t1, t2). split; [apply table_pairs_In; exists pre, mid, post; exact Hp|].
    apply in_flat_map. exists c1. split; [exact Hc1|].
    apply in_flat_map. exists c2. split; [exact Hc2|].
    apply Z.leb_le in Hr. rewrite Hr. left. symmetry. exact Hx.
Qed.

(** *** [DuckDBEngine.get_categorical_values] *)

Lemma categorical_column_spec : forall {DB LLM} conn (w : World DB LLM) table col cats w' r,
  categorical_column conn w table col cats = (w', r) ->
  (forall e, r = inr e -> is_Exception e = false) /\
  (forall cats', r = inl cats' ->
     (NoDup (map fst cats) -> NoDup (map fst cats')) /\
     forall k, In k (map fst cats') ->
       In k (map fst cats) \/ (In (ci_type col) TEXT_TYPES /\ k = table ++ s "." ++ ci_column col)).
Proof.
  intros DB LLM conn w table col cats w' r H.
  assert (Hsame : r = inl cats ->
    (forall e, r = inr e -> is_Exception e = false) /\
    (forall cats', r = inl cats' ->
       (NoDup (map fst cats) -> NoDup (map fst cats')) /\
       forall k, In k (map fst cats') ->
         In k (map fst cats) \/ (In (ci_type col) TEXT_TYPES /\ k = table ++ s "." ++ ci_column col))).
  { intros ->. split; [intros e He; discriminate|].
    intros cats' Hc. inversion Hc; subst. split; [tauto | intros k Hk; left; exact Hk]. }
  assert (Hraise : forall e, r = inr e -> is_Exception e = false ->
    (forall e, r = inr e -> is_Exception e = false) /\
    (forall cats', r = inl cats' ->
       (NoDup (map fst cats) -> NoDup (map fst cats')) /\
       forall k, In k (map fst cats') ->
         In k (map fst cats) \/ (In (ci_type col) TEXT_TYPES /\ k = table ++ s "." ++ ci_column col))).
  { intros e -> He. split; [intros e' He'; inversion He'; subst; exact He | intros c Hc; discriminate]. }
  unfold categorical_column in H.
  destruct (str_mem (ci_type col) TEXT_TYPES) eqn:Et; cbn [negb] in H;
    [| inversion H; subst; apply Hsame; reflexivity].
  destruct (conn (w_db w) (count_distinct_sql table (ci_column col))) as [db1 [df | e]].
  - destruct (fetchone_first df) as [[| z | x] |];
      try (inversion H; subst; apply Hsame; reflexivity).
    destruct ((0 <? z)%Z && (z <=? 50)%Z); [| inversion H; subst; apply Hsame; reflexivity].
    destruct (conn db1 (distinct_values_sql table (ci_column col))) as [db2 [vals | e2]].
    + inversion H; subst. split; [intros e He; discriminate|].
      intros cats' Hc. inversion Hc; subst. split.
      * apply (assoc_set_NoDup _ _ str_eqb str_eqb_eq).
      * intros k Hk. apply (assoc_set_keys_In _ _ str_eqb str_eqb_eq) in Hk as [Hk | Hk].
        -- right. split; [apply str_mem_In; exact Et | exact Hk].
        -- left. exact Hk.
    + destruct (is_Exception e2) eqn:He2; inversion H; subst;
        [apply Hsame; reflexivity | apply (Hraise e2); [reflexivity | exact He2]].
  - destruct (is_Exception e) eqn:He; inversion H; subst;
      [apply Hsame; reflexivity | apply (Hraise e); [reflexivity | exact He]].
Qed.

Lemma categorical_columns_spec : forall {DB LLM} conn cols (w : World DB LLM) table cats w' r,
  categorical_columns conn w table cols cats = (w', r) ->
  (forall e, r = inr e -> is_Exception e = false) /\
  (forall cats', r = inl cats' ->
     (NoDup (map fst cats) -> NoDup (map fst cats')) /\
     forall k, In k (map fst cats') ->
       In k (map fst cats) \/
       exists c, In c cols /\ In (ci_type c) TEXT_TYPES /\ k = table ++ s "." ++ ci_column c).
Proof.
  intros DB LLM conn cols. induction cols as [|col cols IH]; intros w table cats w' r H; simpl in H.
  - inversion H; subst. split; [intros e He; discriminate|].
    intros cats' Hc. inversion Hc; subst. split; [tauto | intros k Hk; left; exact Hk].
  - destruct (categorical_column conn w table col cats) as [w1 r1] eqn:H1.
    destruct (categorical_column_spec conn w table col cats w1 r1 H1) as [Hr1 Hk1].
    destruct r1 as [c1 | e1].
    + destruct (IH w1 table c1 w' r H) as [Hr Hk]. split; [exact Hr|].
      intros cats' Hc. destruct (Hk cats' Hc) as [Hnd Hin].
      destruct (Hk1 c1 eq_refl) as [Hnd1 Hin1]. split; [tauto|].
      intros k Hk'. destruct (Hin k Hk') as [Hk'' | [c [Hc' Hc'']]].
      * destruct (Hin1 k Hk'') as [H0 | [Ht Hkk]]; [left; exact H0|].
        right. exists col. split; [left; reflexivity | split; assumption].
      * right. exists c. split; [right; exact Hc' | exact Hc''].
    + inversion H; subst. split; [intros e He; inversion He; subst; exact (Hr1 e eq_refl)|].
      intros c Hc; discriminate.
Qed.

Lemma categorical_tables_spec : forall {DB LLM} conn schema (w : World DB LLM) cats w' r,
  categorical_tables conn w schema cats = (w', r) ->
  (forall e, r = inr e -> is_Exception e = false) /\
  (forall cats', r = inl cats' ->
     (NoDup (map fst cats) -> NoDup (map fst cats')) /\
     forall k, In k (map fst cats') ->
       In k (map fst cats) \/
       exists t cols c, In (t, cols) schema /\ In c cols /\ In (ci_type c) TEXT_TYPES /\
                        k = t ++ s "." ++ ci_column c).
Proof.
  intros DB LLM conn schema. induction schema as [|[t cols] rest IH]; intros w cats w' r H; simpl in H.
  - inversion H; subst. split; [intros e He; discriminate|].
    intros cats' Hc. inversion Hc; subst. split; [tauto | intros k Hk; left; exact Hk].
  - destruct (categorical_columns conn w t cols cats) as [w1 r1] eqn:H1.
    destruct (categorical_columns_spec conn cols w t cats w1 r1 H1) as [Hr1 Hk1].
    destruct r1 as [c1 | e1].
    + destruct (IH w1 c1 w' r H) as [Hr Hk]. split; [exact Hr|].
      intros cats' Hc. destruct (Hk cats' Hc) as [Hnd Hin].
      destruct (Hk1 c1 eq_refl) as [Hnd1 Hin1]. split; [tauto|].
      intros k Hk'. destruct (Hin k Hk') as [Hk'' | [t' [cols' [c [Htc [Hc' Hc'']]]]]].
      * destruct (Hin1 k Hk'') as [H0 | [c [Hc' Hc'']]]; [left; exact H0|].
        right. exists t, cols, c. split; [left; reflexivity | split; [exact Hc' | exact Hc'']].
      * right. exists t', cols', c. split; [right; exact Htc | split; [exact Hc' | exact Hc'']].
    + inversion H; subst. split; [intros e He; inversion He; subst; exact (Hr1 e eq_refl)|].
      intros c Hc; discriminate.
Qed.

Lemma get_schema_keys : forall {DB LLM} conn descr tables (w : World DB LLM) schema w1 schema',
  get_schema conn descr w tables schema = (w1, inl schema') ->
  forall t, In t (map fst schema') -> In t (map fst schema) \/ In t tables.
Proof.
  intros DB LLM conn descr tables.
  induction tables as [|t0 ts IH]; intros w schema w1 schema' H t Ht; cbn [get_schema] in H.
  - injection H as _ <-. left. exact Ht.
  - destruct (conn (w_db w) (describe_sql t0)) as [db1 [df | e]]; [|discriminate H].
    destruct (IH _ _ _ _ H t Ht) as [H1 | H1].
    + apply (assoc_set_keys_In _ _ str_eqb str_eqb_eq) in H1 as [H1 | H1].
      * right. left. symmetry. exact H1.
      * left. exact H1.
    + right. right. exact H1.
Qed.

(** X15. [get_categorical_values] first calls [get_schema], one [DESCRIBE]
    per loaded table with no handler: an exception there (for instance a
    table dropped since loading) propagates unchanged.  After that it raises
    no [Exception]: a failed count or value query, or a count that is not
    a number, skips the column.  The dict it returns has distinct keys,
    each of the form ["table.column"] for a loaded table and a column of
    the schema just read whose type is [VARCHAR], [TEXT] or [STRING]. *)
Theorem get_categorical_values_spec :
  forall (DB LLM : Type) (conn_execute : DB -> str -> DB * (DataFrame + Exn))
         (describe_columns : DataFrame -> list ColInfo) (tables : list str)
         (w : World DB LLM) w' r,
  get_categorical_values conn_execute describe_columns tables w = (w', r) ->
  match get_schema conn_execute describe_columns w tables [] with
  | (w1, inr e) => w' = w1 /\ r = inr e
  | (w1, inl schema) =>
      categorical_tables conn_execute w1 schema [] = (w', r) /\
      (forall e, r = inr e -> is_Exception e = false) /\
      (forall cats, r = inl cats ->
         NoDup (map fst cats) /\
         forall k, In k (map fst cats) ->
           exists t cols c, In (t, cols) schema /\ In t tables /\ In c cols /\
                            In (ci_type c) TEXT_TYPES /\ k = t ++ s "." ++ ci_column c)
  end.
Proof.
  intros DB LLM conn descr tables w w' r H. unfold get_categorical_values in H.
  destruct (get_schema conn descr w tables []) as [w1 [schema | e]] eqn:Hg.
  - split; [exact H|].
    destruct (categorical_tables_spec conn schema w1 [] w' r H) as [Hr Hk].
    split; [exact Hr|]. intros cats Hc. destruct (Hk cats Hc) as [Hnd Hin].
    split; [apply Hnd; constructor|].
    intros k Hk'. destruct (Hin k Hk') as [[] | [t [cols [c [Htc [Hc' [Hty Hkey]]]]]]].
    exists t, cols, c. split; [exact Htc|]. split; [|tauto].
    assert (Ht : In t (map fst schema)) by (apply (in_map fst) in Htc; exact Htc).
    destruct (get_schema_keys conn descr tables w [] w1 schema Hg t Ht) as [[] | H0].
    exact H0.
  - injection H as <- <-. split; reflexivity.
Qed.

Lemma get_categorical_values_spec_witness :
  exists w' r,
  get_categorical_values (Doubles.conn_fail_first 0) Doubles.describe_orders [s "orders"]
    (Doubles.world0 []) = (w', r) /\
  match get_schema (Doubles.conn_fail_first 0) Doubles.describe_orders (Doubles.world0 [])
          [s "orders"] [] with
  | (w1, inr e) => w' = w1 /\ r = inr e
  | (w1, inl schema) =>
      categorical_tables (Doubles.conn_fail_first 0) w1 schema [] = (w', r) /\
      (forall e, r = inr e -> is_Exception e = false) /\
      (forall cats, r = inl cats ->
         NoDup (map fst cats) /\
         forall k, In k (map fst cats) ->
           exists t cols c, In (t, cols) schema /\ In t [s "orders"] /\ In c cols /\
                            In (ci_type c) TEXT_TYPES /\ k = t ++ s "." ++ ci_column c)
  end.
Proof.
  destruct (get_categorical_values (Doubles.conn_fail_first 0) Doubles.describe_orders
    [s "orders"] (Doubles.world0 [])) as [w' r] eqn:H.
  exists w', r. split; [reflexivity|].
  exact (get_categorical_values_spec _ _ _ _ _ _ _ _ H).
Defined.

Lemma categorical_columns_no_text : forall {DB LLM} conn cols (w : World DB LLM) table cats,
  (forall c, In c cols -> ~ In (ci_type c) TEXT_TYPES) ->
  categorical_columns conn w table cols cats = (w, inl cats).
Proof.
  intros DB LLM conn cols. induction cols as [|col cols IH]; intros w table cats Hc; [reflexivity|].
  simpl. unfold categorical_column.
  destruct (str_mem (ci_type col) TEXT_TYPES) eqn:Et.
  - exfalso. apply (Hc col (or_introl eq_refl)). apply str_mem_In. exact Et.
  - simpl. apply IH. intros c Hin. apply Hc. right. exact Hin.
Qed.

(** X16. If no column of the schema [get_schema] reads has a type
    [VARCHAR], [TEXT] or [STRING], [get_categorical_values] runs no query
    besides the [DESCRIBE] queries of [get_schema] (the connection is left
    as [get_schema] left it) and returns an empty dict. *)
Theorem get_categorical_values_no_text_columns :
  forall (DB LLM : Type) (conn_execute : DB -> str -> DB * (DataFrame + Exn))
         (describe_columns : DataFrame -> list ColInfo) (tables : list str)
         (w : World DB LLM) w1 schema,
  get_schema conn_execute describe_columns w tables [] = (w1, inl schema) ->
  (forall t cols c, In (t, cols) schema -> In c cols -> ~ In (ci_type c) TEXT_TYPES) ->
  get_categorical_values conn_execute describe_columns tables w = (w1, inl []).
Proof.
  intros DB LLM conn descr tables w w1 schema Hg Hno. unfold get_categorical_values.
  rewrite Hg. clear Hg.
  assert (Hgen : forall cats, categorical_tables conn w1 schema cats = (w1, inl cats)).
  { induction schema as [|[t cols] rest IH]; intro cats; [reflexivity|].
    simpl. rewrite (categorical_columns_no_text conn cols w1 t cats).
    - apply IH. intros t' cols' c Htc Hc. exact (Hno t' cols' c (or_intror Htc) Hc).
    - intros c Hc. exact (Hno t cols c (or_introl eq_refl) Hc). }
  apply Hgen.
Qed.

Lemma get_categorical_values_no_text_columns_witness :
  get_schema (Doubles.conn_fail_first 0) Doubles.describe_ids (Doubles.world0 []) [s "orders"] []
    = (mkWorld [(0, [])] 1 0, inl [(s "orders", [mkColInfo (s "customer_id") (s "BIGINT")])]) /\
  (forall t cols c, In (t, cols) [(s "orders", [mkColInfo (s "customer_id") (s "BIGINT")])] ->
     In c cols -> ~ In (ci_type c) TEXT_TYPES) /\
  get_categorical_values (Doubles.conn_fail_first 0) Doubles.describe_ids [s "orders"]
    (Doubles.world0 []) = (mkWorld [(0, [])] 1 0, inl []).
Proof.
  assert (Hg : get_schema (Doubles.conn_fail_first 0) Doubles.describe_ids (Doubles.world0 [])
                 [s "orders"] []
    = (mkWorld [(0, [])] 1 0, inl [(s "orders", [mkColInfo (s "customer_id") (s "BIGINT")])]))
    by (vm_compute; reflexivity).
  assert (Hno : forall t cols c, In (t, cols) [(s "orders", [mkColInfo (s "customer_id") (s "BIGINT")])] ->
     In c cols -> ~ In (ci_type c) TEXT_TYPES).
  { intros t cols c [Htc | []] Hc. injection Htc as <- <-. destruct Hc as [Hc | []]. subst c.
    intro Hin. apply str_mem_In in Hin. vm_compute in Hin. discriminate Hin. }
  split; [exact Hg|]. split; [exact Hno|].
  exact (get_categorical_values_no_text_columns _ _ _ _ _ _ _ _ Hg Hno).
Defined.

(** *** [core/llm_client._prepare_anthropic_payload] *)

Lemma prepare_loop_ok : forall msgs sp acc sp' acc',
  prepare_loop msgs sp acc = inl (sp', acc') ->
  acc' = acc ++ filter (fun m => match msg_get (s "role") m with
                                 | Some role => negb (str_eqb role (s "system"))
                                 | None => true
                                 end) msgs /\
  ((forall m, In m msgs -> msg_get (s "role") m <> Some (s "system")) -> sp' = sp) /\
  (forall pre m post c, msgs = pre ++ m :: post ->
     msg_get (s "role") m = Some (s "system") -> msg_get (s "content") m = Some c ->
     (forall m', In m' post -> msg_get (s "role") m' <> Some (s "system")) ->
     sp' = Some c).
Proof.
  induction msgs as [|msg rest IH]; intros sp acc sp' acc' H; cbn [prepare_loop] in H.
  - inversion H; subst. split; [rewrite app_nil_r; reflexivity|]. split; [reflexivity|].
    intros pre m post c Hd. destruct pre; discriminate Hd.
  - destruct (msg_get (s "role") msg) as [role |] eqn:Er; [|discriminate H].
    destruct (str_eqb role (s "system")) eqn:Es.
    + apply str_eqb_eq in Es. subst role.
      destruct (msg_get (s "content") msg) as [c0 |] eqn:Ec; [|discriminate H].
      destruct (IH _ _ _ _ H) as [Hacc [Hno Hlast]].
      split; [cbn [filter]; rewrite Er, str_eqb_refl; exact Hacc|].
      split; [intro Hn; exfalso; exact (Hn msg (or_introl eq_refl) Er)|].
      intros pre m post c Hd Hr Hc Hpost. destruct pre as [|x pre]; simpl in Hd; inversion Hd; subst.
      * rewrite Hno by exact Hpost. rewrite Ec in Hc. exact Hc.
      * exact (Hlast pre m post c eq_refl Hr Hc Hpost).
    + destruct (IH _ _ _ _ H) as [Hacc [Hno Hlast]].
      split; [cbn [filter]; rewrite Er, Es, Hacc, <- app_assoc; reflexivity|].
      split; [intro Hn; apply Hno; intros m Hm; apply Hn; right; exact Hm|].
      intros pre m post c Hd Hr Hc Hpost. destruct pre as [|x pre]; simpl in Hd; inversion Hd; subst.
      * rewrite Er in Hr. inversion Hr; subst. rewrite str_eqb_refl in Es. discriminate.
      * exact (Hlast pre m post c eq_refl Hr Hc Hpost).
Qed.

(** X17. When [_prepare_anthropic_payload] succeeds, the other messages are
    the non-system messages in their original order; the system blocks are
    empty when there is no system message, and otherwise come from the
    last system message only: none when its content is empty, else one
    text block with an ephemeral [cache_control]. *)
Theorem prepare_payload_spec :
  forall messages blocks others,
  prepare_anthropic_payload messages = inl (blocks, others) ->
  others = filter (fun m => match msg_get (s "role") m with
                            | Some role => negb (str_eqb role (s "system"))
                            | None => true
                            end) messages /\
  ((forall m, In m messages -> msg_get (s "role") m <> Some (s "system")) -> blocks = []) /\
  (forall pre m post c, messages = pre ++ m :: post ->
     msg_get (s "role") m = Some (s "system") -> msg_get (s "content") m = Some c ->
     (forall m', In m' post -> msg_get (s "role") m' <> Some (s "system")) ->
     blocks = if str_eqb c [] then [] else [system_block c]).
Proof.
  intros messages blocks others H. unfold prepare_anthropic_payload in H.
  destruct (prepare_loop messages None []) as [[sp acc] | e] eqn:Hl; [|discriminate].
  inversion H; subst blocks others. clear H.
  destruct (prepare_loop_ok _ _ _ _ _ Hl) as [Hacc [Hno Hlast]].
  split; [exact Hacc|]. split.
  - intro Hn. rewrite (Hno Hn). reflexivity.
  - intros pre m post c Hd Hr Hc Hpost. rewrite (Hlast pre m post c Hd Hr Hc Hpost). reflexivity.
Qed.

Lemma prepare_payload_spec_witness :
  exists blocks others,
  prepare_anthropic_payload
    [[(s "role", s "system"); (s "content", s "A")];
     [(s "role", s "user"); (s "content", s "Q")];
     [(s "role", s "system"); (s "content", s "B")]] = inl (blocks, others) /\
  blocks = [system_block (s "B")].
Proof.
  destruct (prepare_anthropic_payload
    [[(s "role", s "system"); (s "content", s "A")];
     [(s "role", s "user"); (s "content", s "Q")];
     [(s "role", s "system"); (s "content", s "B")]]) as [[blocks others] | e] eqn:H;
    [| vm_compute in H; discriminate].
  exists blocks, others. split; [reflexivity|].
  destruct (prepare_payload_spec _ _ _ H) as [_ [_ Hlast]].
  refine (Hlast [[(s "role", s "system"); (s "content", s "A")];
                 [(s "role", s "user"); (s "content", s "Q")]]
                [(s "role", s "system"); (s "content", s "B")] [] (s "B")
                eq_refl eq_refl eq_refl _).
  intros m' [].
Defined.

Lemma prepare_loop_error : forall msgs sp acc e,
  prepare_loop msgs sp acc = inr e ->
  (e = KeyError (s "role") /\ exists m, In m msgs /\ msg_get (s "role") m = None) \/
  (e = KeyError (s "content") /\ exists m, In m msgs /\
     msg_get (s "role") m = Some (s "system") /\ msg_get (s "content") m = None).
Proof.
  induction msgs as [|msg rest IH]; intros sp acc e H; cbn [prepare_loop] in H; [discriminate|].
  destruct (msg_get (s "role") msg) as [role |] eqn:Er.
  - destruct (str_eqb role (s "system")) eqn:Es.
    + apply str_eqb_eq in Es. subst role.
      destruct (msg_get (s "content") msg) as [c0 |] eqn:Ec.
      * destruct (IH _ _ _ H) as [[He [m [Hm Hr]]] | [He [m [Hm Hr]]]].
        -- left. split; [exact He|]. exists m. split; [right; exact Hm | exact Hr].
        -- right. split; [exact He|]. exists m. split; [right; exact Hm | exact Hr].
      * inversion H; subst. right. split; [reflexivity|]. exists msg.
        split; [left; reflexivity | split; assumption].
    + destruct (IH _ _ _ H) as [[He [m [Hm Hr]]] | [He [m [Hm Hr]]]].
      * left. split; [exact He|]. exists m. split; [right; exact Hm | exact Hr].
      * right. split; [exact He|]. exists m. split; [right; exact Hm | exact Hr].
  - inversion H; subst. left. split; [reflexivity|]. exists msg. split; [left; reflexivity | exact Er].
Qed.

Lemma prepare_loop_missing_key : forall msgs sp acc,
  (exists m, In m msgs /\ (msg_get (s "role") m = None \/
     (msg_get (s "role") m = Some (s "system") /\ msg_get (s "content") m = None))) ->
  exists e, prepare_loop msgs sp acc = inr e.
Proof.
  induction msgs as [|msg rest IH]; intros sp acc [m [Hm Hk]]; [destruct Hm|].
  cbn [prepare_loop]. destruct Hm as [Hm | Hm].
  - subst m. destruct Hk as [Hr | [Hr Hc]].
    + rewrite Hr. eexists. reflexivity.
    + rewrite Hr, str_eqb_refl, Hc. eexists. reflexivity.
  - destruct (msg_get (s "role") msg) as [role |]; [| eexists; reflexivity].
    destruct (str_eqb role (s "system")).
    + destruct (msg_get (s "content") msg); [| eexists; reflexivity].
      apply IH. exists m. split; assumption.
    + apply IH. exists m. split; assumption.
Qed.

Lemma prepare_loop_first_fault : forall msgs sp acc e,
  prepare_loop msgs sp acc = inr e <->
  exists pre m post, msgs = pre ++ m :: post /\
    (forall m', In m' pre -> msg_get (s "role") m' <> None /\
       (msg_get (s "role") m' = Some (s "system") -> msg_get (s "content") m' <> None)) /\
    ((msg_get (s "role") m = None /\ e = KeyError (s "role")) \/
     (msg_get (s "role") m = Some (s "system") /\ msg_get (s "content") m = None /\
      e = KeyError (s "content"))).
Proof.
  induction msgs as [|msg rest IH]; intros sp acc e.
  - split; [intro H; discriminate H|].
    intros [pre [m [post [H _]]]]. destruct pre; discriminate H.
  - cbn [prepare_loop]. split.
    + intro H. destruct (msg_get (s "role") msg) as [role |] eqn:Er.
      * destruct (str_eqb role (s "system")) eqn:Es.
        -- apply str_eqb_eq in Es. subst role.
           destruct (msg_get (s "content") msg) as [c0 |] eqn:Ec.
           ++ destruct (proj1 (IH _ _ e) H) as [pre [m [post [Hp [Hok Hf]]]]].
              exists (msg :: pre), m, post. split; [rewrite Hp; reflexivity|]. split; [|exact Hf].
              intros m' [Hm' | Hm']; [subst m'|exact (Hok m' Hm')].
              split; [rewrite Er; discriminate | intros _; rewrite Ec; discriminate].
           ++ injection H as <-. exists [], msg, rest. split; [reflexivity|].
              split; [intros m' []|]. right. tauto.
        -- destruct (proj1 (IH _ _ e) H) as [pre [m [post [Hp [Hok Hf]]]]].
           exists (msg :: pre), m, post. split; [rewrite Hp; reflexivity|]. split; [|exact Hf].
           intros m' [Hm' | Hm']; [subst m'|exact (Hok m' Hm')].
           split; [rewrite Er; discriminate|]. intro Hs. rewrite Er in Hs. injection Hs as ->.
           rewrite str_eqb_refl in Es. discriminate Es.
      * injection H as <-. exists [], msg, rest. split; [reflexivity|].
        split; [intros m' []|]. left. tauto.
    + intros [pre [m [post [Hp [Hok Hf]]]]].
      destruct pre as [|a pre'].
      * injection Hp as -> ->.
        destruct Hf as [[Hr ->] | [Hr [Hc ->]]]; rewrite Hr; [reflexivity|].
        rewrite str_eqb_refl, Hc. reflexivity.
      * injection Hp as -> Hp.
        destruct (Hok a (or_introl eq_refl)) as [Hr Hc].
        assert (Hrest : exists pre m post, rest = pre ++ m :: post /\
          (forall m', In m' pre -> msg_get (s "role") m' <> None /\
             (msg_get (s "role") m' = Some (s "system") -> msg_get (s "content") m' <> None)) /\
          ((msg_get (s "role") m = None /\ e = KeyError (s "role")) \/
           (msg_get (s "role") m = Some (s "system") /\ msg_get (s "content") m = None /\
            e = KeyError (s "content")))).
        { exists pre', m, post. split; [exact Hp|]. split; [|exact Hf].
          intros m' Hm'. exact (Hok m' (or_intror Hm')). }
        destruct (msg_get (s "role") a) as [role |] eqn:Er; [|contradiction].
        destruct (str_eqb role (s "system")) eqn:Es.
        -- apply str_eqb_eq in Es. subst role.
           destruct (msg_get (s "content") a) as [c0 |]; [|exfalso; exact (Hc eq_refl eq_refl)].
           exact (proj2 (IH _ _ e) Hrest).
        -- exact (proj2 (IH _ _ e) Hrest).
Qed.

(** X18. [_prepare_anthropic_payload] raises exactly when some message has
    no ["role"] key, or a system message has no ["content"] key.  What it
    raises is decided by the first such message: [KeyError('role')] when
    that message has no ["role"] key, [KeyError('content')] when it is a
    system message with no ["content"] key. *)
Theorem prepare_payload_key_error :
  forall messages,
  ((exists e, prepare_anthropic_payload messages = inr e) <->
   exists m, In m messages /\ (msg_get (s "role") m = None \/
     (msg_get (s "role") m = Some (s "system") /\ msg_get (s "content") m = None))) /\
  (forall e, prepare_anthropic_payload messages = inr e <->
   exists pre m post, messages = pre ++ m :: post /\
     (forall m', In m' pre -> msg_get (s "role") m' <> None /\
        (msg_get (s "role") m' = Some (s "system") -> msg_get (s "content") m' <> None)) /\
     ((msg_get (s "role") m = None /\ e = KeyError (s "role")) \/
      (msg_get (s "role") m = Some (s "system") /\ msg_get (s "content") m = None /\
       e = KeyError (s "content")))).
Proof.
  intro messages.
  assert (Hl : forall e, prepare_anthropic_payload messages = inr e <->
                         prepare_loop messages None [] = inr e).
  { intro e. unfold prepare_anthropic_payload.
    destruct (prepare_loop messages None []) as [[sp acc] | e0];
      split; intro H; try discriminate H; injection H as ->; reflexivity. }
  split.
  - split.
    + intros [e H]. apply Hl in H.
      destruct (prepare_loop_error _ _ _ _ H) as [[_ [m [Hm Hr]]] | [_ [m [Hm [Hr Hc]]]]];
        exists m; split; auto.
    + intro Hex. destruct (prepare_loop_missing_key messages None [] Hex) as [e He].
      exists e. apply Hl. exact He.
  - intro e. rewrite Hl. apply prepare_loop_first_fault.
Qed.

(** *** [prompts/templates.py] *)

Lemma infix_head : forall (x b : str), exists p q, x ++ b = p ++ x ++ q.
Proof. intros x b. exists [], b. reflexivity. Qed.

Lemma infix_tail : forall (a x : str), exists p q, a ++ x = p ++ x ++ q.
Proof. intros a x. exists a, []. rewrite app_nil_r. reflexivity. Qed.

Lemma infix_app_l : forall (a b x : str),
  (exists p q, b = p ++ x ++ q) -> exists p q, a ++ b = p ++ x ++ q.
Proof. intros a b x [p [q H]]. exists (a ++ p), q. rewrite H, app_assoc. reflexivity. Qed.

Lemma infix_app_r : forall (a b x : str),
  (exists p q, a = p ++ x ++ q) -> exists p q, a ++ b = p ++ x ++ q.
Proof.
  intros a b x [p [q H]]. exists p, (q ++ b). rewrite H, <- !app_assoc. reflexivity.
Qed.

Lemma infix_trans : forall (x y z : str),
  (exists p q, y = p ++ x ++ q) -> (exists p q, z = p ++ y ++ q) -> exists p q, z = p ++ x ++ q.
Proof.
  intros x y z [p1 [q1 H1]] [p2 [q2 H2]]. exists (p2 ++ p1), (q1 ++ q2).
  rewrite H2, H1, <- !app_assoc. reflexivity.
Qed.

Lemma infix_assoc3 : forall (a b c r : str), exists p q, a ++ b ++ c ++ r = p ++ (a ++ b ++ c) ++ q.
Proof. intros a b c r. exists [], r. rewrite <- !app_assoc. reflexivity. Qed.

Lemma infix_concat_In : forall (ys : list str) y, In y ys -> exists p q, concat ys = p ++ y ++ q.
Proof.
  intros ys y H. apply in_split in H as [l1 [l2 H]]. subst ys.
  exists (concat l1), (concat l2). rewrite concat_app. reflexivity.
Qed.

Lemma infix_join_In : forall sep parts (x : str), In x parts -> exists p q, join sep parts = p ++ x ++ q.
Proof.
  intros sep parts. induction parts as [|y ys IH]; intros x H; [destruct H|].
  destruct ys as [|y' ys'].
  - destruct H as [H | []]. subst. exists [], []. rewrite app_nil_r. reflexivity.
  - change (join sep (y :: y' :: ys')) with (y ++ sep ++ join sep (y' :: ys')).
    destruct H as [H | H].
    + subst. apply infix_head.
    + apply infix_app_l, infix_app_l, IH, H.
Qed.

Lemma combine_seq_In : forall {A} (l : list A) start k a,
  nth_error l k = Some a -> In (start + k, a) (combine (seq start (length l)) l).
Proof.
  intros A l. induction l as [|x l IH]; intros start k a H; [destruct k; discriminate|].
  destruct k as [|k]; simpl in H |- *.
  - inversion H. left. rewrite Nat.add_0_r. reflexivity.
  - right. replace (start + S k) with (S start + k) by lia. apply IH. exact H.
Qed.

Ltac infix_here := first [apply infix_head | apply infix_app_l; infix_here].
Ltac infix_in H := first [apply (infix_app_r _ _ _ H) | apply infix_app_l; infix_in H].

(** X19. [get_correction_prompt] returns a system message with the fixed
    debugging instructions followed by one user message, whose content
    contains the question, the schema text, the failing SQL, its error
    message and, for the [k]-th entry of the history (counting from 1),
    the block ["\nAttempt k:\nSQL: ..\nError: ..\n"]. *)
Theorem correction_prompt_contents :
  forall (schema question failed_sql error_message : str) (history : list Attempt),
  map (msg_get (s "role")) (get_correction_prompt schema question failed_sql error_message history)
    = [Some (s "system"); Some (s "user")] /\
  exists u,
    map (msg_get (s "content")) (get_correction_prompt schema question failed_sql error_message history)
      = [Some correction_system; Some u] /\
    (exists p q, u = p ++ question ++ q) /\
    (exists p q, u = p ++ schema ++ q) /\
    (exists p q, u = p ++ failed_sql ++ q) /\
    (exists p q, u = p ++ error_message ++ q) /\
    forall k a, nth_error history k = Some a ->
      exists p q, u = p ++ (newline ++ s "Attempt " ++ nat_to_dec (S k) ++ s ":" ++ newline
                            ++ s "SQL: " ++ a_sql a ++ newline
                            ++ s "Error: " ++ a_error a ++ newline) ++ q.
Proof.
  intros schema question failed_sql error_message history.
  split; [reflexivity|].
  exists (correction_user schema question failed_sql error_message history).
  split; [reflexivity|].
  unfold correction_user.
  split; [infix_here|]. split; [infix_here|]. split; [infix_here|]. split; [infix_here|].
  intros k a Hk.
  assert (Hh : exists p q, correction_history_str history
                 = p ++ (newline ++ s "Attempt " ++ nat_to_dec (S k) ++ s ":" ++ newline
                         ++ s "SQL: " ++ a_sql a ++ newline
                         ++ s "Error: " ++ a_error a ++ newline) ++ q).
  { unfold correction_history_str. destruct history as [|a0 h0]; [destruct k; discriminate|].
    apply infix_app_l, infix_app_l, infix_app_l.
    apply infix_concat_In. apply in_map_iff. exists (S k, a). split; [reflexivity|].
    apply (combine_seq_In _ 1 k a Hk). }
  infix_in Hh.
Qed.

(** X20. The schema text of [format_schema_for_prompt] has, for every
    table of the schema, a line ["Table: t"] and, for each of its columns,
    the line ["    column (type)"]; and it always contains the fixed
    relationship block. *)
Theorem format_schema_mentions_tables_and_columns :
  forall (schema : Schema) t cols,
  In (t, cols) schema ->
  (exists p q, format_schema_for_prompt schema = p ++ (s "Table: " ++ t ++ newline) ++ q) /\
  (forall c, In c cols -> exists p q, format_schema_for_prompt schema = p ++ column_line c ++ q) /\
  (exists p q, format_schema_for_prompt schema = p ++ NORTHWIND_RELATIONSHIPS ++ q).
Proof.
  intros schema t cols Hin.
  set (res := join (newline ++ newline) (map table_part schema) ++ newline ++ NORTHWIND_RELATIONSHIPS).
  assert (Hres : forall x, (exists p q, res = p ++ x ++ q) ->
                   exists p q, format_schema_for_prompt schema = p ++ x ++ q).
  { intros x Hx. unfold format_schema_for_prompt. cbv zeta. fold res.
    match goal with |- context [match ?L with [] => _ | _ :: _ => _ end] => destruct L end;
      [exact Hx | apply infix_app_r; exact Hx]. }
  assert (Hpart : exists p q, res = p ++ table_part (t, cols) ++ q).
  { unfold res. apply infix_app_r. apply infix_join_In. apply in_map_iff.
    exists (t, cols). split; [reflexivity | exact Hin]. }
  split; [|split].
  - apply Hres. refine (infix_trans _ _ _ _ Hpart). unfold table_part. cbn [fst snd].
    apply infix_assoc3.
  - intros c Hc. apply Hres. refine (infix_trans _ _ _ _ Hpart).
    refine (infix_trans _ (join newline (map column_line cols)) _ _ _).
    + apply infix_join_In. apply in_map. exact Hc.
    + unfold table_part. cbn [fst snd]. apply infix_app_l, infix_app_l, infix_app_l.
      apply infix_app_r. exists [], []. rewrite app_nil_r. reflexivity.
  - apply Hres. unfold res. apply infix_app_l. apply infix_tail.
Qed.

Lemma format_schema_mentions_tables_and_columns_witness :
  In (s "orders", [mkColInfo (s "customer_id") (s "BIGINT"); mkColInfo (s "order_date") (s "VARCHAR")])
     Doubles.orders_schema /\
  exists p q, format_schema_for_prompt Doubles.orders_schema
              = p ++ column_line (mkColInfo (s "order_date") (s "VARCHAR")) ++ q.
Proof.
  assert (Hin : In (s "orders", [mkColInfo (s "customer_id") (s "BIGINT");
                                 mkColInfo (s "order_date") (s "VARCHAR")]) Doubles.orders_schema)
    by (left; reflexivity).
  split; [exact Hin|].
  apply (proj1 (proj2 (format_schema_mentions_tables_and_columns _ _ _ Hin))).
  right. left. reflexivity.
Defined.

(** *** [SemanticResolver.format_enriched_context]: the schema it renders *)

Lemma restrict_fold_get : forall (original : Schema) rel acc t,
  assoc_get str_eqb t
    (fold_left (fun acc t => match assoc_get str_eqb t original with
                             | Some cols => assoc_set str_eqb t cols acc
                             | None => acc
                             end) rel acc)
  = match assoc_get str_eqb t original with
    | Some c => if str_mem t rel then Some c else assoc_get str_eqb t acc
    | None => assoc_get str_eqb t acc
    end.
Proof.
  intros original rel. induction rel as [|t0 rel IH]; intros acc t; simpl.
  - destruct (assoc_get str_eqb t original); reflexivity.
  - rewrite IH. unfold str_mem. simpl.
    destruct (str_eqb t t0) eqn:E.
    + apply str_eqb_eq in E. subst t0. simpl.
      destruct (assoc_get str_eqb t original) as [c |] eqn:Ho; [|reflexivity].
      destruct (existsb (str_eqb t) rel); [reflexivity|].
      apply (assoc_get_set_self _ _ str_eqb str_eqb_eq).
    + simpl.
      assert (Hne : t <> t0) by (intro Heq; subst; rewrite str_eqb_refl in E; discriminate).
      assert (Hacc : assoc_get str_eqb t (match assoc_get str_eqb t0 original with
                                          | Some cols => assoc_set str_eqb t0 cols acc
                                          | None => acc end) = assoc_get str_eqb t acc).
      { destruct (assoc_get str_eqb t0 original); [|reflexivity].
        apply (assoc_get_set_other _ _ str_eqb str_eqb_eq). exact Hne. }
      rewrite Hacc. reflexivity.
Qed.

Lemma restrict_fold_NoDup : forall (original : Schema) rel acc,
  NoDup (map fst acc) ->
  NoDup (map fst (fold_left (fun acc t => match assoc_get str_eqb t original with
                                          | Some cols => assoc_set str_eqb t cols acc
                                          | None => acc
                                          end) rel acc)).
Proof.
  intros original rel. induction rel as [|t0 rel IH]; intros acc Hnd; simpl; [exact Hnd|].
  apply IH. destruct (assoc_get str_eqb t0 original); [|exact Hnd].
  apply (assoc_set_NoDup _ _ str_eqb str_eqb_eq). exact Hnd.
Qed.

Lemma restrict_schema_get : forall (relevant : list str) (original : Schema) t,
  assoc_get str_eqb t (restrict_schema relevant original)
  = if str_mem t relevant then assoc_get str_eqb t original else None.
Proof.
  intros relevant original t. unfold restrict_schema. rewrite restrict_fold_get.
  destruct (assoc_get str_eqb t original); [|destruct (str_mem t relevant)]; reflexivity.
Qed.

(** X21. The filtered schema of [format_enriched_context]
    ([{t: original[t] for t in relevant_tables if t in original}]) has
    distinct tables, and looking a table up in it gives its columns in the
    original schema when the table is relevant, and nothing otherwise. *)
Theorem restrict_schema_spec : forall (relevant : list str) (original : Schema),
  NoDup (map fst (restrict_schema relevant original)) /\
  forall t, assoc_get str_eqb t (restrict_schema relevant original)
            = if str_mem t relevant then assoc_get str_eqb t original else None.
Proof.
  intros relevant original. unfold restrict_schema. split.
  - apply restrict_fold_NoDup. constructor.
  - intro t. fold (restrict_schema relevant original). apply restrict_schema_get.
Qed.

(** X22. If no relevant table of the context is a table of the original
    schema (in particular when there are none) and there is no column
    match, [format_enriched_context] falls back to the whole original
    schema and consists of the header line and its schema text only. *)
Theorem format_enriched_context_fallback :
  forall (r : Resolver) (h : list (Loc * Schema)) (enriched : EnrichedContext) (original : Schema),
  heap_get h (original_schema enriched) = Some original ->
  (forall t, In t (relevant_tables enriched) -> assoc_get str_eqb t original = None) ->
  column_matches enriched = [] ->
  format_enriched_context r h enriched
    = s "Matching mode: " ++ mode_name r ++ newline ++ format_schema_for_prompt original.
Proof.
  intros r h enriched original Hh Hrel Hm.
  unfold format_enriched_context, format_enriched_parts. rewrite Hh, Hm.
  replace (restrict_schema (relevant_tables enriched) original) with (@nil (str * list ColInfo)).
  { reflexivity. }
  destruct (restrict_schema (relevant_tables enriched) original) as [|[t c] rest] eqn:E; [reflexivity|].
  exfalso. pose proof (restrict_schema_get (relevant_tables enriched) original t) as Ht.
  rewrite E in Ht. simpl in Ht. rewrite str_eqb_refl in Ht.
  destruct (str_mem t (relevant_tables enriched)) eqn:Em; [|discriminate].
  apply str_mem_In in Em. rewrite (Hrel t Em) in Ht. discriminate.
Qed.

Lemma format_enriched_context_fallback_witness :
  heap_get [(0, Doubles.orders_schema)] 0 = Some Doubles.orders_schema /\
  format_enriched_context (Doubles.resolver_fuzzy Doubles.orders_schema) [(0, Doubles.orders_schema)]
    (mkEnrichedContext 0 [] [] [s "customers"])
  = s "Matching mode: " ++ s "fuzzy" ++ newline ++ format_schema_for_prompt Doubles.orders_schema.
Proof.
  assert (Hh : heap_get [(0, Doubles.orders_schema)] 0 = Some Doubles.orders_schema) by reflexivity.
  assert (Hrel : forall t, In t (relevant_tables (mkEnrichedContext 0 [] [] [s "customers"])) ->
                   assoc_get str_eqb t Doubles.orders_schema = None).
  { intros t [Ht | []]. subst t. vm_compute. reflexivity. }
  split; [exact Hh|].
  exact (format_enriched_context_fallback (Doubles.resolver_fuzzy Doubles.orders_schema)
           [(0, Doubles.orders_schema)] (mkEnrichedContext 0 [] [] [s "customers"])
           Doubles.orders_schema Hh Hrel eq_refl).
Defined.

Lemma detect_relationships_spec_witness :
  In (s "orders.customer_id <-> customers.customer_id")
     (detect_relationships Doubles.ratio_substring Doubles.customers_schema).
Proof.
  apply (proj2 (detect_relationships_spec Doubles.ratio_substring Doubles.customers_schema _)).
  exists [], [], [], (s "orders"), (s "customers"),
    (mkColInfo (s "customer_id") (s "BIGINT")), (mkColInfo (s "customer_id") (s "BIGINT")).
  split; [reflexivity|]. split; [left; reflexivity|]. split; [left; reflexivity|].
  split; [apply Z.leb_le; vm_compute; reflexivity | reflexivity].
Defined.

Lemma prepare_payload_key_error_witness :
  prepare_anthropic_payload [[(s "role", s "user")]; [(s "content", s "hi")];
                             [(s "role", s "system")]] = inr (KeyError (s "role")) /\
  exists pre m post,
    [[(s "role", s "user")]; [(s "content", s "hi")]; [(s "role", s "system")]]
      = pre ++ m :: post /\
    (forall m', In m' pre -> msg_get (s "role") m' <> None /\
       (msg_get (s "role") m' = Some (s "system") -> msg_get (s "content") m' <> None)) /\
    ((msg_get (s "role") m = None /\ KeyError (s "role") = KeyError (s "role")) \/
     (msg_get (s "role") m = Some (s "system") /\ msg_get (s "content") m = None /\
      KeyError (s "role") = KeyError (s "content"))).
Proof.
  assert (H : prepare_anthropic_payload [[(s "role", s "user")]; [(s "content", s "hi")];
                [(s "role", s "system")]] = inr (KeyError (s "role"))) by reflexivity.
  split; [exact H|].
  exact (proj1 (proj2 (prepare_payload_key_error _) _) H).
Defined.

Lemma correction_prompt_contents_witness :
  exists u,
    map (msg_get (s "content"))
      (get_correction_prompt (s "Table: orders") (s "Total?") (s "SELECT x") (s "boom")
         [mkAttempt (s "SELECT y") (s "bad")])
      = [Some correction_system; Some u] /\
    exists p q, u = p ++ (newline ++ s "Attempt " ++ nat_to_dec 1 ++ s ":" ++ newline
                          ++ s "SQL: " ++ s "SELECT y" ++ newline
                          ++ s "Error: " ++ s "bad" ++ newline) ++ q.
Proof.
  destruct (proj2 (correction_prompt_contents (s "Table: orders") (s "Total?") (s "SELECT x") (s "boom")
                     [mkAttempt (s "SELECT y") (s "bad")]))
    as [u [Hu [_ [_ [_ [_ Hk]]]]]].
  exists u. split; [exact Hu|].
  exact (Hk 0 (mkAttempt (s "SELECT y") (s "bad")) eq_refl).
Defined.
